(** * Scene-continuity video assembly pipeline: model and verified properties

    A shallow embedding of the pipeline code of the repository

    - [video_generation_reference.py]: [generate_scenes], [stitch_videos],
      [generate_narration_audio], [generate_video];
    - [src/generators/video_generator.py]: [VideoGenerator._get_video_durations]
      and the completion wait of [VideoGenerator.generate_videos];
    - [luma_video_gen.py]: the completion wait of
      [LumaVideoGenerator.generate_video];
    - [src/generators/sound_generator.py]:
      [SoundGenerator.generate_sound_effects];
    - [luma_image_gen.py]: [generate_image];
    - [eleven_labs_tts.py]: [generate_speech].

    Conventions of the model.

    - A Python value that is either [None] or a [str] is an [option string];
      its truth value is [truthy].  A string stands for a [str] by its bytes
      in UTF-8.
    - The network services (upload, render, sound effects, LoRA inference,
      speech, language model, generation status) are oracles: the answer to
      the k-th call of a service is a field of the environment record, and the
      world counts the calls made so far.  Every run of the program against
      real services is the run against the oracle that lists the answers
      those services gave.
    - The file system is a finite map from paths to files; a file has a size
      and a decoded view (video, audio, image, or none).
    - A video clip is its list of frames and an optional audio track; one
      frame and one audio sample last one time tick, so that a duration is a
      length.  Audio samples stay symbolic (amplitudes are floats in the
      source).
    - An exception is a value of [error]; a computation that can raise returns
      a [result] next to the new world.
    - Local file operations (makedirs, imwrite, write_videofile, copy of an
      existing file) are taken to succeed. *)

From Stdlib Require Import ZArith Lia Ascii String List Bool.
From stdpp Require Import base tactics option list gmap strings pretty.

Local Open Scope string_scope.
Local Open Scope Z_scope.

(** ** Python values and exceptions *)

Definition pystr : Type := option string.

Definition truthy (v : pystr) : bool :=
  match v with
  | Some s => negb (String.eqb s "")
  | None => false
  end.

(** [a != b] on values that are [None] or strings. *)
Definition py_ne (a b : pystr) : bool :=
  match a, b with
  | Some x, Some y => negb (String.eqb x y)
  | None, None => false
  | _, _ => true
  end.

Inductive error : Type :=
| ValueError (msg : string)
| RuntimeError (msg : string)
| TimeoutError (msg : string)
| IndexError (msg : string)
| ZeroDivisionError (msg : string)
| AttributeError (msg : string)
| OSError (msg : string).

Definition str_of_error (e : error) : string :=
  match e with
  | ValueError m | RuntimeError m | TimeoutError m
  | IndexError m | ZeroDivisionError m | AttributeError m | OSError m => m
  end.

Inductive result (A : Type) : Type :=
| Ok (a : A)
| Raise (e : error).
Arguments Ok {A} a.
Arguments Raise {A} e.

Definition is_ok {A} (r : result A) : bool :=
  match r with Ok _ => true | Raise _ => false end.

Definition sumZ (l : list Z) : Z := fold_right Z.add 0 l.

(** ** Segment planner *)

Module Planner.

(** [video_generation_reference.py], lines 588-607: the lookup inlined in
    [generate_scenes]. *)
Definition video_durations (video_engine : string) (scene_duration : Z)
  : result (list Z) :=
  if String.eqb video_engine "ltx" || String.eqb video_engine "fal" then
    if scene_duration =? 5 then Ok [5]
    else if scene_duration =? 10 then Ok [5; 5]
    else Raise (ValueError ("Invalid scene duration for " ++ video_engine
                  ++ ": " ++ pretty scene_duration ++ ". Must be 5 or 10."))
  else
    if (scene_duration =? 5) || (scene_duration =? 9) then Ok [scene_duration]
    else if scene_duration =? 14 then Ok [5; 9]
    else if scene_duration =? 18 then Ok [9; 9]
    else Raise (ValueError ("Invalid scene duration for Luma: "
                  ++ pretty scene_duration ++ ". Must be 5, 9, 14, or 18.")).






End Planner.

(** ** Files, clips and the world *)

Definition frame : Type := nat.

(** Audio samples are symbolic: a sample of a source, silence, a sample at a
    volume given in percent ([volumex]), or the sum of two samples played
    together (a composite). *)
Inductive sample : Type :=
| Src (id : nat)
| Silence
| Vol (percent : nat) (s : sample)
| Mix (a b : sample).

(** A file is seen through what a decoder makes of it; a file that no
    decoder reads is known by its size only. *)
Inductive file : Type :=
| FVideo (frames : list frame) (track : option (list sample))
| FAudio (track : list sample)
| FImage (f : frame)
| FRaw (size : N).

(** [os.path.getsize(p) > 0]: a decodable file is never empty. *)
Definition getsize_positive (f : file) : bool :=
  match f with
  | FRaw n => (0 <? n)%N
  | _ => true
  end.

Record clip : Type := { frames : list frame; audio : option (list sample) }.

Definition duration (c : clip) : nat := length (frames c).

(** What the program does to the outside, in the order it does it (the
    newest event is the head of the trace). *)
Inductive event : Type :=
| EvRender (i vid_idx : nat) (secs : Z) (output_path : string)
           (image_url : option string)
| EvUpload (path : string)
| EvSleep (secs : Z)
| EvToken (i vid_idx n_segs : nat) (url : pystr)
| EvSound (i : nat) (entry : pystr)
| EvConcat (inputs : list string) (output : string)
| EvCopy (src dst : string).

Record world : Type := {
  fs : gmap string file;
  n_upload : nat;
  n_render : nat;
  n_sfx : nat;
  n_lora : nat;
  trace : list event
}.

Definition set_fs (f : gmap string file -> gmap string file) (w : world) : world :=
  {| fs := f (fs w); n_upload := n_upload w; n_render := n_render w;
     n_sfx := n_sfx w; n_lora := n_lora w; trace := trace w |}.

Definition tick_upload (w : world) : world :=
  {| fs := fs w; n_upload := S (n_upload w); n_render := n_render w;
     n_sfx := n_sfx w; n_lora := n_lora w; trace := trace w |}.

Definition tick_render (w : world) : world :=
  {| fs := fs w; n_upload := n_upload w; n_render := S (n_render w);
     n_sfx := n_sfx w; n_lora := n_lora w; trace := trace w |}.

Definition tick_sfx (w : world) : world :=
  {| fs := fs w; n_upload := n_upload w; n_render := n_render w;
     n_sfx := S (n_sfx w); n_lora := n_lora w; trace := trace w |}.

Definition tick_lora (w : world) : world :=
  {| fs := fs w; n_upload := n_upload w; n_render := n_render w;
     n_sfx := n_sfx w; n_lora := S (n_lora w); trace := trace w |}.

Definition record (e : event) (w : world) : world :=
  {| fs := fs w; n_upload := n_upload w; n_render := n_render w;
     n_sfx := n_sfx w; n_lora := n_lora w; trace := e :: trace w |}.

(** Answers of the services. *)
Inductive render_outcome : Type :=
| RenderRaises (msg : string)
| RenderReturns (saved : option file).

Inductive sfx_outcome : Type :=
| SfxRaises (partial : option file)
| SfxWrites (f : file).

(** A scene of the plan.  The prompts of a scene only flow into the services,
    whose answers are oracles, and are left out. *)
Record scene : Type := { scene_number : Z; scene_duration : Z }.

Record env : Type := {
  timestamp : string;
  eleven_labs_api_key : bool;
  luma_api_key : bool;
  uploader_init : option error;
  fal_init : option error;
  luma_init : option error;
  upload_image_resp : nat -> result pystr;
  render_resp : nat -> render_outcome;
  sfx_resp : nat -> sfx_outcome;
  lora_resp : nat -> option string;
  image_resp : option pystr;
  metadata_resp : result (list scene);
  narration_text_resp : result string;
  speech_resp : option file
}.

Definition video_dir (E : env) : string :=
  "generated_videos/video_" ++ timestamp E.

(** ** The monad of the pipeline: state and exceptions *)

Definition M (A : Type) : Type := world -> result A * world.

Definition ret {A} (a : A) : M A := fun w => (Ok a, w).

Definition bind {A B} (m : M A) (k : A -> M B) : M B :=
  fun w =>
    match m w with
    | (Ok a, w') => k a w'
    | (Raise e, w') => (Raise e, w')
    end.

Definition raise {A} (e : error) : M A := fun w => (Raise e, w).

(** [try: m except Exception as e: h e] *)
Definition try_except {A} (m : M A) (h : error -> M A) : M A :=
  fun w =>
    match m w with
    | (Ok a, w') => (Ok a, w')
    | (Raise e, w') => h e w'
    end.

Definition emit (e : event) : M unit := fun w => (Ok tt, record e w).

Definition get_fs : M (gmap string file) := fun w => (Ok (fs w), w).

Definition write_file (p : string) (f : file) : M unit :=
  fun w => (Ok tt, set_fs (insert p f) w).

Definition sleep (secs : Z) : M unit := emit (EvSleep secs).

Declare Scope pipeline_scope.
Delimit Scope pipeline_scope with pipeline.
Notation "'do' x <- m ; k" := (bind m (fun x => k))
  (at level 20, x name, m at level 100, k at level 200,
   format "'[v' 'do'  x  <-  m ; '/' k ']'") : pipeline_scope.
Notation "'run' m ; k" := (bind m (fun _ => k))
  (at level 20, m at level 100, k at level 200,
   format "'[v' 'run'  m ; '/' k ']'") : pipeline_scope.
Local Open Scope pipeline_scope.

(** ** Library calls on files and clips *)

Definition exists_path (p : string) : M bool :=
  fun w => (Ok (bool_decide (is_Some (fs w !! p))), w).

(** [os.path.basename] *)
Fixpoint has_slash (s : string) : bool :=
  match s with
  | EmptyString => false
  | String c rest => Ascii.eqb c "/"%char || has_slash rest
  end.

Fixpoint basename (s : string) : string :=
  match s with
  | EmptyString => EmptyString
  | String c rest =>
      if has_slash rest then basename rest
      else if Ascii.eqb c "/"%char then rest else s
  end.

(** [shutil.copy2(src, dst)] onto a file path. *)
Definition copy2 (src dst : string) : M unit :=
  fun w =>
    match fs w !! src with
    | Some f =>
        if String.eqb src dst
        then (Raise (OSError (src ++ " and " ++ dst ++ " are the same file")), w)
        else (Ok tt, record (EvCopy src dst) (set_fs (insert dst f) w))
    | None => (Raise (OSError ("No such file or directory: " ++ src)), w)
    end.

(** [VideoFileClip(path)] *)
Definition VideoFileClip (path : string) : M clip :=
  fun w =>
    match fs w !! path with
    | Some (FVideo frs tr) => (Ok {| frames := frs; audio := tr |}, w)
    | _ => (Raise (OSError ("MoviePy error: failed to read " ++ path)), w)
    end.

(** [AudioFileClip(path)]: the audio of an audio file, or of a video file
    that has a track. *)
Definition AudioFileClip (path : string) : M (list sample) :=
  fun w =>
    match fs w !! path with
    | Some (FAudio tr) => (Ok tr, w)
    | Some (FVideo _ (Some tr)) => (Ok tr, w)
    | _ => (Raise (OSError ("MoviePy error: failed to read " ++ path)), w)
    end.

(** [[VideoFileClip(video) for video in paths]] *)
Fixpoint load_clips (paths : list string) : M (list clip) :=
  match paths with
  | [] => ret []
  | p :: rest =>
      do c <- VideoFileClip p;
      do cs <- load_clips rest;
      ret (c :: cs)
  end.

(** The audio a clip contributes to a concatenation: its track cut or padded
    with silence to the clip's duration. *)
Definition fit_track (n : nat) (tr : list sample) : list sample :=
  firstn n (tr ++ repeat Silence n).

Definition track_of (c : clip) : list sample :=
  match audio c with
  | Some tr => fit_track (duration c) tr
  | None => repeat Silence (duration c)
  end.

Definition has_audio (c : clip) : bool :=
  match audio c with Some _ => true | None => false end.

(** [concatenate_videoclips(clips)]: the clips one after the other; the result
    has audio when one of them has. *)
Definition concatenate_videoclips (clips : list clip) : clip :=
  {| frames := concat (map frames clips);
     audio := if existsb has_audio clips
              then Some (concat (map track_of clips)) else None |}.

(** [clip.write_videofile(path)] *)
Definition write_videofile (c : clip) (path : string) : M unit :=
  write_file path (FVideo (frames c) (audio c)).

(** [clip.subclip(0, t_end)] on the video and on the audio side. *)
Definition subclip_video (c : clip) (t_end : nat) : clip :=
  {| frames := firstn t_end (frames c);
     audio := option_map (firstn t_end) (audio c) |}.

Definition subclip_audio (tr : list sample) (t_end : nat) : list sample :=
  firstn t_end tr.

Definition set_audio (c : clip) (tr : list sample) : clip :=
  {| frames := frames c; audio := Some tr |}.

(** ** [generate_scenes] ([video_generation_reference.py], lines 514-830) *)

Record args : Type := {
  video_engine : string;
  skip_sound_effects : bool;
  initial_image_path : pystr;
  initial_image_prompt : pystr;
  lora_in_first_frame_mode : bool;
  lora_inference : bool;
  lora_path : pystr
}.

(** The two continuity tokens of the chain. *)
Record chain : Type := {
  last_frame_url : pystr;
  segment_last_frame_url : pystr
}.

Definition max_retries : nat := 3.

(** Lines 698-705, 720-727 and 749-756: the starting frame of a segment, the
    same four-way choice for the three engines. *)
Definition select_start_frame (i vid_idx : nat)
    (first_frame_of_first_scene_url scene_start_image_url : pystr)
    (c : chain) : pystr :=
  if (vid_idx =? 1)%nat && (i =? 0)%nat && truthy first_frame_of_first_scene_url
  then first_frame_of_first_scene_url
  else if (vid_idx =? 1)%nat && truthy scene_start_image_url
  then scene_start_image_url
  else if (vid_idx =? 1)%nat && (0 <? i)%nat && truthy (last_frame_url c)
  then last_frame_url c
  else if (1 <? vid_idx)%nat && truthy (segment_last_frame_url c)
  then segment_last_frame_url c
  else None.

(** Lines 796-799: an accepted URL becomes the cross-scene token after the
    last segment of a scene and the within-scene token otherwise. *)
Definition publish_token (vid_idx n_segs : nat) (new_frame_url : pystr)
    (c : chain) : chain :=
  if (vid_idx =? n_segs)%nat
  then {| last_frame_url := new_frame_url;
          segment_last_frame_url := segment_last_frame_url c |}
  else {| last_frame_url := last_frame_url c;
          segment_last_frame_url := new_frame_url |}.

Section GenerateScenes.

Variable E : env.
Variable a : args.

Definition scene_dir (sc : scene) : string :=
  video_dir E ++ "/scene_" ++ pretty (scene_number sc) ++ "_all_vid_" ++ timestamp E.

Definition segment_video_path (sc : scene) (n_segs vid_idx : nat) : string :=
  if (n_segs =? 1)%nat
  then scene_dir sc ++ "/scene_" ++ pretty (scene_number sc) ++ "_"
         ++ timestamp E ++ ".mp4"
  else scene_dir sc ++ "/scene_" ++ pretty (scene_number sc) ++ "_vid_"
         ++ pretty vid_idx ++ "_" ++ timestamp E ++ ".mp4".

Definition segment_frame_path (sc : scene) (n_segs vid_idx : nat) : string :=
  if (n_segs =? 1)%nat
  then scene_dir sc ++ "/scene_" ++ pretty (scene_number sc) ++ "_last_frame.jpg"
  else scene_dir sc ++ "/scene_" ++ pretty (scene_number sc) ++ "_vid_"
         ++ pretty vid_idx ++ "_last_frame.jpg".

Definition scene_final_path (sc : scene) : string :=
  video_dir E ++ "/scene_" ++ pretty (scene_number sc) ++ "_" ++ timestamp E ++ ".mp4".

Definition sound_effect_path (sc : scene) : string :=
  scene_dir sc ++ "/scene_" ++ pretty (scene_number sc) ++ "_sound.mp3".

(** [uploader.upload_image(path)]: the next answer of the upload service. *)
Definition upload_image (path : string) : M pystr :=
  fun w =>
    (upload_image_resp E (n_upload w), tick_upload (record (EvUpload path) w)).

(** Lines 554-580: the initial frame of the first scene. *)
Definition initial_frame : M pystr :=
  if truthy (initial_image_path a) || truthy (initial_image_prompt a) then
    do there <- match initial_image_path a with
                | Some p => exists_path p
                | None => ret false
                end;
    if truthy (initial_image_path a) && there then
      match initial_image_path a with
      | Some p =>
          run copy2 p (video_dir E ++ "/" ++ basename p);
          upload_image p
      | None => ret None
      end
    else if truthy (initial_image_prompt a) then
      match image_resp E with
      | Some image_url => if truthy image_url then ret image_url else ret None
      | None => ret None
      end
    else ret None
  else ret None.

(** Lines 612-644: the sound effect of a scene; every failure gives [None]. *)
Definition convert_sound_effect (path : string) : M unit :=
  fun w =>
    match sfx_resp E (n_sfx w) with
    | SfxRaises None =>
        (Raise (RuntimeError "sound effect generation failed"), tick_sfx w)
    | SfxRaises (Some f) =>
        (Raise (RuntimeError "sound effect generation failed"),
         set_fs (insert path f) (tick_sfx w))
    | SfxWrites f => (Ok tt, set_fs (insert path f) (tick_sfx w))
    end.

Definition sound_effect (i : nat) (sc : scene) : M pystr :=
  do entry <-
    (if skip_sound_effects a then ret None
     else
       try_except
         (run convert_sound_effect (sound_effect_path sc);
          do files <- get_fs;
          match files !! sound_effect_path sc with
          | Some f => if getsize_positive f
                      then ret (Some (sound_effect_path sc)) else ret None
          | None => ret None
          end)
         (fun _ => ret None));
  run emit (EvSound i entry);
  ret entry.

(** Lines 664-676: the first frame of a scene in LoRA mode. *)
Definition lora_first_frame : M pystr :=
  if lora_in_first_frame_mode a
  then fun w => (Ok (lora_resp E (n_lora w)), tick_lora w)
  else ret None.

(** The call of the engine: it raises, or returns having saved a file or
    not. *)
Definition engine_call (i vid_idx : nat) (secs : Z) (video_path : string)
    (image_url : pystr) : M unit :=
  fun w =>
    let w1 := tick_render (record (EvRender i vid_idx secs video_path image_url) w) in
    match render_resp E (n_render w) with
    | RenderRaises msg => (Raise (RuntimeError msg), w1)
    | RenderReturns None => (Ok tt, w1)
    | RenderReturns (Some f) => (Ok tt, set_fs (insert video_path f) w1)
    end.

Definition engine_label : string :=
  if String.eqb (video_engine a) "fal" then "FAL"
  else if String.eqb (video_engine a) "ltx" then "LTX" else "Luma".

(** Lines 690-763: one render, any failure wrapped in a [RuntimeError]. *)
Definition render_segment (i vid_idx : nat) (secs : Z) (video_path : string)
    (image_url : pystr) : M unit :=
  try_except
    (run (if String.eqb (video_engine a) "fal" || String.eqb (video_engine a) "ltx"
             || String.eqb (video_engine a) "luma"
          then engine_call i vid_idx secs video_path image_url
          else raise (AttributeError
                 "'NoneType' object has no attribute 'generate_video'"));
     do saved <- exists_path video_path;
     if saved then ret tt
     else raise (RuntimeError
            (engine_label ++ " video generation failed to save the video file")))
    (fun e => raise (RuntimeError
       (engine_label ++ " video generation failed: " ++ str_of_error e))).

(** Lines 767-788: the last frame of a segment, written as an image. *)
Definition extract_last_frame (video_path frame_path : string) : M unit :=
  do files <- get_fs;
  match files !! video_path with
  | Some (FVideo frs _) =>
      match last frs with
      | Some fr => write_file frame_path (FImage fr)
      | None => raise (RuntimeError
                  ("Failed to extract last frame from video: " ++ video_path))
      end
  | _ => raise (RuntimeError ("Could not open video file: " ++ video_path))
  end.

(** Lines 793-804: the [while retry_count < max_retries] loop; [remaining] is
    [max_retries - retry_count].  It returns the final [retry_count] and the
    tokens. *)
Fixpoint upload_while (remaining retry_count : nat) (frame_path : string)
    (i vid_idx n_segs : nat) (c : chain) : M (nat * chain) :=
  match remaining with
  | O => ret (retry_count, c)
  | S remaining' =>
      do new_frame_url <- upload_image frame_path;
      if py_ne new_frame_url (segment_last_frame_url c) then
        run emit (EvToken i vid_idx n_segs new_frame_url);
        ret (retry_count, publish_token vid_idx n_segs new_frame_url c)
      else
        run sleep 2;
        upload_while remaining' (S retry_count) frame_path i vid_idx n_segs c
  end.

(** Lines 790-807. *)
Definition upload_frame (sc : scene) (frame_path : string)
    (i vid_idx n_segs : nat) (c : chain) : M chain :=
  do r <- upload_while max_retries 0 frame_path i vid_idx n_segs c;
  if (fst r =? max_retries)%nat
  then raise (RuntimeError ("Failed to get unique frame URL for video "
                ++ pretty vid_idx ++ " in scene " ++ pretty (scene_number sc)))
  else ret (snd r).

(** Lines 678-807: the segments of a scene, [vid_idx] counting from 1. *)
Fixpoint segments (i : nat) (sc : scene) (n_segs : nat)
    (first_frame_of_first_scene_url scene_start_image_url : pystr)
    (vid_idx : nat) (video_durations : list Z)
    (c : chain) (scene_videos : list string) : M (chain * list string) :=
  match video_durations with
  | [] => ret (c, scene_videos)
  | secs :: rest =>
      let video_path := segment_video_path sc n_segs vid_idx in
      run render_segment i vid_idx secs video_path
            (select_start_frame i vid_idx first_frame_of_first_scene_url
               scene_start_image_url c);
      run extract_last_frame video_path (segment_frame_path sc n_segs vid_idx);
      do c' <- upload_frame sc (segment_frame_path sc n_segs vid_idx)
                 i vid_idx n_segs c;
      segments i sc n_segs first_frame_of_first_scene_url scene_start_image_url
        (S vid_idx) rest c' (scene_videos ++ [video_path])
  end.

(** Lines 809-826: the video of a scene. *)
Definition stitch_scene (sc : scene) (scene_videos : list string) : M string :=
  if (1 <? length scene_videos)%nat then
    do scene_clips <- load_clips scene_videos;
    run emit (EvConcat scene_videos (scene_final_path sc));
    run write_videofile (concatenate_videoclips scene_clips) (scene_final_path sc);
    ret (scene_final_path sc)
  else
    match scene_videos with
    | single_video_path :: _ =>
        run copy2 single_video_path (scene_final_path sc);
        ret (scene_final_path sc)
    | [] => raise (IndexError "list index out of range")
    end.

Definition lift {A} (r : result A) : M A := fun w => (r, w).

(** Lines 582-828: one scene. *)
Definition scene_step (i : nat) (sc : scene)
    (first_frame_of_first_scene_url last : pystr) : M (pystr * string * pystr) :=
  do video_durations <- lift (Planner.video_durations (video_engine a) (scene_duration sc));
  do sound <- sound_effect i sc;
  do scene_start_image_url <- lora_first_frame;
  do r <- segments i sc (length video_durations) first_frame_of_first_scene_url
            scene_start_image_url 1 video_durations
            {| last_frame_url := last; segment_last_frame_url := None |} [];
  do final <- stitch_scene sc (snd r);
  run sleep 2;
  ret (last_frame_url (fst r), final, sound).

(** Lines 582-830: the loop over [enumerate(scenes)]. *)
Fixpoint scenes_loop (i : nat) (scenes : list scene)
    (first_frame_of_first_scene_url last : pystr)
    (scene_video_files : list string) (sound_effect_files : list pystr)
  : M (list string * list pystr) :=
  match scenes with
  | [] => ret (scene_video_files, sound_effect_files)
  | sc :: rest =>
      do r <- scene_step i sc first_frame_of_first_scene_url last;
      scenes_loop (S i) rest first_frame_of_first_scene_url (fst (fst r))
        (scene_video_files ++ [snd (fst r)]) (sound_effect_files ++ [snd r])
  end.

Definition init (o : option error) : M unit :=
  match o with Some e => raise e | None => ret tt end.

Definition generate_scenes (scenes : list scene) : M (list string * list pystr) :=
  run (if negb (skip_sound_effects a) && negb (eleven_labs_api_key E)
       then raise (ValueError
         "ELEVEN_LABS_API_KEY environment variable is required for sound effects generation")
       else ret tt);
  run init (uploader_init E);
  run (if String.eqb (video_engine a) "fal" then init (fal_init E) else ret tt);
  run (if String.eqb (video_engine a) "luma" then init (luma_init E) else ret tt);
  run (if lora_in_first_frame_mode a
          && (negb (lora_inference a) || negb (truthy (lora_path a)))
       then raise (ValueError
         "lora_inference and lora_path must be provided when lora_in_first_frame_mode is enabled")
       else ret tt);
  do first_frame_of_first_scene_url <- initial_frame;
  scenes_loop 0 scenes first_frame_of_first_scene_url None [] [].

End GenerateScenes.

(** ** [stitch_videos] ([video_generation_reference.py], lines 949-1011) *)

(** Two tracks played together: sample by sample, the shorter one padded. *)
Fixpoint mix_tracks (x y : list sample) : list sample :=
  match x, y with
  | [], _ => y
  | _, [] => x
  | s :: x', t :: y' => Mix s t :: mix_tracks x' y'
  end.

Definition volumex (percent : nat) (tr : list sample) : list sample :=
  map (Vol percent) tr.

(** Lines 956-973: the sound effect of one scene attached to its video. *)
Definition attach_sound (video_clip : clip) (sound_file : pystr) : M clip :=
  match sound_file with
  | Some p =>
      do there <- exists_path p;
      if truthy sound_file && there then
        try_except
          (do audio_clip <- AudioFileClip p;
           if (duration video_clip <? length audio_clip)%nat then
             ret (set_audio video_clip
                    (subclip_audio audio_clip (duration video_clip)))
           else if (length audio_clip <? duration video_clip)%nat then
             ret (set_audio (subclip_video video_clip (length audio_clip))
                    audio_clip)
           else ret (set_audio video_clip audio_clip))
          (fun _ => ret video_clip)
      else ret video_clip
  | None => ret video_clip
  end.

(** Lines 952-978: the loop over the pairs of [zip]. *)
Fixpoint final_clips_loop (pairs : list (string * pystr))
    (final_clips : list clip) : M (list clip) :=
  match pairs with
  | [] => ret final_clips
  | (video_file, sound_file) :: rest =>
      do final_clips' <-
        try_except
          (do video_clip <- VideoFileClip video_file;
           do video_clip' <- attach_sound video_clip sound_file;
           ret (final_clips ++ [video_clip'])%list)
          (fun _ => ret final_clips);
      final_clips_loop rest final_clips'
  end.

(** Lines 986-1001: narration mixed over the audio of the video. *)
Definition add_narration (final_clip : clip) (narration_audio_path : pystr)
  : M clip :=
  match narration_audio_path with
  | Some p =>
      do there <- exists_path p;
      if truthy narration_audio_path && there then
        try_except
          (do narration_audio <- AudioFileClip p;
           match audio final_clip with
           | Some final_audio =>
               ret (set_audio final_clip
                      (mix_tracks (volumex 70 final_audio)
                                  (volumex 100 narration_audio)))
           | None => ret (set_audio final_clip narration_audio)
           end)
          (fun _ => ret final_clip)
      else ret final_clip
  | None => ret final_clip
  end.

Definition final_video_path (E : env) : string :=
  video_dir E ++ "/final_video_" ++ timestamp E ++ ".mp4".

(** [sound_effect_files or [None] * len(video_files)] *)
Definition sounds_or_none (video_files : list string)
    (sound_effect_files : option (list pystr)) : list pystr :=
  match sound_effect_files with
  | Some (s :: l) => s :: l
  | _ => replicate (length video_files) None
  end.

Definition stitch_videos (E : env) (video_files : list string)
    (sound_effect_files : option (list pystr)) (narration_audio_path : pystr)
  : M string :=
  do final_clips <-
    final_clips_loop (zip video_files (sounds_or_none video_files sound_effect_files)) [];
  match final_clips with
  | [] => raise (RuntimeError "No video clips were successfully processed")
  | _ :: _ =>
      do final_clip <- add_narration (concatenate_videoclips final_clips)
                         narration_audio_path;
      run write_videofile final_clip (final_video_path E);
      ret (final_video_path E)
  end.

(** ** Narration and [generate_video] (lines 832-947 and 1013-1085) *)

(** A string stands for a Python [str] by its bytes in UTF-8.  The white space
    [str.strip()] removes is the code points 9-13, 28-32, U+0085, U+00A0,
    U+1680, U+2000-U+200A, U+2028, U+2029, U+202F, U+205F and U+3000:
    [is_space] is those of one byte, [is_space2] and [is_space3] are those of
    two and of three bytes. *)
Definition is_space (c : ascii) : bool :=
  let n := nat_of_ascii c in
  ((9 <=? n) && (n <=? 13) || (28 <=? n) && (n <=? 32))%nat.

Definition is_space2 (b0 b1 : ascii) : bool :=
  let n0 := nat_of_ascii b0 in
  let n1 := nat_of_ascii b1 in
  ((n0 =? 194) && ((n1 =? 133) || (n1 =? 160)))%nat.

Definition is_space3 (b0 b1 b2 : ascii) : bool :=
  let n0 := nat_of_ascii b0 in
  let n1 := nat_of_ascii b1 in
  let n2 := nat_of_ascii b2 in
  ((n0 =? 225) && (n1 =? 154) && (n2 =? 128)
   || (n0 =? 226) && (n1 =? 128)
      && ((128 <=? n2) && (n2 <=? 138) || (n2 =? 168) || (n2 =? 169)
          || (n2 =? 175))
   || (n0 =? 226) && (n1 =? 129) && (n2 =? 159)
   || (n0 =? 227) && (n1 =? 128) && (n2 =? 128))%nat.

(** [not text.strip()]: every character of the text is white space. *)
Fixpoint is_blank (s : string) : bool :=
  match s with
  | EmptyString => true
  | String b0 rest =>
      if is_space b0 then is_blank rest
      else
        match rest with
        | String b1 rest1 =>
            if is_space2 b0 b1 then is_blank rest1
            else
              match rest1 with
              | String b2 rest2 => is_space3 b0 b1 b2 && is_blank rest2
              | EmptyString => false
              end
        | EmptyString => false
        end
  end.

Definition calculate_total_duration (scenes : list scene) : Z :=
  sumZ (map scene_duration scenes).

Section Narration.

Variable E : env.

(** [eleven_labs_tts.generate_speech]: [True] when the audio was written. *)
Definition generate_speech (text output_path : string) : M bool :=
  if is_blank text then ret false
  else match speech_resp E with
       | Some f => run write_file output_path f; ret true
       | None => ret false
       end.

(** The time change of lines 926-933: the sample at tick [t] of the result is
    the sample at [speed_factor * t] of the original, over the target
    duration. *)
Definition speed_change (target : nat) (tr : list sample) : list sample :=
  map (fun t => nth (length tr * t / target) tr Silence) (seq 0 target).

(** Lines 908-947.  A negative target duration is taken to give an empty
    track. *)
Definition generate_narration_audio (narration_text : string)
    (target_duration : Z) : M pystr :=
  try_except
    (do success <- generate_speech narration_text
                     (video_dir E ++ "/narration_audio_" ++ timestamp E ++ ".mp3");
     if negb success then raise (RuntimeError "Failed to generate speech audio")
     else
       do audio <- AudioFileClip
                     (video_dir E ++ "/narration_audio_" ++ timestamp E ++ ".mp3");
       if target_duration =? 0
       then raise (ZeroDivisionError "float division by zero")
       else
         run write_file
               (video_dir E ++ "/narration_audio_adjusted_" ++ timestamp E ++ ".mp3")
               (FAudio (speed_change (Z.to_nat target_duration) audio));
         ret (Some (video_dir E ++ "/narration_audio_adjusted_"
                      ++ timestamp E ++ ".mp3")))
    (fun _ => ret None).

(** Lines 836-906: the text comes from the language model; any exception is
    raised again. *)
Definition generate_narration_text : M string :=
  do narration <- lift (narration_text_resp E);
  run write_file (video_dir E ++ "/narration_text_" ++ timestamp E ++ ".txt")
        (FRaw (N.of_nat (String.length narration)));
  ret narration.

(** The first component of the pair [generate_video] returns: the scene
    metadata (as JSON in the source) or the message of the exception. *)
Inductive report : Type :=
| Metadata (scenes : list scene)
| Message (msg : string).

(** Lines 1033-1040: the checks on the arguments. *)
Definition preflight (a : args) : M unit :=
  run (if truthy (initial_image_path a) && truthy (initial_image_prompt a)
       then raise (ValueError
         "Cannot provide both initial_image_path and initial_image_prompt. Please choose one.")
       else ret tt);
  run (if (truthy (initial_image_prompt a) || lora_in_first_frame_mode a)
          && negb (luma_api_key E)
       then raise (ValueError "Luma AI API key is required for image generation.")
       else ret tt);
  if lora_in_first_frame_mode a
     && (negb (lora_inference a) || negb (truthy (lora_path a)))
  then raise (ValueError
    "lora_inference and lora_path must be provided when lora_in_first_frame_mode is enabled")
  else ret tt.

(** Lines 1058-1064: the narration, when it is not skipped. *)
Definition narrate (scenes : list scene) (skip_narration : bool) : M pystr :=
  if negb skip_narration then
    do narration_text <- generate_narration_text;
    generate_narration_audio narration_text (calculate_total_duration scenes)
  else ret None.

(** Lines 1066-1083: the scenes, then the final video. *)
Definition render_and_stitch (a : args) (scenes : list scene)
    (narration_audio_path : pystr) : M (list scene * option string) :=
  do r <- generate_scenes E a scenes;
  do final_video <- stitch_videos E (fst r) (Some (snd r)) narration_audio_path;
  ret (scenes, Some final_video).

Definition generate_video_body (a : args) (metadata_only skip_narration : bool)
  : M (list scene * option string) :=
  run preflight a;
  do scenes <- lift (metadata_resp E);
  if metadata_only then ret (scenes, None)
  else
    do narration_audio_path <- narrate scenes skip_narration;
    render_and_stitch a scenes narration_audio_path.

(** Lines 1084-1085 and the two [return]s: an exception becomes
    [(str(e), None)]. *)
Definition report_of (r : result (list scene * option string) * world)
  : (report * option string) * world :=
  match r with
  | (Ok (scenes, final_video), w') => ((Metadata scenes, final_video), w')
  | (Raise e, w') => ((Message (str_of_error e), None), w')
  end.

(** Lines 1013-1085. *)
Definition generate_video (a : args) (metadata_only skip_narration : bool)
    (w : world) : (report * option string) * world :=
  report_of (generate_video_body a metadata_only skip_narration w).

End Narration.

(** ** Waiting for a generation to complete *)

Module Polling.

(** The state of a generation as [generations.get] reports it. *)
Inductive generation_state : Type :=
| Completed
| Failed (failure_reason : string)
| Pending (state : string).

Definition terminal (s : generation_state) : bool :=
  match s with Pending _ => false | _ => true end.

(** The service under the wait: what the k-th [get] answers and how long
    that call takes.  The clock advances by the time a call takes and by what
    the program sleeps. *)
Record service : Type := {
  state_at : nat -> generation_state;
  latency_at : nat -> Z
}.

Record poll_world : Type := {
  clock : Z;
  n_get : nat;
  sleeps : list Z
}.

Definition get (svc : service) (w : poll_world) : generation_state * poll_world :=
  (state_at svc (n_get w),
   {| clock := clock w + latency_at svc (n_get w);
      n_get := S (n_get w); sleeps := sleeps w |}).

Definition sleep (secs : Z) (w : poll_world) : poll_world :=
  {| clock := clock w + secs; n_get := n_get w; sleeps := secs :: sleeps w |}.

(** The result of [fuel] turns of a wait: [None] while it is still
    polling. *)
Definition waited : Type := option (result unit) * poll_world.

End Polling.

Module LumaVideoGenerator.
Import Polling.

Definition timeout : Z := 300.

(** [luma_video_gen.py], lines 85-95: the [while True] loop. *)
Fixpoint wait_loop (svc : service) (fuel : nat) (start_time : Z) (w : poll_world)
  : waited :=
  match fuel with
  | O => (None, w)
  | S fuel' =>
      if clock w - start_time >? timeout
      then (Some (Raise (TimeoutError "Video generation timed out after 5 minutes")), w)
      else
        let (generation, w1) := get svc w in
        match generation with
        | Completed => (Some (Ok tt), w1)
        | Failed failure_reason =>
            (Some (Raise (RuntimeError ("Generation failed: " ++ failure_reason))), w1)
        | Pending _ => wait_loop svc fuel' start_time (sleep 3 w1)
        end
  end.

(** Lines 113-114: any exception is raised again as a [RuntimeError]. *)
Definition raised_again (r : result unit) : result unit :=
  match r with
  | Raise e => Raise (RuntimeError ("Failed to generate video: " ++ str_of_error e))
  | Ok x => Ok x
  end.

(** Lines 78-114, the wait of [generate_video]: the start time is read and
    the loop runs inside the handler. *)
Definition generate_video (svc : service) (fuel : nat) (w : poll_world) : waited :=
  let (r, w') := wait_loop svc fuel (clock w) w in
  (option_map raised_again r, w').

End LumaVideoGenerator.

Module VideoGenerator.
Import Polling.

(** [src/generators/video_generator.py], lines 158-165: the wait of
    [generate_videos]. *)
Fixpoint wait_loop (svc : service) (fuel : nat) (w : poll_world) : waited :=
  match fuel with
  | O => (None, w)
  | S fuel' =>
      let (generation, w1) := get svc w in
      match generation with
      | Completed => (Some (Ok tt), w1)
      | Failed failure_reason =>
          (Some (Raise (RuntimeError ("Generation failed: " ++ failure_reason))), w1)
      | Pending _ => wait_loop svc fuel' (sleep 3 w1)
      end
  end.

End VideoGenerator.

(** ** Reading a trace *)

(** The most recent accepted token among the events [older] (newest first):
    scene index, segment index, number of segments of the scene, URL. *)
Fixpoint last_token (older : list event) : option (nat * nat * nat * pystr) :=
  match older with
  | [] => None
  | EvToken i vid_idx n_segs url :: _ => Some (i, vid_idx, n_segs, url)
  | _ :: rest => last_token rest
  end.

(** The URLs accepted as tokens, oldest first. *)
Fixpoint accepted_tokens (tr : list event) : list pystr :=
  match tr with
  | [] => []
  | EvToken _ _ _ url :: older => (accepted_tokens older ++ [url])%list
  | _ :: older => accepted_tokens older
  end.

(** No token equals the token accepted just before it. *)
Fixpoint fresh_chain (tokens : list pystr) : Prop :=
  match tokens with
  | x :: (y :: _) as rest => x <> y /\ fresh_chain rest
  | _ => True
  end.

(** Where the starting frame of a render comes from.  [older] are the events
    before the render; [lora] tells whether LoRA first-frame mode is on. *)
Definition start_frame_ok (lora : bool) (first : pystr) (i vid_idx : nat)
    (image_url : pystr) (older : list event) : Prop :=
  match image_url with
  | None => True
  | Some u =>
      (exists k n_segs, vid_idx = S k /\ (1 <= k)%nat /\
         last_token older = Some (i, k, n_segs, Some u)) \/
      (vid_idx = 1%nat /\ exists j n_segs, i = S j /\
         last_token older = Some (j, n_segs, n_segs, Some u)) \/
      (vid_idx = 1%nat /\ i = 0%nat /\ first = Some u) \/
      (vid_idx = 1%nat /\ lora = true)
  end.

(** What an accepted URL was compared with: the first segment of a scene is
    compared with [None], a later segment with the token of the segment
    before it. *)
Definition token_ok (i vid_idx : nat) (url : pystr) (older : list event) : Prop :=
  (vid_idx = 1%nat /\ url <> None) \/
  (exists k n_segs held, vid_idx = S k /\ (1 <= k)%nat /\
     last_token older = Some (i, k, n_segs, held) /\ url <> held).

Definition event_ok (lora : bool) (first : pystr) (ev : event)
    (older : list event) : Prop :=
  match ev with
  | EvRender i vid_idx _ _ image_url => start_frame_ok lora first i vid_idx image_url older
  | EvToken i vid_idx _ url => token_ok i vid_idx url older
  | _ => True
  end.

Fixpoint trace_ok (lora : bool) (first : pystr) (tr : list event) : Prop :=
  match tr with
  | [] => True
  | ev :: older => event_ok lora first ev older /\ trace_ok lora first older
  end.

(** Events that are neither a render nor a token. *)
Definition quiet (ev : event) : bool :=
  match ev with
  | EvRender _ _ _ _ _ | EvToken _ _ _ _ => false
  | _ => true
  end.

(** The tokens at the start of segment [vid_idx] of scene [i], against the
    trace so far. *)
Definition chain_inv (i vid_idx : nat) (c : chain) (tr : list event) : Prop :=
  (vid_idx = 1%nat -> segment_last_frame_url c = None) /\
  (forall k, vid_idx = S k -> (1 <= k)%nat ->
     exists n_segs, last_token tr = Some (i, k, n_segs, segment_last_frame_url c)) /\
  (vid_idx = 1%nat -> i = 0%nat -> last_frame_url c = None) /\
  (vid_idx = 1%nat -> forall j, i = S j ->
     exists n_segs, last_token tr = Some (j, n_segs, n_segs, last_frame_url c)).

(** The cross-scene token at the start of scene [i]. *)
Definition scene_inv (i : nat) (last : pystr) (tr : list event) : Prop :=
  (i = 0%nat -> last = None) /\
  (forall j, i = S j ->
     exists n_segs, last_token tr = Some (j, n_segs, n_segs, last)).

(** A world in which nothing has happened yet. *)
Definition start_world (files : gmap string file) : world :=
  {| fs := files; n_upload := 0; n_render := 0; n_sfx := 0; n_lora := 0;
     trace := [] |}.

(** The initial frame of a run, as [generate_scenes] computes it. *)
Definition first_frame_of (E : env) (a : args) (w : world) : pystr :=
  match initial_frame E a w with
  | (Ok url, _) => url
  | (Raise _, _) => None
  end.

(** The events of the upload loop after [k] duplicates (newest first). *)
Fixpoint duplicate_events (k : nat) (frame_path : string) : list event :=
  match k with
  | O => []
  | S k' => EvSleep 2 :: EvUpload frame_path :: duplicate_events k' frame_path
  end.

(** What one run of the loop can be, after [k] duplicates: exhausted,
    accepted at attempt [k + 1], or interrupted by an exception of the
    upload. *)
Inductive loop_outcome (E : env) (frame_path : string) (i vid_idx n_segs : nat)
    (c : chain) (remaining retry_count : nat) (w : world)
  : result (nat * chain) -> world -> Prop :=
| loop_exhausted w' :
    (forall j, (j < remaining)%nat ->
       upload_image_resp E (n_upload w + j) = Ok (segment_last_frame_url c)) ->
    trace w' = (duplicate_events remaining frame_path ++ trace w)%list ->
    n_upload w' = (n_upload w + remaining)%nat ->
    loop_outcome E frame_path i vid_idx n_segs c remaining retry_count w
      (Ok ((retry_count + remaining)%nat, c)) w'
| loop_accepted k url w' :
    (k < remaining)%nat ->
    (forall j, (j < k)%nat ->
       upload_image_resp E (n_upload w + j) = Ok (segment_last_frame_url c)) ->
    upload_image_resp E (n_upload w + k) = Ok url ->
    url <> segment_last_frame_url c ->
    trace w' = (EvToken i vid_idx n_segs url :: EvUpload frame_path
                  :: duplicate_events k frame_path ++ trace w)%list ->
    n_upload w' = (n_upload w + S k)%nat ->
    loop_outcome E frame_path i vid_idx n_segs c remaining retry_count w
      (Ok ((retry_count + k)%nat, publish_token vid_idx n_segs url c)) w'
| loop_interrupted k e w' :
    (k < remaining)%nat ->
    (forall j, (j < k)%nat ->
       upload_image_resp E (n_upload w + j) = Ok (segment_last_frame_url c)) ->
    upload_image_resp E (n_upload w + k) = Raise e ->
    trace w' = (EvUpload frame_path :: duplicate_events k frame_path ++ trace w)%list ->
    n_upload w' = (n_upload w + S k)%nat ->
    loop_outcome E frame_path i vid_idx n_segs c remaining retry_count w
      (Raise e) w'.

(** ** Reading a wait *)

Module Waiting.
Import Polling.

(** The world after [j] turns of a wait that found the generation pending:
    each turn is one [get] and one sleep of 3. *)
Fixpoint turns (svc : service) (j : nat) (w : poll_world) : poll_world :=
  match j with
  | O => w
  | S j' => turns svc j' (sleep 3 (snd (get svc w)))
  end.

(** What a wait returns on a terminal state. *)
Definition outcome_of (s : generation_state) : result unit :=
  match s with
  | Failed failure_reason =>
      Raise (RuntimeError ("Generation failed: " ++ failure_reason))
  | _ => Ok tt
  end.

(** The generation is pending at the first [k] polls from [w] on. *)
Definition pending_for (svc : service) (w : poll_world) (k : nat) : Prop :=
  forall j, (j < k)%nat -> terminal (state_at svc (n_get w + j)) = false.

(** A wait has no ceiling: while the generation is pending it keeps polling,
    whatever the number of turns and the time elapsed. *)
Definition never_aborts_pending
    (wait : service -> nat -> poll_world -> waited) : Prop :=
  forall svc fuel w,
    (forall k, terminal (state_at svc k) = false) ->
    fst (wait svc fuel w) = None.

(** A generation that stays pending, each poll answered at once. *)
Definition dreaming : service :=
  {| state_at := fun _ => Pending "dreaming"; latency_at := fun _ => 0 |}.

(** A generation that completes at the third poll. *)
Definition completes_third : service :=
  {| state_at := fun k => if (k <? 2)%nat then Pending "dreaming" else Completed;
     latency_at := fun _ => 1 |}.

Definition poll_start : poll_world := {| clock := 0; n_get := 0; sleeps := [] |}.

End Waiting.

(** ** Stubs for concrete runs *)

(** An upload stub that answers the URL [old] twice and then [new]. *)
Definition twice_then_new (old new : string) (k : nat) : result pystr :=
  if (k <? 2)%nat then Ok (Some old) else Ok (Some new).

Definition stub_env (uploads : nat -> result pystr)
    (renders : nat -> render_outcome) (sounds : nat -> sfx_outcome) : env :=
  {| timestamp := "T";
     eleven_labs_api_key := true;
     luma_api_key := true;
     uploader_init := None;
     fal_init := None;
     luma_init := None;
     upload_image_resp := uploads;
     render_resp := renders;
     sfx_resp := sounds;
     lora_resp := fun _ => None;
     image_resp := None;
     metadata_resp := Ok [];
     narration_text_resp := Ok "narration";
     speech_resp := None |}.

(** A render stub: the k-th call saves a video of two frames. *)
Definition two_frames (k : nat) : render_outcome :=
  RenderReturns (Some (FVideo [k; S k] None)).

Definition no_sound (k : nat) : sfx_outcome := SfxRaises None.

Definition luma_args : args :=
  {| video_engine := "luma";
     skip_sound_effects := true;
     initial_image_path := None;
     initial_image_prompt := None;
     lora_in_first_frame_mode := false;
     lora_inference := false;
     lora_path := None |}.

Definition scene_of (n d : Z) : scene :=
  {| scene_number := n; scene_duration := d |}.

(** ** Reading the stitching steps *)

(** The file at [p] decodes to the clip [c]. *)
Definition holds_clip (w : world) (p : string) (c : clip) : Prop :=
  fs w !! p = Some (FVideo (frames c) (audio c)).

(** A video clip and a sound track brought to the shorter of the two
    durations (lines 961-970). *)
Definition paired (video_clip : clip) (tr : list sample) : clip :=
  if (duration video_clip <? length tr)%nat
  then set_audio video_clip (subclip_audio tr (duration video_clip))
  else if (length tr <? duration video_clip)%nat
  then set_audio (subclip_video video_clip (length tr)) tr
  else set_audio video_clip tr.

(** The audio a file decodes to, if any. *)
Definition audio_of (f : option file) : option (list sample) :=
  match f with
  | Some (FAudio tr) => Some tr
  | Some (FVideo _ (Some tr)) => Some tr
  | _ => None
  end.

(** The clip [stitch_videos] makes of one pair: a scene is dropped only when
    its video does not load; a sound file that is absent or does not load
    leaves the video as it is. *)
Definition attached (files : gmap string file) (video_clip : clip)
    (sound_file : pystr) : clip :=
  match sound_file with
  | Some p =>
      if truthy sound_file then
        match audio_of (files !! p) with
        | Some tr => paired video_clip tr
        | None => video_clip
        end
      else video_clip
  | None => video_clip
  end.

Definition scene_clip (files : gmap string file) (pair : string * pystr)
  : option clip :=
  match files !! pair.1 with
  | Some (FVideo frs tr) => Some (attached files {| frames := frs; audio := tr |} pair.2)
  | _ => None
  end.

(** The same as the specification words it: a scene is dropped when its video
    or its audio processing fails. *)
Definition claimed_scene_clip (files : gmap string file) (pair : string * pystr)
  : option clip :=
  match files !! pair.1 with
  | Some (FVideo frs tr) =>
      match pair.2 with
      | Some p =>
          if truthy pair.2 then
            match files !! p with
            | Some f =>
                match audio_of (Some f) with
                | Some tr' => Some (paired {| frames := frs; audio := tr |} tr')
                | None => None
                end
            | None => Some {| frames := frs; audio := tr |}
            end
          else Some {| frames := frs; audio := tr |}
      | None => Some {| frames := frs; audio := tr |}
      end
  | _ => None
  end.

(** Final assembly as the specification words it: the scenes that processed
    successfully, in order; a fatal error exactly when there is none. *)
Definition assembly_as_claimed : Prop :=
  forall E video_files sound_effect_files w,
    let pairs := zip video_files (sounds_or_none video_files sound_effect_files) in
    let clips := omap (claimed_scene_clip (fs w)) pairs in
    match fst (stitch_videos E video_files sound_effect_files None w) with
    | Raise _ => clips = []
    | Ok p =>
        clips <> [] /\
        exists tr, fs (snd (stitch_videos E video_files sound_effect_files None w)) !! p
                   = Some (FVideo (concat (map frames clips)) tr)
    end.

(** One scene whose video loads and whose sound file exists but does not
    decode. *)
Definition broken_sound_files : gmap string file :=
  <["scene_1.mp4" := FVideo [1%nat; 2%nat] None]>
    (<["scene_1_sound.mp3" := FRaw 10]> ∅).

(** ** Reading a run of [generate_video] *)

(** The narration of a run fails: it raises or gives no audio path. *)
Definition narration_fails (E : env) (scenes : list scene) (w : world) : Prop :=
  match fst (narrate E scenes false w) with
  | Ok (Some _) => False
  | _ => True
  end.

(** Narration as the specification words it: when it fails, the run goes on
    without it, from the world the failed narration left. *)
Definition narration_isolated : Prop :=
  forall E a scenes w,
    preflight E a w = (Ok tt, w) ->
    metadata_resp E = Ok scenes ->
    narration_fails E scenes w ->
    generate_video E a false false w =
      report_of (render_and_stitch E a scenes None (snd (narrate E scenes false w))).

(** A language model that fails on the narration text, all the rest
    working. *)
Definition no_narration_text : env :=
  {| timestamp := "T";
     eleven_labs_api_key := true;
     luma_api_key := true;
     uploader_init := None;
     fal_init := None;
     luma_init := None;
     upload_image_resp := fun _ => Ok (Some "u");
     render_resp := two_frames;
     sfx_resp := no_sound;
     lora_resp := fun _ => None;
     image_resp := None;
     metadata_resp := Ok [scene_of 1 5];
     narration_text_resp := Raise (RuntimeError "model unavailable");
     speech_resp := None |}.

(** The same with a text, and a speech service that fails. *)
Definition no_speech : env :=
  {| timestamp := "T";
     eleven_labs_api_key := true;
     luma_api_key := true;
     uploader_init := None;
     fal_init := None;
     luma_init := None;
     upload_image_resp := fun _ => Ok (Some "u");
     render_resp := two_frames;
     sfx_resp := no_sound;
     lora_resp := fun _ => None;
     image_resp := None;
     metadata_resp := Ok [scene_of 1 5];
     narration_text_resp := Ok "Once upon a time";
     speech_resp := None |}.

(** ** Relating the world before and after a computation *)

(** [m] takes a world to a world related to it by [R], whatever it returns. *)
Definition preserves {A} (R : world -> world -> Prop) (m : M A) : Prop :=
  forall w r w', m w = (r, w') -> R w w'.

(** A relation between worlds that the steps of the pipeline keep, the
    events they may record being those [allowed]; the sound-effect service is
    left out. *)
Class Stable (R : world -> world -> Prop) (allowed : event -> bool) : Prop := {
  stable_refl : forall w, R w w;
  stable_trans : forall w1 w2 w3, R w1 w2 -> R w2 w3 -> R w1 w3;
  stable_fs : forall f w, R w (set_fs f w);
  stable_upload : forall w, R w (tick_upload w);
  stable_render : forall w, R w (tick_render w);
  stable_lora : forall w, R w (tick_lora w);
  stable_event : forall e w, allowed e = true -> R w (record e w)
}.

(** The trace grew by quiet events only. *)
Definition extends_quietly (w w' : world) : Prop :=
  exists new_events,
    trace w' = (new_events ++ trace w)%list /\
    Forall (fun e => quiet e = true) new_events.

(** The trace grew. *)
Definition extends (w w' : world) : Prop :=
  exists new_events, trace w' = (new_events ++ trace w)%list.

(** The sound-effect service was not called. *)
Definition same_n_sfx (w w' : world) : Prop := n_sfx w' = n_sfx w.

Definition any_event (e : event) : bool := true.

(** The entry of a scene in [sound_effect_files] when the sound-effect
    service is at its k-th call. *)
Definition sound_entry (E : env) (a : args) (k : nat) (sc : scene) : pystr :=
  if skip_sound_effects a then None
  else match sfx_resp E k with
       | SfxWrites f =>
           if getsize_positive f then Some (sound_effect_path E sc) else None
       | SfxRaises _ => None
       end.

(** Where the starting frame of a render comes from when LoRA first-frame
    mode is off: (d) none, (a) the last frame of the segment before it in the
    scene, (b) the last frame of the last segment of the scene before, (c)
    the initial frame of the run. *)
Definition continuity_start_frame (first : pystr) (i vid_idx : nat)
    (image_url : pystr) (older : list event) : Prop :=
  image_url = None \/
  exists u, image_url = Some u /\
    ((exists k n_segs, vid_idx = S k /\ (1 <= k)%nat /\
        last_token older = Some (i, k, n_segs, Some u)) \/
     (vid_idx = 1%nat /\ exists j n_segs, i = S j /\
        last_token older = Some (j, n_segs, n_segs, Some u)) \/
     (vid_idx = 1%nat /\ i = 0%nat /\ first = Some u)).

(** The continuity chain as the specification words it: every accepted URL
    differs from the token held just before it, across scenes too. *)
Definition continuity_chain_fresh : Prop :=
  forall E a scenes files,
    fresh_chain
      (accepted_tokens (trace (snd (generate_scenes E a scenes (start_world files))))).

(** An upload service that answers the same URL every time. *)
Definition same_url (k : nat) : result pystr := Ok (Some "u").

(** What an accepted URL is compared with at segment [vid_idx] of scene [i]:
    [None] at the first segment, the token of the segment before
    otherwise. *)
Definition held_ok (i vid_idx : nat) (c : chain) (tr : list event) : Prop :=
  (vid_idx = 1%nat /\ segment_last_frame_url c = None) \/
  (exists k n_segs, vid_idx = S k /\ (1 <= k)%nat /\
     last_token tr = Some (i, k, n_segs, segment_last_frame_url c)).

(** The entries of [sound_effect_files] for the scenes, the sound-effect
    service being at its k-th call. *)
Fixpoint sound_entries (E : env) (a : args) (k : nat) (scenes : list scene)
  : list pystr :=
  match scenes with
  | [] => []
  | sc :: rest =>
      sound_entry E a k sc
        :: sound_entries E a (if skip_sound_effects a then k else S k) rest
  end.

(** The event by which the video of a scene came to be at [path]. *)
Definition stitched_to (path : string) (ev : event) : Prop :=
  (exists src, ev = EvCopy src path) \/ (exists inputs, ev = EvConcat inputs path).

(** An upload service that answers a new URL at every call. *)
Definition numbered_url (k : nat) : result pystr :=
  Ok (Some ("https://bucket/frame_" ++ pretty k)).

(** The run of the specification's end-to-end scenario: two scenes of 5 and
    14 seconds on the luma engine. *)
Definition two_scene_run : result (list string * list pystr) * world :=
  generate_scenes (stub_env numbered_url two_frames no_sound) luma_args
    [scene_of 1 5; scene_of 2 14] (start_world ∅).

(** Two scenes of 5 seconds, the upload answering the same URL both times. *)
Definition same_url_run : result (list string * list pystr) * world :=
  generate_scenes (stub_env same_url two_frames no_sound) luma_args
    [scene_of 1 5; scene_of 2 5] (start_world ∅).

(** ** Counting the calls of the services *)

(** A relation between worlds kept by every step that touches files and the
    trace only; the four flags tell which service counters may also move. *)
Class Calm (R : world -> world -> Prop) (up rd sx lr : bool) : Prop := {
  calm_refl : forall w, R w w;
  calm_trans : forall w1 w2 w3, R w1 w2 -> R w2 w3 -> R w1 w3;
  calm_fs : forall f w, R w (set_fs f w);
  calm_event : forall e w, R w (record e w);
  calm_upload : up = true -> forall w, R w (tick_upload w);
  calm_render : rd = true -> forall w, R w (tick_render w);
  calm_sfx : sx = true -> forall w, R w (tick_sfx w);
  calm_lora : lr = true -> forall w, R w (tick_lora w)
}.

Definition same_n_render (w w' : world) : Prop := n_render w' = n_render w.
Definition same_n_upload (w w' : world) : Prop := n_upload w' = n_upload w.
Definition same_n_lora (w w' : world) : Prop := n_lora w' = n_lora w.

(** The number of segments the planner gives a scene, none when it fails. *)
Definition planned_segments (video_engine : string) (sc : scene) : nat :=
  match Planner.video_durations video_engine (scene_duration sc) with
  | Ok video_durations => length video_durations
  | Raise _ => 0
  end.

Definition total_segments (video_engine : string) (scenes : list scene) : nat :=
  sum_list (map (planned_segments video_engine) scenes).

(** The duration of a scene is one the engine supports. *)
Definition supported (video_engine : string) (sc : scene) : bool :=
  is_ok (Planner.video_durations video_engine (scene_duration sc)).

(** A run with sound effects off, and one with LoRA first-frame mode off:
    [luma_args] is both. *)
Definition counted_run : result (list string * list pystr) * world :=
  generate_scenes (stub_env (twice_then_new "old" "new") two_frames no_sound)
    luma_args [scene_of 1 5; scene_of 2 14]
    {| fs := ∅; n_upload := 0; n_render := 0; n_sfx := 7; n_lora := 4;
       trace := [] |}.

(** What a run from [w] to [w'] with result [r] made of the render and upload
    services, against [n] planned segments: at most [n] renders and at most
    three uploads for each render made; when it succeeds, exactly [n]
    renders and at least one upload for each. *)
Definition calls_within {A} (n : nat) (w : world) (r : result A) (w' : world)
  : Prop :=
  (n_render w <= n_render w' <= n_render w + n)%nat /\
  (n_upload w <= n_upload w' <= n_upload w + 3 * (n_render w' - n_render w))%nat /\
  (is_ok r = true ->
     n_render w' = (n_render w + n)%nat /\ (n_upload w + n <= n_upload w')%nat).

(** ** Engines and saved files *)

(** The three engine names [generate_scenes] has a generator for. *)
Definition known_engine (video_engine : string) : bool :=
  String.eqb video_engine "fal" || String.eqb video_engine "ltx"
  || String.eqb video_engine "luma".

(** A render stub that returns without saving a file. *)
Definition saves_nothing (k : nat) : render_outcome := RenderReturns None.

(** Arguments naming an engine there is no generator for. *)
Definition veo_args : args :=
  {| video_engine := "veo";
     skip_sound_effects := true;
     initial_image_path := None;
     initial_image_prompt := None;
     lora_in_first_frame_mode := false;
     lora_inference := false;
     lora_path := None |}.

(** ** The last frame in [VideoGenerator] ([src/generators/video_generator.py]) *)

Module LastFrame.

(** Lines 42-61: [True] when a frame was read and written as an image. *)
Definition _extract_last_frame (video_path frame_path : string) : M bool :=
  do files <- get_fs;
  match files !! video_path with
  | Some (FVideo frs _) =>
      match last frs with
      | Some fr => run write_file frame_path (FImage fr); ret true
      | None => ret false
      end
  | _ => raise (RuntimeError ("Could not open video file: " ++ video_path))
  end.

(** Lines 174-197 of [generate_videos]: the frame is uploaded, and a token
    published, only when it was extracted. *)
Definition track_last_frame (E : env) (sc : scene) (video_path : string)
    (i vid_idx n_segs : nat) (c : chain) : M chain :=
  do extracted <- _extract_last_frame video_path
                    (segment_frame_path E sc n_segs vid_idx);
  if extracted
  then upload_frame E sc (segment_frame_path E sc n_segs vid_idx)
         i vid_idx n_segs c
  else ret c.

(** The same step in [video_generation_reference.py], lines 767-807. *)
Definition reference_last_frame (E : env) (sc : scene) (video_path : string)
    (i vid_idx n_segs : nat) (c : chain) : M chain :=
  run extract_last_frame video_path (segment_frame_path E sc n_segs vid_idx);
  upload_frame E sc (segment_frame_path E sc n_segs vid_idx) i vid_idx n_segs c.

End LastFrame.

(** ** [SoundGenerator.generate_sound_effects]
    ([src/generators/sound_generator.py], lines 13-49) *)

Module SoundGenerator.

(** Lines 30-46: the sound effect of one scene; the path is kept when the
    call and the writing went through. *)
Definition scene_sound (E : env) (sc : scene) : M pystr :=
  try_except
    (run convert_sound_effect E (sound_effect_path E sc);
     ret (Some (sound_effect_path E sc)))
    (fun _ => ret None).

(** Lines 23-48: the loop over the scenes. *)
Fixpoint sound_loop (E : env) (scenes : list scene)
    (sound_effect_files : list pystr) : M (list pystr) :=
  match scenes with
  | [] => ret sound_effect_files
  | sc :: rest =>
      do entry <- scene_sound E sc;
      sound_loop E rest (sound_effect_files ++ [entry])%list
  end.

Definition generate_sound_effects (E : env) (scenes : list scene)
  : M (list pystr) :=
  sound_loop E scenes [].

(** A sound stub that writes an empty file, and arguments that ask for
    sound effects. *)
Definition empty_sound (k : nat) : sfx_outcome := SfxWrites (FRaw 0).

Definition sound_args : args :=
  {| video_engine := "luma";
     skip_sound_effects := false;
     initial_image_path := None;
     initial_image_prompt := None;
     lora_in_first_frame_mode := false;
     lora_inference := false;
     lora_path := None |}.

End SoundGenerator.

(** ** [luma_image_gen.generate_image] ([luma_image_gen.py], lines 14-73) *)

Module LumaImageGen.
Import Polling.

(** [os.path.join(a, b)] *)
Definition starts_with_slash (s : string) : bool :=
  match s with
  | String c _ => Ascii.eqb c "/"%char
  | EmptyString => false
  end.

Fixpoint ends_with_slash (s : string) : bool :=
  match s with
  | EmptyString => false
  | String c EmptyString => Ascii.eqb c "/"%char
  | String _ rest => ends_with_slash rest
  end.

Definition path_join (a b : string) : string :=
  if starts_with_slash b then b
  else if String.eqb a "" || ends_with_slash a then a ++ b
  else a ++ "/" ++ b.

(** Lines 58-63, the download: the request, its status check or the opening
    of the file raises, and nothing is written; or the file is open for
    writing when the reading of the streamed body raises, which leaves it
    empty; or the body is written. *)
Inductive download_outcome : Type :=
| RequestRaises (e : error)
| BodyRaises (e : error)
| Downloaded (f : file).

(** What the image service answers: the id [generations.image.create] gives
    or the exception it raises, the states the polls report, the image URL of
    the completed generation, and the download of the image. *)
Record image_service : Type := {
  create_resp : result string;
  polls : service;
  image_asset : pystr;
  download_resp : download_outcome
}.

(** Lines 37-46, the [while not completed] loop: [Some true] when the
    generation completed, [Some false] when it failed, [None] while it is
    still polling.  The sleep of line 46 follows every poll that did not
    report a failure. *)
Fixpoint wait_loop (svc : service) (fuel : nat) (w : poll_world)
  : option bool * poll_world :=
  match fuel with
  | O => (None, w)
  | S fuel' =>
      let (generation, w1) := get svc w in
      match generation with
      | Completed => (Some true, sleep 2 w1)
      | Failed _ => (Some false, w1)
      | Pending _ => wait_loop svc fuel' (sleep 2 w1)
      end
  end.

(** Lines 26-73.  The result is [None] while the wait is still polling, and
    the pair the function returns otherwise; every exception ends in
    [(None, None)].  [os.makedirs] of the empty path raises. *)
Definition generate_image (X : image_service) (fuel : nat) (output_dir : string)
    (w : poll_world) (files : gmap string file)
  : option (pystr * pystr) * poll_world * gmap string file :=
  if String.eqb output_dir "" then (Some (None, None), w, files)
  else
    match create_resp X with
    | Raise _ => (Some (None, None), w, files)
    | Ok id =>
        match wait_loop (polls X) fuel w with
        | (None, w') => (None, w', files)
        | (Some false, w') => (Some (None, None), w', files)
        | (Some true, w') =>
            if negb (truthy (image_asset X))
            then (Some (None, None), w', files)
            else
              match download_resp X with
              | RequestRaises _ => (Some (None, None), w', files)
              | BodyRaises _ =>
                  (Some (None, None), w',
                   <[path_join output_dir (id ++ ".jpg") := FRaw 0]> files)
              | Downloaded f =>
                  (Some (image_asset X,
                         Some (path_join output_dir (id ++ ".jpg"))),
                   w', <[path_join output_dir (id ++ ".jpg") := f]> files)
              end
        end
    end.

(** An image service whose generation completes at the third poll. *)
Definition third_poll : image_service :=
  {| create_resp := Ok "gen-1";
     polls := Waiting.completes_third;
     image_asset := Some "https://luma/image.jpg";
     download_resp := Downloaded (FImage 7%nat) |}.

End LumaImageGen.

(** ** The seconds asked of the engine *)

(** Lines 692-695, 716-719 and 741-746: the planned duration of a segment is
    an argument of the call for luma only ([luma_args] has the entry
    ["duration"]); [fal_args] and [ltx_args] carry none, and those engines
    render at their own default. *)
Definition duration_arg (video_engine : string) (secs : Z) : option Z :=
  if String.eqb video_engine "fal" || String.eqb video_engine "ltx"
  then None else Some secs.

(** The durations passed to the engine in the render calls of a trace, added
    up. *)
Fixpoint rendered_secs (video_engine : string) (tr : list event) : Z :=
  match tr with
  | [] => 0
  | EvRender _ _ secs _ _ :: older =>
      default 0 (duration_arg video_engine secs)
      + rendered_secs video_engine older
  | _ :: older => rendered_secs video_engine older
  end.

Definition no_render (ev : event) : bool :=
  match ev with EvRender _ _ _ _ _ => false | _ => true end.

Definition same_rendered_secs (video_engine : string) (w w' : world) : Prop :=
  rendered_secs video_engine (trace w') = rendered_secs video_engine (trace w).

(** ** Files that stay *)

(** Every path that names a file in [w] names one in [w']. *)
Definition keeps_files (w w' : world) : Prop :=
  forall p, is_Some (fs w !! p) -> is_Some (fs w' !! p).

(** ** The videos behind the returned paths *)

(** The file at [p] is the same in [w'] as in [w]. *)
Definition same_at (p : string) (w w' : world) : Prop :=
  fs w' !! p = fs w !! p.

(** Lines 809-826 on clips: the video of a scene with one segment is that
    segment, and with more it is their concatenation, in their order. *)
Definition scene_video (clips : list clip) : clip :=
  match clips with
  | [c] => c
  | _ => concatenate_videoclips clips
  end.

(** The video of the scene [sc] in the world [w'] is that scene's: the planner
    gives it the segments [durs], the file at the path of its k-th segment
    decodes to a clip, which is the file the engine saved in the k-th render
    call made for the scene (the calls made for it start at [first_call])
    when that call saved one, and the file at the path of its video is
    [scene_video] of these clips. *)
Definition holds_scene_video (E : env) (a : args) (first_call : nat)
    (sc : scene) (w' : world) : Prop :=
  exists video_durations clips,
    Planner.video_durations (video_engine a) (scene_duration sc)
    = Ok video_durations /\
    length clips = length video_durations /\
    (forall k c,
       clips !! k = Some c ->
       holds_clip w' (segment_video_path E sc (length video_durations) (S k)) c /\
       forall f, render_resp E (first_call + k) = RenderReturns (Some f) ->
                 f = FVideo (frames c) (audio c)) /\
    holds_clip w' (scene_final_path E sc) (scene_video clips).

(** The lists of a successful [generate_scenes], entry by entry, for every
    list of scenes. *)
Definition scene_lists_aligned : Prop :=
  forall E a scenes w scene_video_files sound_effect_files w',
    generate_scenes E a scenes w
    = (Ok (scene_video_files, sound_effect_files), w') ->
    length scene_video_files = length scenes /\
    length sound_effect_files = length scenes /\
    forall i sc,
      scenes !! i = Some sc ->
      scene_video_files !! i = Some (scene_final_path E sc) /\
      holds_scene_video E a
        (n_render w + total_segments (video_engine a) (take i scenes)) sc w' /\
      (sound_effect_files !! i = Some None \/
       sound_effect_files !! i = Some (Some (sound_effect_path E sc))).

(** Two scenes that carry the same number. *)
Definition same_number_run : result (list string * list pystr) * world :=
  generate_scenes (stub_env numbered_url two_frames no_sound) luma_args
    [scene_of 1 5; scene_of 1 5] (start_world ∅).

(** Reading paths: the last character of a string, and whether a string has
    an underscore. *)
Fixpoint last_char (s : string) : option ascii :=
  match s with
  | EmptyString => None
  | String c rest =>
      match last_char rest with
      | Some d => Some d
      | None => Some c
      end
  end.

Fixpoint has_underscore (s : string) : bool :=
  match s with
  | EmptyString => false
  | String c rest => Ascii.eqb c "_"%char || has_underscore rest
  end.

(** The step of the scene [sc] writes no file at [p]. *)
Definition not_written_by (E : env) (sc : scene) (p : string) : Prop :=
  p <> sound_effect_path E sc /\
  p <> scene_final_path E sc /\
  (forall n_segs vid_idx, p <> segment_video_path E sc n_segs vid_idx) /\
  (forall n_segs vid_idx, p <> segment_frame_path E sc n_segs vid_idx).

(** * Verified properties *)

(** ** The monad *)

Lemma bind_inv {A B} (m : M A) (k : A -> M B) w r w' :
  bind m k w = (r, w') ->
  (exists e, m w = (Raise e, w') /\ r = Raise e) \/
  (exists x w1, m w = (Ok x, w1) /\ k x w1 = (r, w')).
Proof.
  unfold bind. destruct (m w) as [[x|e] w1]; intros H.
  - right. eauto.
  - left. inversion H; subst. eauto.
Qed.

Lemma bind_ok {A B} (m : M A) (k : A -> M B) w x w1 :
  m w = (Ok x, w1) -> bind m k w = k x w1.
Proof. unfold bind. intros ->. reflexivity. Qed.

Lemma bind_raise {A B} (m : M A) (k : A -> M B) w e w1 :
  m w = (Raise e, w1) -> bind m k w = (Raise e, w1).
Proof. unfold bind. intros ->. reflexivity. Qed.

Lemma try_except_inv {A} (m : M A) (h : error -> M A) w r w' :
  try_except m h w = (r, w') ->
  (exists x, m w = (Ok x, w') /\ r = Ok x) \/
  (exists e w1, m w = (Raise e, w1) /\ h e w1 = (r, w')).
Proof.
  unfold try_except. destruct (m w) as [[x|e] w1]; intros H.
  - left. inversion H; subst. eauto.
  - right. eauto.
Qed.

(** ** Segment planner *)

Section PlannerFacts.
Import Planner.




(** Every plan has one or two segments. *)
Lemma video_durations_length video_engine d segs :
  video_durations video_engine d = Ok segs ->
  length segs = 1%nat \/ length segs = 2%nat.
Proof.
  unfold video_durations.
  repeat (case_match; try discriminate); intros [= <-]; auto.
Qed.



End PlannerFacts.





(** ** The upload loop *)

Lemma py_ne_false x y : py_ne x y = false <-> x = y.
Proof.
  destruct x as [x|], y as [y|]; simpl; split; try done.
  - destruct (String.eqb_spec x y); [by subst|done].
  - intros [= ->]. by rewrite String.eqb_refl.
Qed.

Lemma py_ne_true x y : py_ne x y = true <-> x <> y.
Proof.
  split.
  - intros H ->. assert (py_ne y y = false) by by apply py_ne_false. congruence.
  - intros H. destruct (py_ne x y) eqn:E; [done|]. by apply py_ne_false in E.
Qed.

Lemma duplicate_events_shift k p (t : list event) :
  (duplicate_events k p ++ EvSleep 2 :: EvUpload p :: t)%list =
  (EvSleep 2 :: EvUpload p :: duplicate_events k p ++ t)%list.
Proof.
  induction k as [|k IH]; simpl; [done|]. by rewrite IH.
Qed.

Lemma upload_while_outcome E frame_path i vid_idx n_segs c remaining :
  forall retry_count w r w',
    upload_while E remaining retry_count frame_path i vid_idx n_segs c w = (r, w') ->
    loop_outcome E frame_path i vid_idx n_segs c remaining retry_count w r w'.
Proof.
  induction remaining as [|remaining IH]; intros retry_count w r w' H.
  - inversion H; subst. rewrite <- (Nat.add_0_r retry_count) at 2.
    apply loop_exhausted; simpl; [lia | done | lia].
  - simpl in H. unfold bind, upload_image in H.
    destruct (upload_image_resp E (n_upload w)) as [url|e] eqn:Hresp.
    + destruct (py_ne url (segment_last_frame_url c)) eqn:Hne.
      * inversion H; subst. rewrite <- (Nat.add_0_r retry_count) at 2.
        apply loop_accepted; simpl;
          [lia | lia | by rewrite Nat.add_0_r | by apply py_ne_true | done | lia].
      * apply py_ne_false in Hne. subst url.
        apply IH in H.
        assert (Hold : forall j k, (j < S k)%nat ->
                  (forall j', (j' < k)%nat ->
                     upload_image_resp E (S (n_upload w) + j') =
                       Ok (segment_last_frame_url c)) ->
                  upload_image_resp E (n_upload w + j) =
                    Ok (segment_last_frame_url c)).
        { intros j k Hj Hk. destruct j as [|j]; [by rewrite Nat.add_0_r|].
          replace (n_upload w + S j)%nat with (S (n_upload w) + j)%nat by lia.
          apply Hk. lia. }
        inversion H as [w1 Hdup Htr Hn | k url w1 Hk Hdup Hurl Hnew Htr Hn
                        | k e w1 Hk Hdup Hurl Htr Hn]; subst;
          cbn [record tick_upload trace n_upload] in *;
          rewrite duplicate_events_shift in Htr.
        -- replace (S retry_count + remaining)%nat
             with (retry_count + S remaining)%nat by lia.
           apply loop_exhausted; [eauto | done | lia].
        -- replace (S retry_count + k)%nat with (retry_count + S k)%nat by lia.
           apply loop_accepted; [lia | eauto | | done | done | lia].
           by replace (n_upload w + S k)%nat with (S (n_upload w) + k)%nat by lia.
        -- apply (loop_interrupted _ _ _ _ _ _ _ _ _ (S k)); [lia | eauto | | done | lia].
           by replace (n_upload w + S k)%nat with (S (n_upload w) + k)%nat by lia.
    + inversion H; subst.
      apply (loop_interrupted _ _ _ _ _ _ _ _ _ 0%nat); simpl;
        [lia | lia | by rewrite Nat.add_0_r | done | lia].
Qed.

Lemma upload_frame_outcome E sc frame_path i vid_idx n_segs c w r w' :
  upload_frame E sc frame_path i vid_idx n_segs c w = (r, w') ->
  ((exists msg, r = Raise (RuntimeError msg)) /\
   (forall j, (j < 3)%nat ->
      upload_image_resp E (n_upload w + j) = Ok (segment_last_frame_url c)) /\
   trace w' = (duplicate_events 3 frame_path ++ trace w)%list /\
   n_upload w' = (n_upload w + 3)%nat) \/
  (exists k url,
     (k < 3)%nat /\
     (forall j, (j < k)%nat ->
        upload_image_resp E (n_upload w + j) = Ok (segment_last_frame_url c)) /\
     upload_image_resp E (n_upload w + k) = Ok url /\
     url <> segment_last_frame_url c /\
     r = Ok (publish_token vid_idx n_segs url c) /\
     trace w' = (EvToken i vid_idx n_segs url :: EvUpload frame_path
                   :: duplicate_events k frame_path ++ trace w)%list /\
     n_upload w' = (n_upload w + S k)%nat) \/
  (exists k e,
     (k < 3)%nat /\
     (forall j, (j < k)%nat ->
        upload_image_resp E (n_upload w + j) = Ok (segment_last_frame_url c)) /\
     upload_image_resp E (n_upload w + k) = Raise e /\
     r = Raise e /\
     trace w' = (EvUpload frame_path :: duplicate_events k frame_path ++ trace w)%list /\
     n_upload w' = (n_upload w + S k)%nat).
Proof.
  unfold upload_frame. intros H.
  apply bind_inv in H as [(e & Hw & ->) | ([n c'] & w1 & Hw & H)];
    apply upload_while_outcome in Hw; unfold max_retries in *.
  - inversion Hw as [| | k e' w2 Hk Hdup Hurl Htr Hn]; subst.
    right; right. exists k, e. done.
  - inversion Hw as [w2 Hdup Htr Hn | k url w2 Hk Hdup Hurl Hnew Htr Hn |]; subst;
      cbn [fst snd] in H.
    + left. simpl in H. inversion H; subst. eauto.
    + right; left. destruct (Nat.eqb_spec n 3) as [|_]; [lia|].
      inversion H; subst. exists n, url. done.
Qed.

(** C1.  The upload loop of one extracted frame makes at most three upload
    attempts and sleeps 2 time units after each duplicate, so between any two
    attempts; when the upload answers the held URL twice and then a new one,
    the new URL is accepted at the third attempt and published as the
    continuity token; when every attempt answers the held URL, the loop fails
    with an error after exactly three attempts. *)
Theorem C1_upload_retry E sc frame_path i vid_idx n_segs c w :
  let held := segment_last_frame_url c in
  let answer j := upload_image_resp E (n_upload w + j) in
  let r := fst (upload_frame E sc frame_path i vid_idx n_segs c w) in
  let w' := snd (upload_frame E sc frame_path i vid_idx n_segs c w) in
  ((n_upload w' <= n_upload w + 3)%nat /\
   exists k last_events,
     (k <= 3)%nat /\
     trace w' = (last_events ++ duplicate_events k frame_path ++ trace w)%list /\
     (last_events = [] \/ last_events = [EvUpload frame_path] \/
      exists url, last_events = [EvToken i vid_idx n_segs url; EvUpload frame_path])) /\
  (forall new,
     new <> held ->
     answer 0%nat = Ok held -> answer 1%nat = Ok held -> answer 2%nat = Ok new ->
     r = Ok (publish_token vid_idx n_segs new c) /\
     n_upload w' = (n_upload w + 3)%nat /\
     trace w' = (EvToken i vid_idx n_segs new :: EvUpload frame_path
                   :: duplicate_events 2 frame_path ++ trace w)%list) /\
  ((forall j, (j < 3)%nat -> answer j = Ok held) ->
   (exists msg, r = Raise (RuntimeError msg)) /\
   n_upload w' = (n_upload w + 3)%nat /\
   trace w' = (duplicate_events 3 frame_path ++ trace w)%list).
Proof.
  intros held answer r w'. subst held answer r w'.
  destruct (upload_frame E sc frame_path i vid_idx n_segs c w) as [r w'] eqn:H.
  cbn [fst snd].
  apply upload_frame_outcome in H
    as [(Hr & Hdup & Htr & Hn) | [(k & url & Hk & Hdup & Hurl & Hnew & Hr & Htr & Hn)
        | (k & e & Hk & Hdup & Hurl & Hr & Htr & Hn)]].
  - split; [|split].
    + split; [lia|]. exists 3%nat, []. split; [lia|]. split; [done|]. by left.
    + intros new Hnew _ _ H2. rewrite (Hdup 2%nat) in H2 by lia.
      simplify_eq.
    + done.
  - split; [|split].
    + split; [lia|].
      exists k, [EvToken i vid_idx n_segs url; EvUpload frame_path].
      split; [lia|]. split; [done|]. right; right. by exists url.
    + intros new Hnew' H0 H1 H2.
      assert (k = 2)%nat as ->.
      { destruct k as [|[|[|k]]]; [| |done|lia].
        - rewrite Nat.add_0_r in *. rewrite H0 in Hurl. simplify_eq.
        - rewrite H1 in Hurl. simplify_eq. }
      rewrite H2 in Hurl. simplify_eq. done.
    + intros Hall. rewrite Hall in Hurl by lia. simplify_eq.
  - split; [|split].
    + split; [lia|]. exists k, [EvUpload frame_path].
      split; [lia|]. split; [done|]. right; by left.
    + intros new Hnew' H0 H1 H2.
      destruct k as [|[|[|k]]]; [| | |lia].
      * rewrite Nat.add_0_r in *. rewrite H0 in Hurl. simplify_eq.
      * rewrite H1 in Hurl. simplify_eq.
      * rewrite H2 in Hurl. simplify_eq.
    + intros Hall. rewrite Hall in Hurl by lia. simplify_eq.
Qed.

Lemma C1_upload_retry_witness :
  fst (upload_frame (stub_env (twice_then_new "old" "new") two_frames no_sound)
         (scene_of 1 14) "frame.jpg" 0 2 2
         {| last_frame_url := None; segment_last_frame_url := Some "old" |}
         (start_world ∅))
  = Ok {| last_frame_url := Some "new"; segment_last_frame_url := Some "old" |}.
Proof.
  apply (proj1 (proj2 (C1_upload_retry
           (stub_env (twice_then_new "old" "new") two_frames no_sound)
           (scene_of 1 14) "frame.jpg" 0 2 2
           {| last_frame_url := None; segment_last_frame_url := Some "old" |}
           (start_world ∅))) (Some "new")).
  - discriminate.
  - reflexivity.
  - reflexivity.
  - reflexivity.
Defined.

(** ** Waiting for completion *)

Section WaitingFacts.
Import Polling Waiting.

Lemma turns_n_get svc j : forall w, n_get (turns svc j w) = (n_get w + j)%nat.
Proof.
  induction j as [|j IH]; intros w; simpl; [lia|]. rewrite IH. simpl. lia.
Qed.

Lemma turns_sleeps svc j :
  forall w, sleeps (turns svc j w) = (repeat 3 j ++ sleeps w)%list.
Proof.
  induction j as [|j IH]; intros w; simpl; [done|].
  rewrite IH. simpl. change (3 :: sleeps w) with ([3] ++ sleeps w)%list.
  rewrite app_assoc. f_equal. by rewrite <- repeat_cons.
Qed.

Lemma pending_for_step svc w k :
  pending_for svc w (S k) ->
  terminal (state_at svc (n_get w)) = false /\
  pending_for svc (sleep 3 (snd (get svc w))) k.
Proof.
  intros H. split.
  - rewrite <- (Nat.add_0_r (n_get w)). apply H. lia.
  - intros j Hj. simpl. replace (S (n_get w + j)) with (n_get w + S j)%nat by lia.
    apply H. lia.
Qed.

Lemma video_generator_wait_S svc fuel w :
  VideoGenerator.wait_loop svc (S fuel) w =
  match state_at svc (n_get w) with
  | Completed => (Some (Ok tt), snd (get svc w))
  | Failed failure_reason =>
      (Some (Raise (RuntimeError ("Generation failed: " ++ failure_reason))),
       snd (get svc w))
  | Pending _ => VideoGenerator.wait_loop svc fuel (sleep 3 (snd (get svc w)))
  end.
Proof. reflexivity. Qed.

Lemma luma_wait_S svc fuel start w :
  LumaVideoGenerator.wait_loop svc (S fuel) start w =
  if clock w - start >? 300
  then (Some (Raise (TimeoutError "Video generation timed out after 5 minutes")), w)
  else
    match state_at svc (n_get w) with
    | Completed => (Some (Ok tt), snd (get svc w))
    | Failed failure_reason =>
        (Some (Raise (RuntimeError ("Generation failed: " ++ failure_reason))),
         snd (get svc w))
    | Pending _ =>
        LumaVideoGenerator.wait_loop svc fuel start (sleep 3 (snd (get svc w)))
    end.
Proof. reflexivity. Qed.

(** The wait of [VideoGenerator]: after [k] pending polls it is still
    polling, and at a terminal state it returns. *)
Lemma video_generator_wait_pending svc fuel :
  forall w, pending_for svc w fuel ->
    VideoGenerator.wait_loop svc fuel w = (None, turns svc fuel w).
Proof.
  induction fuel as [|fuel IH]; intros w H; [done|].
  apply pending_for_step in H as [H0 H].
  rewrite video_generator_wait_S.
  destruct (state_at svc (n_get w)) eqn:Hs; try done.
  by apply IH.
Qed.

Lemma video_generator_wait_terminal svc k :
  forall w fuel,
    pending_for svc w k ->
    terminal (state_at svc (n_get w + k)) = true ->
    (k < fuel)%nat ->
    VideoGenerator.wait_loop svc fuel w =
      (Some (outcome_of (state_at svc (n_get w + k))),
       snd (get svc (turns svc k w))).
Proof.
  induction k as [|k IH]; intros w fuel Hp Ht Hf;
    (destruct fuel as [|fuel]; [lia|]).
  - rewrite video_generator_wait_S. rewrite Nat.add_0_r in *. simpl turns.
    destruct (state_at svc (n_get w)); done.
  - apply pending_for_step in Hp as [H0 Hp]. rewrite video_generator_wait_S.
    destruct (state_at svc (n_get w)) eqn:Hs; try done.
    rewrite (IH (sleep 3 (snd (get svc w))) fuel Hp); simpl.
    + by replace (S (n_get w + k)) with (n_get w + S k)%nat by lia.
    + by replace (S (n_get w + k)) with (n_get w + S k)%nat by lia.
    + lia.
Qed.

(** The wait of [LumaVideoGenerator]: the same while every check finds at
    most 300 time units elapsed; a check that finds more aborts. *)
Lemma luma_wait_terminal svc start k :
  forall w fuel,
    pending_for svc w k ->
    (forall j, (j <= k)%nat -> clock (turns svc j w) - start <= 300) ->
    terminal (state_at svc (n_get w + k)) = true ->
    (k < fuel)%nat ->
    LumaVideoGenerator.wait_loop svc fuel start w =
      (Some (outcome_of (state_at svc (n_get w + k))),
       snd (get svc (turns svc k w))).
Proof.
  induction k as [|k IH]; intros w fuel Hp Hc Ht Hf;
    (destruct fuel as [|fuel]; [lia|]).
  - rewrite luma_wait_S. rewrite Nat.add_0_r in *. simpl turns.
    specialize (Hc 0%nat (Nat.le_refl _)). simpl in Hc.
    destruct (Z.gtb_spec (clock w - start) 300) as [|_]; [lia|].
    destruct (state_at svc (n_get w)); done.
  - apply pending_for_step in Hp as [H0 Hp]. rewrite luma_wait_S.
    pose proof (Hc 0%nat (Nat.le_0_l _)) as Hc0. simpl in Hc0.
    destruct (Z.gtb_spec (clock w - start) 300) as [|_]; [lia|].
    destruct (state_at svc (n_get w)) eqn:Hs; try done.
    rewrite (IH (sleep 3 (snd (get svc w))) fuel Hp); simpl.
    + by replace (S (n_get w + k)) with (n_get w + S k)%nat by lia.
    + intros j Hj. apply (Hc (S j)). lia.
    + by replace (S (n_get w + k)) with (n_get w + S k)%nat by lia.
    + lia.
Qed.

Lemma luma_wait_timeout svc start k :
  forall w fuel,
    pending_for svc w k ->
    (forall j, (j < k)%nat -> clock (turns svc j w) - start <= 300) ->
    clock (turns svc k w) - start > 300 ->
    (k < fuel)%nat ->
    LumaVideoGenerator.wait_loop svc fuel start w =
      (Some (Raise (TimeoutError "Video generation timed out after 5 minutes")),
       turns svc k w).
Proof.
  induction k as [|k IH]; intros w fuel Hp Hc Ht Hf;
    (destruct fuel as [|fuel]; [lia|]).
  - rewrite luma_wait_S. simpl in *.
    destruct (Z.gtb_spec (clock w - start) 300) as [_|]; [done|lia].
  - apply pending_for_step in Hp as [H0 Hp]. rewrite luma_wait_S.
    pose proof (Hc 0%nat (Nat.lt_0_succ _)) as Hc0. simpl in Hc0.
    destruct (Z.gtb_spec (clock w - start) 300) as [|_]; [lia|].
    destruct (state_at svc (n_get w)) eqn:Hs; try done.
    apply (IH (sleep 3 (snd (get svc w))) fuel Hp); [|done|lia].
    intros j Hj. apply (Hc (S j)). lia.
Qed.

End WaitingFacts.

(** C5 (as amended).  Both waits poll the service until it reports a terminal
    state, sleeping 3 time units after every pending answer.  The wait of
    [VideoGenerator.generate_videos] has no ceiling: it never ends while the
    generation is pending.  The wait of [LumaVideoGenerator.generate_video]
    returns the terminal state when every check before it finds at most 300
    time units elapsed since the start, and aborts a pending generation with
    a timeout error at the first check that finds more. *)
Theorem C5_polling_wait :
  Waiting.never_aborts_pending VideoGenerator.wait_loop /\
  (forall svc k w fuel,
     Waiting.pending_for svc w k ->
     Polling.terminal (Polling.state_at svc (Polling.n_get w + k)) = true ->
     (k < fuel)%nat ->
     VideoGenerator.wait_loop svc fuel w =
       (Some (Waiting.outcome_of (Polling.state_at svc (Polling.n_get w + k))),
        snd (Polling.get svc (Waiting.turns svc k w))) /\
     Polling.sleeps (Waiting.turns svc k w) = (repeat 3 k ++ Polling.sleeps w)%list /\
     Polling.n_get (Waiting.turns svc k w) = (Polling.n_get w + k)%nat) /\
  (forall svc k w fuel,
     Waiting.pending_for svc w k ->
     (forall j, (j <= k)%nat ->
        Polling.clock (Waiting.turns svc j w) - Polling.clock w <= 300) ->
     Polling.terminal (Polling.state_at svc (Polling.n_get w + k)) = true ->
     (k < fuel)%nat ->
     LumaVideoGenerator.generate_video svc fuel w =
       (Some (LumaVideoGenerator.raised_again
                (Waiting.outcome_of (Polling.state_at svc (Polling.n_get w + k)))),
        snd (Polling.get svc (Waiting.turns svc k w)))) /\
  (forall svc k w fuel,
     Waiting.pending_for svc w k ->
     (forall j, (j < k)%nat ->
        Polling.clock (Waiting.turns svc j w) - Polling.clock w <= 300) ->
     Polling.clock (Waiting.turns svc k w) - Polling.clock w > 300 ->
     (k < fuel)%nat ->
     LumaVideoGenerator.generate_video svc fuel w =
       (Some (Raise (RuntimeError
          "Failed to generate video: Video generation timed out after 5 minutes")),
        Waiting.turns svc k w)).
Proof.
  split; [|split; [|split]].
  - intros svc fuel w H.
    rewrite video_generator_wait_pending; [done|].
    intros j _. apply H.
  - intros svc k w fuel Hp Ht Hf. split; [|split].
    + by apply video_generator_wait_terminal.
    + apply turns_sleeps.
    + apply turns_n_get.
  - intros svc k w fuel Hp Hc Ht Hf. unfold LumaVideoGenerator.generate_video.
    by rewrite (luma_wait_terminal svc (Polling.clock w) k w fuel).
  - intros svc k w fuel Hp Hc Ht Hf. unfold LumaVideoGenerator.generate_video.
    by rewrite (luma_wait_timeout svc (Polling.clock w) k w fuel).
Qed.

Lemma C5_polling_wait_witness :
  VideoGenerator.wait_loop Waiting.completes_third 5 Waiting.poll_start =
    (Some (Ok tt), {| Polling.clock := 9; Polling.n_get := 3; Polling.sleeps := [3; 3] |}) /\
  LumaVideoGenerator.generate_video Waiting.dreaming 200 Waiting.poll_start =
    (Some (Raise (RuntimeError
       "Failed to generate video: Video generation timed out after 5 minutes")),
     Waiting.turns Waiting.dreaming 101 Waiting.poll_start).
Proof.
  split.
  - apply (proj1 (proj1 (proj2 C5_polling_wait)
             Waiting.completes_third 2%nat Waiting.poll_start 5%nat
             ltac:(by intros [|[|j]] Hj; [..|lia]) eq_refl ltac:(lia))).
  - apply (proj2 (proj2 (proj2 C5_polling_wait))
             Waiting.dreaming 101%nat Waiting.poll_start 200%nat).
    + by intros j _.
    + intros j Hj.
      assert (Hclock : forall n w, Polling.clock (Waiting.turns Waiting.dreaming n w)
                         = Polling.clock w + 3 * Z.of_nat n).
      { clear. induction n as [|n IH]; intros w; [simpl; lia|].
        cbn [Waiting.turns]. rewrite IH. simpl. lia. }
      rewrite Hclock. simpl. lia.
    + vm_compute. done.
    + lia.
Defined.

(** C5 as stated fails on [LumaVideoGenerator.generate_video]: against a
    generation that stays pending, the wait ends by itself with a timeout
    error after 101 polls. *)
Lemma C5_counterexample :
  ~ Waiting.never_aborts_pending LumaVideoGenerator.generate_video.
Proof.
  intros H.
  specialize (H Waiting.dreaming 102%nat Waiting.poll_start (fun _ => eq_refl)).
  vm_compute in H. discriminate H.
Qed.

(** ** The video of a scene *)

Lemma load_clips_holds w scene_videos clips :
  Forall2 (holds_clip w) scene_videos clips ->
  load_clips scene_videos w = (Ok clips, w).
Proof.
  induction 1 as [|p c ps cs Hp _ IH]; [done|].
  simpl. unfold bind, VideoFileClip. rewrite Hp, IH. by destruct c.
Qed.

Lemma concatenate_videoclips_duration clips :
  duration (concatenate_videoclips clips) = sum_list (map duration clips).
Proof.
  unfold duration. simpl.
  induction clips as [|c clips IH]; [done|].
  simpl. by rewrite length_app, IH.
Qed.

Lemma string_length_app (s1 s2 : string) :
  String.length (s1 ++ s2) = (String.length s1 + String.length s2)%nat.
Proof. induction s1 as [|c s1 IH]; simpl; [done|]. by rewrite IH. Qed.

(** The video of a segment is never written where the video of its scene
    goes: the path of the former is the longer one. *)
Lemma segment_video_path_not_final E sc n_segs vid_idx :
  segment_video_path E sc n_segs vid_idx <> scene_final_path E sc.
Proof.
  intros H. apply (f_equal String.length) in H. revert H.
  unfold segment_video_path, scene_final_path, scene_dir.
  destruct (n_segs =? 1)%nat; rewrite !string_length_app; simpl; lia.
Qed.

(** C6.  With exactly one segment video the scene's video is a copy of that
    file and no concatenation takes place; with more than one it is the
    concatenation of the segment videos in their order, and its duration is
    the sum of their durations.  The copy never falls on the file it reads:
    no segment video has the path of the scene's video. *)
Theorem C6_scene_stitch E sc scene_videos w :
  (forall single f,
     scene_videos = [single] ->
     fs w !! single = Some f ->
     single <> scene_final_path E sc ->
     stitch_scene E sc scene_videos w =
       (Ok (scene_final_path E sc),
        record (EvCopy single (scene_final_path E sc))
          (set_fs (insert (scene_final_path E sc) f) w))) /\
  (forall clips,
     (1 < length scene_videos)%nat ->
     Forall2 (holds_clip w) scene_videos clips ->
     stitch_scene E sc scene_videos w =
       (Ok (scene_final_path E sc),
        set_fs (insert (scene_final_path E sc)
                  (FVideo (concat (map frames clips))
                     (audio (concatenate_videoclips clips))))
          (record (EvConcat scene_videos (scene_final_path E sc)) w)) /\
     duration (concatenate_videoclips clips) = sum_list (map duration clips)) /\
  (forall n_segs vid_idx,
     segment_video_path E sc n_segs vid_idx <> scene_final_path E sc).
Proof.
  split; [|split].
  - intros single f -> Hf Hne. unfold stitch_scene. simpl.
    unfold bind, copy2. rewrite Hf.
    destruct (String.eqb_spec single (scene_final_path E sc)); done.
  - intros clips Hlen Hclips. split; [|apply concatenate_videoclips_duration].
    unfold stitch_scene.
    destruct (Nat.ltb_spec 1 (length scene_videos)) as [_|]; [|lia].
    unfold bind. by rewrite (load_clips_holds _ _ _ Hclips).
  - apply segment_video_path_not_final.
Qed.

Lemma C6_scene_stitch_witness :
  fst (stitch_scene (stub_env (twice_then_new "a" "b") two_frames no_sound)
         (scene_of 1 5) ["seg.mp4"]
         (set_fs (insert "seg.mp4" (FVideo [7%nat] None)) (start_world ∅)))
  = Ok "generated_videos/video_T/scene_1_T.mp4".
Proof.
  exact (f_equal fst
    (proj1 (C6_scene_stitch (stub_env (twice_then_new "a" "b") two_frames no_sound)
              (scene_of 1 5) ["seg.mp4"]
              (set_fs (insert "seg.mp4" (FVideo [7%nat] None)) (start_world ∅)))
       "seg.mp4" (FVideo [7%nat] None) eq_refl eq_refl ltac:(discriminate))).
Defined.

(** ** Final assembly *)

Lemma AudioFileClip_audio_of p w :
  AudioFileClip p w =
  match audio_of (fs w !! p) with
  | Some tr => (Ok tr, w)
  | None => (Raise (OSError ("MoviePy error: failed to read " ++ p)), w)
  end.
Proof.
  unfold AudioFileClip, audio_of.
  destruct (fs w !! p) as [[frs [tr|]|tr|fr|n]|]; done.
Qed.

Lemma attach_sound_attached video_clip sound_file w :
  attach_sound video_clip sound_file w = (Ok (attached (fs w) video_clip sound_file), w).
Proof.
  unfold attach_sound, attached. destruct sound_file as [p|]; [|done].
  unfold bind, exists_path. destruct (truthy (Some p)); [|done].
  destruct (fs w !! p) as [f|] eqn:Hf.
  - rewrite bool_decide_eq_true_2 by eauto. simpl.
    unfold try_except, bind. rewrite AudioFileClip_audio_of, Hf.
    destruct f as [frs [tr|]|tr|fr|n]; simpl; try done;
      unfold paired, ret; by repeat case_match.
  - rewrite bool_decide_eq_false_2 by (by intros [? ?]). done.
Qed.

(** C7.  A scene video paired with an existing sound-effect file gives a clip
    whose duration is the smaller of the two durations: a longer audio is cut
    to the video's duration, and under a shorter audio the video is cut to
    the audio's duration before the audio is attached. *)
Theorem C7_sound_trim video_clip p tr w :
  p <> "" ->
  fs w !! p = Some (FAudio tr) ->
  exists c,
    attach_sound video_clip (Some p) w = (Ok c, w) /\
    duration c = Nat.min (duration video_clip) (length tr) /\
    frames c = firstn (Nat.min (duration video_clip) (length tr)) (frames video_clip) /\
    audio c = Some (firstn (Nat.min (duration video_clip) (length tr)) tr) /\
    ((duration video_clip < length tr)%nat ->
       frames c = frames video_clip /\
       audio c = Some (firstn (duration video_clip) tr)) /\
    ((length tr < duration video_clip)%nat ->
       frames c = firstn (length tr) (frames video_clip) /\ audio c = Some tr).
Proof.
  intros Hp Hf. exists (attached (fs w) video_clip (Some p)).
  split; [apply attach_sound_attached|].
  unfold attached, truthy. destruct (String.eqb_spec p "") as [|_]; [done|].
  rewrite Hf. simpl. unfold paired, duration, set_audio, subclip_video, subclip_audio.
  destruct (Nat.ltb_spec (length (frames video_clip)) (length tr)) as [Hlt|Hge].
  - simpl. rewrite Nat.min_l by lia.
    rewrite (take_ge (frames video_clip)) by lia. repeat split; try done; lia.
  - destruct (Nat.ltb_spec (length tr) (length (frames video_clip))) as [Hlt|Hge'].
    + simpl. rewrite Nat.min_r by lia. rewrite length_take.
      rewrite (take_ge tr) by lia. repeat split; try done; lia.
    + simpl. rewrite Nat.min_l by lia.
      rewrite (take_ge (frames video_clip)), (take_ge tr) by lia.
      repeat split; try done; lia.
Qed.

Lemma C7_sound_trim_witness :
  exists c,
    attach_sound {| frames := [1; 2; 3]%nat; audio := None |} (Some "s.mp3")
      (set_fs (insert "s.mp3" (FAudio [Src 1; Src 2])) (start_world ∅))
    = (Ok c, set_fs (insert "s.mp3" (FAudio [Src 1; Src 2])) (start_world ∅)) /\
    duration c = 2%nat.
Proof.
  destruct (C7_sound_trim {| frames := [1; 2; 3]%nat; audio := None |} "s.mp3"
              [Src 1; Src 2]
              (set_fs (insert "s.mp3" (FAudio [Src 1; Src 2])) (start_world ∅))
              ltac:(discriminate) eq_refl) as (c & H1 & H2 & _).
  exists c. split; [exact H1 | exact H2].
Defined.

Lemma VideoFileClip_scene_clip video_file sound_file final_clips w :
  try_except
    (do video_clip <- VideoFileClip video_file;
     do video_clip' <- attach_sound video_clip sound_file;
     ret (final_clips ++ [video_clip'])%list)
    (fun _ => ret final_clips) w
  = (Ok (final_clips ++
           match scene_clip (fs w) (video_file, sound_file) with
           | Some c => [c]
           | None => []
           end)%list, w).
Proof.
  unfold try_except, bind, VideoFileClip, scene_clip. simpl.
  destruct (fs w !! video_file) as [[frs tr|tr|fr|n]|];
    rewrite ?attach_sound_attached; simpl; unfold ret; by rewrite ?app_nil_r.
Qed.

Lemma final_clips_loop_omap pairs :
  forall final_clips w,
    final_clips_loop pairs final_clips w =
      (Ok (final_clips ++ omap (scene_clip (fs w)) pairs)%list, w).
Proof.
  induction pairs as [|[video_file sound_file] pairs IH]; intros final_clips w.
  - simpl. unfold ret. by rewrite app_nil_r.
  - cbn [final_clips_loop]. unfold bind at 1.
    rewrite VideoFileClip_scene_clip, IH. cbn [omap list_omap].
    destruct (scene_clip (fs w) (video_file, sound_file)); simpl;
      by rewrite <- ?app_assoc, ?app_nil_r.
Qed.

Lemma add_narration_frames final_clip narration_audio_path w :
  exists c,
    add_narration final_clip narration_audio_path w = (Ok c, w) /\
    frames c = frames final_clip /\
    (narration_audio_path = None -> c = final_clip).
Proof.
  unfold add_narration. destruct narration_audio_path as [p|]; [|by eauto].
  unfold bind, exists_path.
  destruct (truthy (Some p) && bool_decide (is_Some (fs w !! p))); [|by eauto].
  unfold try_except, bind. rewrite AudioFileClip_audio_of.
  destruct (audio_of (fs w !! p)) as [tr|]; [|by eauto].
  destruct (audio final_clip); unfold ret; eexists; (split; [done|]); done.
Qed.

(** C8 (as amended).  Final assembly drops every scene whose video does not
    load; a scene whose sound effect is absent or fails to load is kept with
    its video as it is.  The final video holds the clips of the kept scenes in
    their order, and assembly raises its fatal error exactly when no scene is
    kept. *)
Theorem C8_final_assembly E video_files sound_effect_files narration_audio_path w :
  let pairs := zip video_files (sounds_or_none video_files sound_effect_files) in
  let clips := omap (scene_clip (fs w)) pairs in
  (clips = [] ->
   stitch_videos E video_files sound_effect_files narration_audio_path w =
     (Raise (RuntimeError "No video clips were successfully processed"), w)) /\
  (clips <> [] ->
   exists final_clip,
     stitch_videos E video_files sound_effect_files narration_audio_path w =
       (Ok (final_video_path E),
        set_fs (insert (final_video_path E)
                  (FVideo (frames final_clip) (audio final_clip))) w) /\
     frames final_clip = concat (map frames clips) /\
     (narration_audio_path = None -> final_clip = concatenate_videoclips clips)).
Proof.
  intros pairs clips. unfold stitch_videos, bind.
  rewrite final_clips_loop_omap. simpl. fold pairs. fold clips.
  split.
  - by intros ->.
  - intros Hne. destruct clips as [|c clips']; [done|].
    destruct (add_narration_frames (concatenate_videoclips (c :: clips'))
                narration_audio_path w) as (fc & Hn & Hfr & Hnone).
    exists fc. rewrite Hn. done.
Qed.

Lemma C8_final_assembly_witness :
  fst (stitch_videos (stub_env (twice_then_new "a" "b") two_frames no_sound)
         ["scene_1.mp4"] (Some [Some "scene_1_sound.mp3"]) None
         (start_world broken_sound_files))
  = Ok "generated_videos/video_T/final_video_T.mp4".
Proof.
  destruct (proj2 (C8_final_assembly
              (stub_env (twice_then_new "a" "b") two_frames no_sound)
              ["scene_1.mp4"] (Some [Some "scene_1_sound.mp3"]) None
              (start_world broken_sound_files))
              ltac:(vm_compute; discriminate)) as (fc & H & _).
  exact (f_equal fst H).
Defined.

(** C8 as stated fails: a scene whose sound file exists but does not decode
    is not dropped; its video alone goes into the final video. *)
Lemma C8_counterexample : ~ assembly_as_claimed.
Proof.
  intros H.
  specialize (H (stub_env (twice_then_new "a" "b") two_frames no_sound)
                ["scene_1.mp4"] (Some [Some "scene_1_sound.mp3"])
                (start_world broken_sound_files)).
  vm_compute in H. destruct H as [H _]. by apply H.
Qed.

(** ** Narration *)

Lemma generate_narration_audio_total E narration_text target_duration w :
  exists entry w',
    generate_narration_audio E narration_text target_duration w = (Ok entry, w').
Proof.
  unfold generate_narration_audio, try_except.
  match goal with
  | |- context [match ?m w with _ => _ end] => destruct (m w) as [[x|e] w1]
  end; unfold ret; eauto.
Qed.

Lemma stitch_videos_without_narration E video_files sound_effect_files w p w' :
  stitch_videos E video_files sound_effect_files None w = (Ok p, w') ->
  let clips := omap (scene_clip (fs w))
                 (zip video_files (sounds_or_none video_files sound_effect_files)) in
  p = final_video_path E /\
  fs w' !! p = Some (FVideo (concat (map frames clips))
                       (audio (concatenate_videoclips clips))).
Proof.
  unfold stitch_videos, bind. rewrite final_clips_loop_omap. simpl.
  destruct (omap _ _) as [|c clips] eqn:Hc; [done|].
  simpl. intros [= <- <-]. split; [done|]. simpl. by rewrite lookup_insert_eq.
Qed.

(** C9 (as amended).  Narration audio never raises: every failure of the
    speech synthesis or of the audio adjustment gives [None], and the run goes
    on from there with the scenes and the final assembly, whose video then
    carries no narration.  A failure of the narration text is not isolated:
    the run ends with the error message and no video path. *)
Theorem C9_narration_failure E a scenes w :
  preflight E a w = (Ok tt, w) ->
  metadata_resp E = Ok scenes ->
  (forall narration_text target_duration w1,
     exists entry w2,
       generate_narration_audio E narration_text target_duration w1 = (Ok entry, w2)) /\
  (forall narration_text w1 w2,
     generate_narration_text E w = (Ok narration_text, w1) ->
     generate_narration_audio E narration_text (calculate_total_duration scenes) w1
       = (Ok None, w2) ->
     generate_video E a false false w =
       report_of (render_and_stitch E a scenes None w2)) /\
  (forall video_files sound_effect_files w1 p w2,
     stitch_videos E video_files sound_effect_files None w1 = (Ok p, w2) ->
     fs w2 !! p =
       Some (FVideo
               (frames (concatenate_videoclips
                  (omap (scene_clip (fs w1))
                     (zip video_files (sounds_or_none video_files sound_effect_files)))))
               (audio (concatenate_videoclips
                  (omap (scene_clip (fs w1))
                     (zip video_files (sounds_or_none video_files sound_effect_files))))))) /\
  (forall e,
     narration_text_resp E = Raise e ->
     generate_video E a false false w = ((Message (str_of_error e), None), w)).
Proof.
  intros Hpre Hmeta. split; [|split; [|split]].
  - intros. apply generate_narration_audio_total.
  - intros narration_text w1 w2 Htext Haudio.
    unfold generate_video, generate_video_body, bind at 1. rewrite Hpre.
    unfold bind at 1, lift. rewrite Hmeta. cbn [negb].
    unfold bind at 1, narrate. cbn [negb]. unfold bind at 1.
    rewrite Htext. by rewrite Haudio.
  - intros video_files sound_effect_files w1 p w2 H.
    by apply stitch_videos_without_narration in H as [_ H].
  - intros e He.
    unfold generate_video, generate_video_body, bind at 1. rewrite Hpre.
    unfold bind at 1, lift. rewrite Hmeta. cbn [negb].
    unfold bind at 1, narrate. cbn [negb]. unfold bind at 1.
    unfold generate_narration_text, bind at 1, lift. by rewrite He.
Qed.

Lemma C9_narration_failure_witness :
  generate_video no_speech luma_args false false (start_world ∅) =
    report_of (render_and_stitch no_speech luma_args [scene_of 1 5] None
                 (set_fs (insert "generated_videos/video_T/narration_text_T.txt"
                            (FRaw 16)) (start_world ∅))).
Proof.
  apply (proj1 (proj2 (C9_narration_failure no_speech luma_args [scene_of 1 5]
                         (start_world ∅) eq_refl eq_refl))
           "Once upon a time"
           (set_fs (insert "generated_videos/video_T/narration_text_T.txt"
                      (FRaw 16)) (start_world ∅))).
  - reflexivity.
  - reflexivity.
Defined.

(** C9 as stated fails: when the narration text cannot be generated, the run
    returns the error message and no final video, although the scenes and the
    assembly would have succeeded. *)
Lemma C9_counterexample : ~ narration_isolated.
Proof.
  intros H.
  specialize (H no_narration_text luma_args [scene_of 1 5] (start_world ∅)
                eq_refl eq_refl I).
  vm_compute in H. discriminate H.
Qed.

(** ** What the steps of [generate_scenes] keep *)

Section Preservation.

Context (R : world -> world -> Prop) (allowed : event -> bool).
Context `{!Stable R allowed}.

Lemma preserves_ret {A} (x : A) : preserves R (ret x).
Proof. intros w r w' [= <- <-]. apply stable_refl. Qed.

Lemma preserves_raise {A} e : preserves R (@raise A e).
Proof. intros w r w' [= <- <-]. apply stable_refl. Qed.

Lemma preserves_lift {A} (x : result A) : preserves R (lift x).
Proof. intros w r w' [= <- <-]. apply stable_refl. Qed.

Lemma preserves_bind {A B} (m : M A) (k : A -> M B) :
  preserves R m -> (forall x, preserves R (k x)) -> preserves R (bind m k).
Proof.
  intros Hm Hk w r w' H.
  apply bind_inv in H as [(e & H & _) | (x & w1 & H1 & H2)].
  - by eapply Hm.
  - eapply stable_trans; [by eapply Hm | by eapply Hk].
Qed.

Lemma preserves_try_except {A} (m : M A) (h : error -> M A) :
  preserves R m -> (forall e, preserves R (h e)) -> preserves R (try_except m h).
Proof.
  intros Hm Hh w r w' H.
  apply try_except_inv in H as [(x & H & _) | (e & w1 & H1 & H2)].
  - by eapply Hm.
  - eapply stable_trans; [by eapply Hm | by eapply Hh].
Qed.

Lemma preserves_emit e : allowed e = true -> preserves R (emit e).
Proof. intros He w r w' [= <- <-]. by apply stable_event. Qed.

Lemma preserves_get_fs : preserves R get_fs.
Proof. intros w r w' [= <- <-]. apply stable_refl. Qed.

Lemma preserves_write_file p f : preserves R (write_file p f).
Proof. intros w r w' [= <- <-]. apply stable_fs. Qed.

Lemma preserves_exists_path p : preserves R (exists_path p).
Proof. intros w r w' [= <- <-]. apply stable_refl. Qed.

Lemma preserves_init o : preserves R (init o).
Proof. destruct o; [apply preserves_raise | apply preserves_ret]. Qed.

Lemma preserves_copy2 src dst :
  allowed (EvCopy src dst) = true -> preserves R (copy2 src dst).
Proof.
  intros He w r w'. unfold copy2.
  repeat case_match; intros [= <- <-]; try apply stable_refl.
  eapply stable_trans; [apply stable_fs | by apply stable_event].
Qed.

Lemma preserves_VideoFileClip p : preserves R (VideoFileClip p).
Proof.
  intros w r w'. unfold VideoFileClip.
  repeat case_match; intros [= <- <-]; apply stable_refl.
Qed.

Lemma preserves_load_clips paths : preserves R (load_clips paths).
Proof.
  induction paths as [|p paths IH]; simpl; [apply preserves_ret|].
  apply preserves_bind; [apply preserves_VideoFileClip|]. intros c.
  apply preserves_bind; [apply IH|]. intros cs. apply preserves_ret.
Qed.

Lemma preserves_upload_image E path :
  allowed (EvUpload path) = true -> preserves R (upload_image E path).
Proof.
  intros He w r w' [= <- <-].
  eapply stable_trans; [by apply stable_event | apply stable_upload].
Qed.

Lemma preserves_lora_first_frame E a : preserves R (lora_first_frame E a).
Proof.
  unfold lora_first_frame. case_match; [|apply preserves_ret].
  intros w r w' [= <- <-]. apply stable_lora.
Qed.

Lemma preserves_extract_last_frame video_path frame_path :
  preserves R (extract_last_frame video_path frame_path).
Proof.
  unfold extract_last_frame.
  apply preserves_bind; [apply preserves_get_fs|]. intros files.
  repeat case_match;
    first [apply preserves_write_file | apply preserves_raise].
Qed.

Lemma preserves_stitch_scene E sc scene_videos :
  (forall e, quiet e = true -> allowed e = true) ->
  preserves R (stitch_scene E sc scene_videos).
Proof.
  intros Hq. unfold stitch_scene. case_match.
  - apply preserves_bind; [apply preserves_load_clips|]. intros clips.
    apply preserves_bind; [by apply preserves_emit, Hq|]. intros _.
    apply preserves_bind; [apply preserves_write_file|]. intros _.
    apply preserves_ret.
  - case_match; [apply preserves_raise|].
    apply preserves_bind; [by apply preserves_copy2, Hq|]. intros _.
    apply preserves_ret.
Qed.

Lemma preserves_initial_frame E a :
  (forall e, quiet e = true -> allowed e = true) ->
  preserves R (initial_frame E a).
Proof.
  intros Hq. unfold initial_frame.
  repeat first
    [ apply preserves_ret
    | apply preserves_exists_path
    | by apply preserves_copy2, Hq
    | by apply preserves_upload_image, Hq
    | apply preserves_bind; [|intros ?]
    | case_match ].
Qed.

Lemma preserves_engine_call E i vid_idx secs video_path image_url :
  allowed (EvRender i vid_idx secs video_path image_url) = true ->
  preserves R (engine_call E i vid_idx secs video_path image_url).
Proof.
  intros He w r w'. unfold engine_call.
  assert (R w (tick_render (record (EvRender i vid_idx secs video_path image_url) w))).
  { eapply stable_trans; [by apply stable_event | apply stable_render]. }
  repeat case_match; intros [= <- <-]; try done.
  eapply stable_trans; [done | apply stable_fs].
Qed.

Lemma preserves_render_segment E a i vid_idx secs video_path image_url :
  allowed (EvRender i vid_idx secs video_path image_url) = true ->
  preserves R (render_segment E a i vid_idx secs video_path image_url).
Proof.
  intros He. unfold render_segment.
  apply preserves_try_except; [|intros e; apply preserves_raise].
  apply preserves_bind.
  - case_match; [by apply preserves_engine_call | apply preserves_raise].
  - intros _. apply preserves_bind; [apply preserves_exists_path|].
    intros saved. destruct saved; [apply preserves_ret | apply preserves_raise].
Qed.

Lemma preserves_upload_while E remaining frame_path i vid_idx n_segs c :
  (forall e, allowed e = true) ->
  forall retry_count,
    preserves R (upload_while E remaining retry_count frame_path i vid_idx n_segs c).
Proof.
  intros Hall. induction remaining as [|remaining IH]; intros retry_count; simpl.
  - apply preserves_ret.
  - apply preserves_bind; [by apply preserves_upload_image|]. intros url.
    case_match.
    + apply preserves_bind; [by apply preserves_emit|]. intros _.
      apply preserves_ret.
    + apply preserves_bind; [by apply preserves_emit|]. intros _. apply IH.
Qed.

Lemma preserves_upload_frame E sc frame_path i vid_idx n_segs c :
  (forall e, allowed e = true) ->
  preserves R (upload_frame E sc frame_path i vid_idx n_segs c).
Proof.
  intros Hall. unfold upload_frame.
  apply preserves_bind; [by apply preserves_upload_while|]. intros r.
  case_match; [apply preserves_raise | apply preserves_ret].
Qed.

Lemma preserves_segments E a i sc n_segs first scene_start video_durations :
  (forall e, allowed e = true) ->
  forall vid_idx c scene_videos,
    preserves R (segments E a i sc n_segs first scene_start vid_idx
                   video_durations c scene_videos).
Proof.
  intros Hall. induction video_durations as [|secs rest IH];
    intros vid_idx c scene_videos; simpl.
  - apply preserves_ret.
  - apply preserves_bind; [by apply preserves_render_segment|]. intros _.
    apply preserves_bind; [apply preserves_extract_last_frame|]. intros _.
    apply preserves_bind; [by apply preserves_upload_frame|]. intros c'.
    apply IH.
Qed.

End Preservation.

#[local] Instance extends_quietly_stable : Stable extends_quietly quiet.
Proof.
  split.
  - intros w. by exists [].
  - intros w1 w2 w3 (d1 & H1 & Hq1) (d2 & H2 & Hq2).
    exists (d2 ++ d1)%list. split.
    + by rewrite H2, H1, app_assoc.
    + by apply Forall_app.
  - intros f w. by exists [].
  - intros w. by exists [].
  - intros w. by exists [].
  - intros w. by exists [].
  - intros e w He. exists [e]. split; [done|]. by apply Forall_singleton.
Qed.

#[local] Instance extends_stable : Stable extends any_event.
Proof.
  split.
  - intros w. by exists [].
  - intros w1 w2 w3 (d1 & H1) (d2 & H2).
    exists (d2 ++ d1)%list. by rewrite H2, H1, app_assoc.
  - intros f w. by exists [].
  - intros w. by exists [].
  - intros w. by exists [].
  - intros w. by exists [].
  - intros e w _. by exists [e].
Qed.

#[local] Instance same_n_sfx_stable : Stable same_n_sfx any_event.
Proof. split; unfold same_n_sfx; try done. intros w1 w2 w3 -> ->. done. Qed.

(** ** Traces *)

Lemma last_token_quiet new_events tr :
  Forall (fun e => quiet e = true) new_events ->
  last_token (new_events ++ tr) = last_token tr.
Proof.
  induction 1 as [|e new_events He _ IH]; [done|].
  simpl. by destruct e.
Qed.

Lemma trace_ok_quiet lora first new_events tr :
  Forall (fun e => quiet e = true) new_events ->
  trace_ok lora first tr -> trace_ok lora first (new_events ++ tr).
Proof.
  induction 1 as [|e new_events He _ IH]; [done|].
  intros Hok. simpl. split; [by destruct e | by apply IH].
Qed.

Lemma trace_ok_split lora first newer ev older :
  trace_ok lora first (newer ++ ev :: older) -> event_ok lora first ev older.
Proof.
  induction newer as [|e newer IH]; simpl; [by intros [H _]|].
  intros [_ H]. by apply IH.
Qed.

Lemma extends_quietly_last_token w w' :
  extends_quietly w w' -> last_token (trace w') = last_token (trace w).
Proof. intros (d & -> & Hq). by apply last_token_quiet. Qed.

Lemma extends_quietly_trace_ok lora first w w' :
  extends_quietly w w' ->
  trace_ok lora first (trace w) -> trace_ok lora first (trace w').
Proof. intros (d & -> & Hq). by apply trace_ok_quiet. Qed.

Lemma duplicate_events_quiet k frame_path :
  Forall (fun e => quiet e = true) (duplicate_events k frame_path).
Proof. induction k; simpl; repeat constructor; done. Qed.

Lemma extends_quietly_cons w w' e :
  trace w' = e :: trace w -> quiet e = true -> extends_quietly w w'.
Proof. intros H He. exists [e]. split; [done|]. by apply Forall_singleton. Qed.

(** ** The sound effect of a scene *)

Lemma sound_effect_entry E a i sc w r w' :
  sound_effect E a i sc w = (r, w') ->
  r = Ok (sound_entry E a (n_sfx w) sc) /\
  n_sfx w' = (if skip_sound_effects a then n_sfx w else S (n_sfx w)) /\
  extends_quietly w w'.
Proof.
  unfold sound_effect, sound_entry, bind, try_except, convert_sound_effect,
    get_fs, emit, ret.
  destruct (skip_sound_effects a).
  - intros [= <- <-]. split; [done|]. split; [done|].
    by eapply extends_quietly_cons.
  - destruct (sfx_resp E (n_sfx w)) as [[f|]|f]; simpl.
    + intros [= <- <-]. split; [done|]. split; [done|].
      by eapply extends_quietly_cons.
    + intros [= <- <-]. split; [done|]. split; [done|].
      by eapply extends_quietly_cons.
    + rewrite lookup_insert_eq. destruct (getsize_positive f);
        intros [= <- <-]; (split; [done|]); (split; [done|]);
        by eapply extends_quietly_cons.
Qed.

(** ** The continuity chain *)

Lemma truthy_Some v : truthy v = true -> exists u, v = Some u.
Proof. destruct v; [eauto|done]. Qed.

Lemma select_start_frame_ok lora first scene_start i vid_idx c tr :
  (lora = false -> scene_start = None) ->
  chain_inv i vid_idx c tr ->
  start_frame_ok lora first i vid_idx
    (select_start_frame i vid_idx first scene_start c) tr.
Proof.
  intros Hlora (Hseg1 & Hseg & Hlast0 & Hlast).
  unfold select_start_frame, start_frame_ok.
  destruct (Nat.eqb_spec vid_idx 1) as [->|Hv]; simpl.
  - destruct (Nat.eqb_spec i 0) as [->|Hi]; simpl.
    + destruct (truthy first) eqn:Hf.
      * apply truthy_Some in Hf as [u ->]. right; right; left. done.
      * destruct (truthy scene_start) eqn:Hs; [|done].
        apply truthy_Some in Hs as [u ->]. right; right; right.
        split; [done|]. destruct lora; [done|]. by specialize (Hlora eq_refl).
    + destruct (truthy scene_start) eqn:Hs.
      * apply truthy_Some in Hs as [u ->]. right; right; right.
        split; [done|]. destruct lora; [done|]. by specialize (Hlora eq_refl).
      * destruct (Nat.ltb_spec 0 i) as [Hpos|]; [|lia]. simpl.
        destruct (truthy (last_frame_url c)) eqn:Hl; [|done].
        apply truthy_Some in Hl as [u Hu]. rewrite Hu.
        destruct i as [|j]; [lia|].
        destruct (Hlast eq_refl j eq_refl) as [n Hn].
        right; left. split; [done|]. exists j, n. by rewrite <- Hu.
  - destruct (Nat.ltb_spec 1 vid_idx) as [Hgt|]; simpl; [|done].
    destruct (truthy (segment_last_frame_url c)) eqn:Hs; [|done].
    apply truthy_Some in Hs as [u Hu]. rewrite Hu.
    destruct vid_idx as [|k]; [lia|].
    destruct (Hseg k eq_refl ltac:(lia)) as [n Hn].
    left. exists k, n. split; [done|]. split; [lia|]. by rewrite <- Hu.
Qed.

Lemma chain_inv_held_ok i vid_idx c tr :
  (1 <= vid_idx)%nat -> chain_inv i vid_idx c tr -> held_ok i vid_idx c tr.
Proof.
  intros Hv (Hseg1 & Hseg & _).
  destruct vid_idx as [|[|k]]; [lia| |].
  - left. auto.
  - right. destruct (Hseg (S k) eq_refl ltac:(lia)) as [n Hn].
    exists (S k), n. split; [done|]. split; [lia|done].
Qed.

Lemma render_segment_trace E a i vid_idx secs video_path image_url w r w' :
  render_segment E a i vid_idx secs video_path image_url w = (r, w') ->
  trace w' = trace w \/
  trace w' = EvRender i vid_idx secs video_path image_url :: trace w.
Proof.
  unfold render_segment, try_except, bind, engine_call, exists_path, raise, ret.
  intros H. repeat case_match; simplify_eq; simpl; auto.
Qed.

Lemma render_segment_ok E a lora first scene_start i vid_idx secs video_path c w r w' :
  render_segment E a i vid_idx secs video_path
    (select_start_frame i vid_idx first scene_start c) w = (r, w') ->
  (lora = false -> scene_start = None) ->
  chain_inv i vid_idx c (trace w) ->
  trace_ok lora first (trace w) ->
  trace_ok lora first (trace w') /\ last_token (trace w') = last_token (trace w).
Proof.
  intros H Hlora Hinv Hok.
  apply render_segment_trace in H as [-> | ->]; [done|].
  split; [|done]. split; [|done]. by apply select_start_frame_ok.
Qed.

Lemma upload_frame_ok E lora first sc frame_path i vid_idx n_segs c w r w' :
  upload_frame E sc frame_path i vid_idx n_segs c w = (r, w') ->
  held_ok i vid_idx c (trace w) ->
  trace_ok lora first (trace w) ->
  trace_ok lora first (trace w') /\
  (forall c', r = Ok c' ->
     exists url, c' = publish_token vid_idx n_segs url c /\
       last_token (trace w') = Some (i, vid_idx, n_segs, url)).
Proof.
  intros H Hheld Hok.
  apply upload_frame_outcome in H
    as [((msg & ->) & _ & Htr & _) | [(k & url & _ & _ & _ & Hnew & -> & Htr & _)
        | (k & e & _ & _ & _ & -> & Htr & _)]].
  - split; [|done]. rewrite Htr.
    apply trace_ok_quiet; [apply duplicate_events_quiet|done].
  - rewrite Htr. split.
    + split.
      * assert (last_token (EvUpload frame_path
                   :: duplicate_events k frame_path ++ trace w)
                = last_token (trace w)) as Hl.
        { simpl. apply last_token_quiet, duplicate_events_quiet. }
        unfold event_ok, token_ok. rewrite Hl.
        destruct Hheld as [[-> Hnone] | (k0 & n0 & -> & Hk0 & Hlast)].
        -- left. split; [done|]. by rewrite <- Hnone.
        -- right. exists k0, n0, (segment_last_frame_url c). done.
      * split; [done|].
        apply trace_ok_quiet; [apply duplicate_events_quiet|done].
    + intros c' [= <-]. by exists url.
  - split; [|done]. rewrite Htr. split; [done|].
    apply trace_ok_quiet; [apply duplicate_events_quiet|done].
Qed.

Lemma segments_trace_ok E a lora first i sc n_segs scene_start :
  (lora = false -> scene_start = None) ->
  forall video_durations vid_idx c scene_videos w r w',
    segments E a i sc n_segs first scene_start vid_idx video_durations c
      scene_videos w = (r, w') ->
    (1 <= vid_idx)%nat ->
    (vid_idx + length video_durations = S n_segs)%nat ->
    (video_durations <> [] -> chain_inv i vid_idx c (trace w)) ->
    (video_durations = [] ->
       last_token (trace w) = Some (i, n_segs, n_segs, last_frame_url c)) ->
    trace_ok lora first (trace w) ->
    trace_ok lora first (trace w') /\
    (forall c' scene_videos',
       r = Ok (c', scene_videos') ->
       last_token (trace w') = Some (i, n_segs, n_segs, last_frame_url c')).
Proof.
  intros Hlora.
  induction video_durations as [|secs rest IH];
    intros vid_idx c scene_videos w r w' H Hv Hlen Hinv Hend Hok.
  - inversion H; subst. split; [done|]. intros c' vs [= <- <-]. by apply Hend.
  - specialize (Hinv ltac:(done)). clear Hend. simpl in H, Hlen.
    apply bind_inv in H as [(e & H & ->) | ([] & w1 & Hrender & H)].
    { eapply render_segment_ok in H as [H _]; eauto. by split. }
    eapply render_segment_ok in Hrender as [Hok1 Hlast1]; eauto.
    apply bind_inv in H as [(e & H & ->) | ([] & w2 & Hextract & H)].
    { apply (preserves_extract_last_frame extends_quietly quiet) in H.
      split; [|done]. by eapply extends_quietly_trace_ok. }
    apply (preserves_extract_last_frame extends_quietly quiet) in Hextract.
    pose proof (extends_quietly_trace_ok _ _ _ _ Hextract Hok1) as Hok2.
    pose proof (extends_quietly_last_token _ _ Hextract) as Hlast2.
    assert (held_ok i vid_idx c (trace w2)) as Hheld.
    { pose proof (chain_inv_held_ok _ _ _ _ Hv Hinv) as [Hh | (k & n & ? & ? & Hh)].
      - by left.
      - right. exists k, n. split; [done|]. split; [done|]. congruence. }
    apply bind_inv in H as [(e & H & ->) | (c1 & w3 & Hupload & H)].
    { eapply upload_frame_ok in H as [H _]; eauto. by split. }
    eapply upload_frame_ok in Hupload as [Hok3 Hpub]; eauto.
    destruct (Hpub c1 eq_refl) as (url & -> & Hlast3).
    eapply IH in H; eauto; [lia | |].
    + intros Hrest. assert (vid_idx <> n_segs) as Hne.
      { destruct rest; [done|]. simpl in Hlen. lia. }
      unfold publish_token. destruct (Nat.eqb_spec vid_idx n_segs) as [|_]; [done|].
      split; [lia|]. split; [|split; intros; lia].
      intros k [= <-] _. exists n_segs. by rewrite Hlast3.
    + intros ->. simpl in Hlen. assert (vid_idx = n_segs) as -> by lia.
      unfold publish_token. rewrite Nat.eqb_refl. by rewrite Hlast3.
Qed.

Lemma lora_first_frame_off E a w r w' :
  lora_first_frame E a w = (r, w') ->
  exists scene_start,
    r = Ok scene_start /\
    (lora_in_first_frame_mode a = false -> scene_start = None).
Proof.
  unfold lora_first_frame. destruct (lora_in_first_frame_mode a).
  - intros [= <- <-]. by eexists.
  - intros [= <- <-]. by eexists.
Qed.


Lemma scene_step_trace_ok E a first i sc last w r w' :
  scene_step E a i sc first last w = (r, w') ->
  scene_inv i last (trace w) ->
  trace_ok (lora_in_first_frame_mode a) first (trace w) ->
  trace_ok (lora_in_first_frame_mode a) first (trace w') /\
  (forall last' final sound,
     r = Ok (last', final, sound) -> scene_inv (S i) last' (trace w')).
Proof.
  intros H [Hinv0 Hinv] Hok. unfold scene_step in H.
  apply bind_inv in H as [(e & H & ->) | (durs & w0 & Hplan & H)].
  { inversion H; subst. by split. }
  inversion Hplan as [[Hdurs Hw0]]; subst w0. clear Hplan.
  pose proof (video_durations_length _ _ _ Hdurs) as Hlen.
  apply bind_inv in H as [(e & H & ->) | (sound & w1 & Hsound & H)].
  { apply sound_effect_entry in H as (_ & _ & H).
    split; [|done]. by eapply extends_quietly_trace_ok. }
  apply sound_effect_entry in Hsound as (_ & _ & Hq1).
  apply bind_inv in H as [(e & H & ->) | (scene_start & w2 & Hlora & H)].
  { apply (preserves_lora_first_frame extends_quietly quiet) in H.
    split; [|done].
    eapply extends_quietly_trace_ok; [done|]. by eapply extends_quietly_trace_ok. }
  pose proof (lora_first_frame_off _ _ _ _ _ Hlora) as (s & [= <-] & Hoff).
  apply (preserves_lora_first_frame extends_quietly quiet) in Hlora.
  assert (extends_quietly w w2) as Hq2 by (by eapply stable_trans).
  pose proof (extends_quietly_trace_ok _ _ _ _ Hq2 Hok) as Hok2.
  pose proof (extends_quietly_last_token _ _ Hq2) as Hlast2.
  assert (chain_inv i 1 {| last_frame_url := last; segment_last_frame_url := None |}
            (trace w2)) as Hchain.
  { split; [done|]. split; [intros; lia|]. split; [auto|].
    intros _ j Hj. destruct (Hinv j Hj) as [n Hn]. exists n.
    simpl. congruence. }
  assert (durs <> []) as Hne by (intros ->; simpl in Hlen; lia).
  apply bind_inv in H as [(e & H & ->) | ([c' vids] & w3 & Hsegs & H)].
  { pose proof (segments_trace_ok E a _ first i sc (length durs) scene_start Hoff
                  durs 1%nat _ [] w2 _ _ H (le_n 1) eq_refl (fun _ => Hchain)
                  ltac:(done) Hok2) as [Hok3 _].
    by split. }
  pose proof (segments_trace_ok E a _ first i sc (length durs) scene_start Hoff
                durs 1%nat _ [] w2 _ _ Hsegs (le_n 1) eq_refl (fun _ => Hchain)
                ltac:(done) Hok2) as [Hok3 Hend].
  specialize (Hend c' vids eq_refl).
  assert (forall rr ww, (do final <- stitch_scene E sc vids;
                         run sleep 2; ret (last_frame_url c', final, sound)) w3
                        = (rr, ww) -> extends_quietly w3 ww) as Hq3.
  { intros rr ww Hrr. revert Hrr.
    apply (preserves_bind extends_quietly quiet).
    - by apply (preserves_stitch_scene extends_quietly quiet).
    - intros p. apply (preserves_bind extends_quietly quiet).
      + by apply (preserves_emit extends_quietly quiet).
      + intros _. apply (preserves_ret extends_quietly quiet). }
  cbn [fst snd] in H. specialize (Hq3 _ _ H).
  split; [by eapply extends_quietly_trace_ok|].
  intros last' final sound' Hr. split; [done|].
  intros j [= <-]. exists (length durs).
  rewrite (extends_quietly_last_token _ _ Hq3), Hend.
  apply bind_inv in H as [(e & _ & ->) | (p & w4 & _ & H)]; [done|].
  apply bind_inv in H as [(e & _ & ->) | (? & w5 & _ & H)]; [done|].
  rewrite Hr in H. by inversion H.
Qed.

Lemma scenes_loop_trace_ok E a first :
  forall scenes i last vids sounds w r w',
    scenes_loop E a i scenes first last vids sounds w = (r, w') ->
    scene_inv i last (trace w) ->
    trace_ok (lora_in_first_frame_mode a) first (trace w) ->
    trace_ok (lora_in_first_frame_mode a) first (trace w').
Proof.
  induction scenes as [|sc rest IH]; intros i last vids sounds w r w' H Hinv Hok.
  - by inversion H; subst.
  - simpl in H.
    apply bind_inv in H as [(e & H & ->) | ([[last' final] sound] & w1 & Hstep & H)].
    + by eapply scene_step_trace_ok in H as [H _].
    + eapply scene_step_trace_ok in Hstep as [Hok1 Hinv1]; eauto.
Qed.

(** [generate_scenes] is its checks, which leave the world as it is, then the
    initial frame, then the loop over the scenes. *)
Lemma generate_scenes_inv E a scenes w r w' :
  generate_scenes E a scenes w = (r, w') ->
  (exists e, r = Raise e /\ w' = w) \/
  (exists e, r = Raise e /\ initial_frame E a w = (Raise e, w')) \/
  (exists first w1,
     initial_frame E a w = (Ok first, w1) /\
     scenes_loop E a 0 scenes first None [] [] w1 = (r, w')).
Proof.
  unfold generate_scenes. intros H.
  repeat match type of H with
  | bind (if ?b then _ else _) _ _ = _ => destruct b
  | bind (raise _) _ _ = _ => inversion H; subst; left; by eexists
  | bind (ret tt) _ _ = _ => unfold bind at 1 in H; cbn [ret] in H
  | bind (init ?o) _ _ = _ => destruct o; cbn [init] in H
  end.
  all: apply bind_inv in H as [(e & H & ->) | (first & w1 & Hinit & H)];
    [right; left; by eexists | right; right; by eexists _, _].
Qed.

Lemma generate_scenes_trace_ok E a scenes w r w' :
  generate_scenes E a scenes w = (r, w') ->
  trace w = [] ->
  trace_ok (lora_in_first_frame_mode a) (first_frame_of E a w) (trace w').
Proof.
  intros H Hempty.
  apply generate_scenes_inv in H
    as [(e & -> & ->) | [(e & -> & H) | (first & w1 & Hinit & H)]].
  - by rewrite Hempty.
  - apply (preserves_initial_frame extends_quietly quiet) in H; [|done].
    eapply extends_quietly_trace_ok; [done|]. by rewrite Hempty.
  - unfold first_frame_of. rewrite Hinit.
    apply (preserves_initial_frame extends_quietly quiet) in Hinit; [|done].
    eapply scenes_loop_trace_ok; [done|by split|].
    eapply extends_quietly_trace_ok; [done|]. by rewrite Hempty.
Qed.

Lemma start_frame_ok_off first i vid_idx image_url older :
  start_frame_ok false first i vid_idx image_url older ->
  continuity_start_frame first i vid_idx image_url older.
Proof.
  unfold start_frame_ok, continuity_start_frame.
  destruct image_url as [u|]; [|by left].
  intros [H | [H | [H | [_ [=]]]]]; right; exists u; (split; [done|]); auto.
Qed.

(** C4.  With LoRA first-frame mode off, the starting frame passed to the
    engine at every render of a run is (d) absent, or (a) the URL accepted
    for the last frame of the segment before it in the same scene, or (b) at
    the first segment of a later scene the URL accepted for the last frame of
    the last segment of the scene before, or (c) at the first segment of the
    first scene the initial frame of the run. *)
Theorem C4_start_frame E a scenes files newer older i vid_idx secs path image_url :
  lora_in_first_frame_mode a = false ->
  trace (snd (generate_scenes E a scenes (start_world files)))
    = (newer ++ EvRender i vid_idx secs path image_url :: older)%list ->
  continuity_start_frame (first_frame_of E a (start_world files))
    i vid_idx image_url older.
Proof.
  intros Hlora Htrace.
  destruct (generate_scenes E a scenes (start_world files)) as [r w'] eqn:H.
  apply generate_scenes_trace_ok in H; [|done].
  simpl in Htrace. rewrite Htrace, Hlora in H.
  apply trace_ok_split in H. by apply start_frame_ok_off.
Qed.

Lemma C4_start_frame_witness :
  continuity_start_frame
    (first_frame_of (stub_env numbered_url two_frames no_sound) luma_args
       (start_world ∅))
    1 2 (Some "https://bucket/frame_1")
    (skipn 5 (trace (snd two_scene_run))).
Proof.
  apply (C4_start_frame (stub_env numbered_url two_frames no_sound) luma_args
           [scene_of 1 5; scene_of 2 14] ∅
           (firstn 4 (trace (snd two_scene_run)))
           (skipn 5 (trace (snd two_scene_run)))
           1 2 9
           "generated_videos/video_T/scene_2_all_vid_T/scene_2_vid_2_T.mp4"
           (Some "https://bucket/frame_1") eq_refl).
  vm_compute. reflexivity.
Defined.

(** C3 (as amended).  A URL returned by the upload is accepted as a token
    only if it differs by value from the within-scene token: at the first
    segment of every scene that token is [None], so the URL is compared with
    no earlier URL (the token of the scene before is not looked at); at a
    later segment it is the URL accepted for the segment before it in the
    same scene. *)
Theorem C3_token_freshness E a scenes files newer older i vid_idx n_segs url :
  trace (snd (generate_scenes E a scenes (start_world files)))
    = (newer ++ EvToken i vid_idx n_segs url :: older)%list ->
  token_ok i vid_idx url older.
Proof.
  intros Htrace.
  destruct (generate_scenes E a scenes (start_world files)) as [r w'] eqn:H.
  apply generate_scenes_trace_ok in H; [|done].
  simpl in Htrace. rewrite Htrace in H.
  by apply trace_ok_split in H.
Qed.

Lemma C3_token_freshness_witness :
  token_ok 1 2 (Some "https://bucket/frame_2")
    (skipn 3 (trace (snd two_scene_run))).
Proof.
  apply (C3_token_freshness (stub_env numbered_url two_frames no_sound) luma_args
           [scene_of 1 5; scene_of 2 14] ∅
           (firstn 2 (trace (snd two_scene_run)))
           (skipn 3 (trace (snd two_scene_run)))
           1 2 2 (Some "https://bucket/frame_2")).
  vm_compute. reflexivity.
Defined.

(** C3 as stated fails: the first upload of the second scene answers the URL
    that is the token of the first scene, and it is accepted at once. *)
Lemma C3_counterexample : ~ continuity_chain_fresh.
Proof.
  intros H.
  specialize (H (stub_env same_url two_frames no_sound) luma_args
                [scene_of 1 5; scene_of 2 5] ∅).
  vm_compute in H. destruct H as [H _]. by apply H.
Qed.

(** ** The lists [generate_scenes] returns *)

Lemma extends_quietly_extends w w' : extends_quietly w w' -> extends w w'.
Proof. intros (d & H & _). by exists d. Qed.

Lemma extends_In w w' ev : extends w w' -> In ev (trace w) -> In ev (trace w').
Proof. intros [d ->] H. apply in_or_app. by right. Qed.

Lemma load_clips_world paths :
  forall w r w', load_clips paths w = (r, w') -> w' = w.
Proof.
  induction paths as [|p paths IH]; intros w r w'; simpl.
  - by intros [= <- <-].
  - unfold bind, VideoFileClip.
    destruct (fs w !! p) as [[frs tr|tr|fr|n]|]; try by intros [= <- <-].
    destruct (load_clips paths w) as [[cs|e] w1] eqn:Hl;
      apply IH in Hl as ->; by intros [= <- <-].
Qed.

Lemma stitch_scene_result E sc scene_videos w p w' :
  stitch_scene E sc scene_videos w = (Ok p, w') ->
  p = scene_final_path E sc /\
  exists ev, trace w' = ev :: trace w /\ stitched_to p ev.
Proof.
  unfold stitch_scene. destruct (1 <? length scene_videos)%nat.
  - intros H.
    apply bind_inv in H as [(e & _ & [=]) | (clips & w1 & Hload & H)].
    apply load_clips_world in Hload as ->.
    inversion H; subst. split; [done|].
    eexists. split; [done|]. right. by eexists.
  - destruct scene_videos as [|single rest]; [done|].
    unfold bind, copy2.
    destruct (fs w !! single); [|done].
    destruct (String.eqb single (scene_final_path E sc)); [done|].
    intros [= <- <-]. split; [done|].
    eexists. split; [done|]. left. by eexists.
Qed.

Lemma scene_step_result E a i sc first last w last' final sound w' :
  scene_step E a i sc first last w = (Ok (last', final, sound), w') ->
  final = scene_final_path E sc /\
  sound = sound_entry E a (n_sfx w) sc /\
  n_sfx w' = (if skip_sound_effects a then n_sfx w else S (n_sfx w)) /\
  extends w w' /\
  exists ev, In ev (trace w') /\ stitched_to final ev.
Proof.
  unfold scene_step. intros H.
  apply bind_inv in H as [(e & _ & [=]) | (durs & w0 & Hplan & H)].
  inversion Hplan as [[Hdurs Hw0]]; subst w0. clear Hplan.
  apply bind_inv in H as [(e & _ & [=]) | (sound0 & w1 & Hsound & H)].
  apply sound_effect_entry in Hsound as ([= ->] & Hn1 & Hq1).
  apply extends_quietly_extends in Hq1.
  apply bind_inv in H as [(e & _ & [=]) | (scene_start & w2 & Hlora & H)].
  pose proof (preserves_lora_first_frame same_n_sfx any_event _ _ _ _ _ Hlora) as Hn2.
  apply (preserves_lora_first_frame extends any_event) in Hlora.
  apply bind_inv in H as [(e & _ & [=]) | ([c' vids] & w3 & Hsegs & H)].
  pose proof (preserves_segments same_n_sfx any_event _ _ _ _ _ _ _ _
                (fun _ => eq_refl) _ _ _ _ _ _ Hsegs) as Hn3.
  apply (preserves_segments extends any_event) in Hsegs; [|done].
  apply bind_inv in H as [(e & _ & [=]) | (p & w4 & Hstitch & H)].
  pose proof (preserves_stitch_scene same_n_sfx any_event _ _ _
                (fun _ _ => eq_refl) _ _ _ Hstitch) as Hn4.
  pose proof (preserves_stitch_scene extends any_event _ _ _
                (fun _ _ => eq_refl) _ _ _ Hstitch) as Hx4.
  apply stitch_scene_result in Hstitch as (-> & ev & Htr4 & Hev).
  apply bind_inv in H as [(e & _ & [=]) | ([] & w5 & Hsleep & H)].
  inversion Hsleep; subst w5. inversion H; subst. clear H Hsleep.
  unfold same_n_sfx in *. simpl.
  split; [done|]. split; [done|]. split; [congruence|]. split.
  - eapply stable_trans; [exact Hq1|].
    eapply stable_trans; [exact Hlora|].
    eapply stable_trans; [exact Hsegs|].
    eapply stable_trans; [exact Hx4|]. by eapply (stable_event (R := extends)).
  - exists ev. rewrite Htr4. split; [right; by left|done].
Qed.

Lemma sound_entry_cases E a k sc :
  sound_entry E a k sc = None \/
  sound_entry E a k sc = Some (sound_effect_path E sc).
Proof. unfold sound_entry. repeat case_match; auto. Qed.

Lemma sound_entry_skipped E a k sc :
  skip_sound_effects a = true -> sound_entry E a k sc = None.
Proof. unfold sound_entry. by intros ->. Qed.

Lemma sound_entries_length E a scenes :
  forall k, length (sound_entries E a k scenes) = length scenes.
Proof. induction scenes as [|sc rest IH]; intros k; simpl; [done|]. by rewrite IH. Qed.

Lemma sound_entries_lookup E a scenes :
  forall k i sc,
    scenes !! i = Some sc ->
    exists k', sound_entries E a k scenes !! i = Some (sound_entry E a k' sc).
Proof.
  induction scenes as [|sc0 rest IH]; intros k i sc Hi; [done|].
  destruct i as [|i]; simpl in *.
  - inversion Hi; subst. by exists k.
  - by apply IH.
Qed.

Lemma scenes_loop_result E a first :
  forall scenes i last vids sounds w vids' sounds' w',
    scenes_loop E a i scenes first last vids sounds w = (Ok (vids', sounds'), w') ->
    vids' = (vids ++ map (scene_final_path E) scenes)%list /\
    sounds' = (sounds ++ sound_entries E a (n_sfx w) scenes)%list /\
    extends w w' /\
    Forall (fun sc => exists ev, In ev (trace w') /\
                        stitched_to (scene_final_path E sc) ev) scenes.
Proof.
  induction scenes as [|sc rest IH];
    intros i last vids sounds w vids' sounds' w' H.
  - inversion H; subst. rewrite !app_nil_r.
    split; [done|]. split; [done|]. split; [apply stable_refl|done].
  - simpl in H.
    apply bind_inv in H as [(e & _ & [=]) | ([[last' final] sound] & w1 & Hstep & H)].
    apply scene_step_result in Hstep as (-> & -> & Hn & Hx & ev & Hin & Hev).
    apply IH in H as (-> & -> & Hx' & Hall). cbn [fst snd].
    split; [by rewrite <- app_assoc|]. split.
    + rewrite <- app_assoc. simpl. by rewrite Hn.
    + split; [by eapply stable_trans|].
      constructor; [|done]. exists ev. split; [|done]. by eapply extends_In.
Qed.

(** * Further properties of the pipeline *)

(** ** What the steps keep, counter by counter *)

Section Calmness.

Context (R : world -> world -> Prop) (up rd sx lr : bool).
Context `{!Calm R up rd sx lr}.

Lemma keeps_ret {A} (x : A) : preserves R (ret x).
Proof. intros w r w' [= <- <-]. apply calm_refl. Qed.

Lemma keeps_raise {A} e : preserves R (@raise A e).
Proof. intros w r w' [= <- <-]. apply calm_refl. Qed.

Lemma keeps_lift {A} (x : result A) : preserves R (lift x).
Proof. intros w r w' [= <- <-]. apply calm_refl. Qed.

Lemma keeps_bind {A B} (m : M A) (k : A -> M B) :
  preserves R m -> (forall x, preserves R (k x)) -> preserves R (bind m k).
Proof.
  intros Hm Hk w r w' H.
  apply bind_inv in H as [(e & H & _) | (x & w1 & H1 & H2)].
  - by eapply Hm.
  - eapply calm_trans; [by eapply Hm | by eapply Hk].
Qed.

Lemma keeps_try_except {A} (m : M A) (h : error -> M A) :
  preserves R m -> (forall e, preserves R (h e)) -> preserves R (try_except m h).
Proof.
  intros Hm Hh w r w' H.
  apply try_except_inv in H as [(x & H & _) | (e & w1 & H1 & H2)].
  - by eapply Hm.
  - eapply calm_trans; [by eapply Hm | by eapply Hh].
Qed.

Lemma keeps_emit e : preserves R (emit e).
Proof. intros w r w' [= <- <-]. apply calm_event. Qed.

Lemma keeps_get_fs : preserves R get_fs.
Proof. intros w r w' [= <- <-]. apply calm_refl. Qed.

Lemma keeps_write_file p f : preserves R (write_file p f).
Proof. intros w r w' [= <- <-]. apply calm_fs. Qed.

Lemma keeps_exists_path p : preserves R (exists_path p).
Proof. intros w r w' [= <- <-]. apply calm_refl. Qed.

Lemma keeps_init o : preserves R (init o).
Proof. destruct o; [apply keeps_raise | apply keeps_ret]. Qed.

Lemma keeps_copy2 src dst : preserves R (copy2 src dst).
Proof.
  intros w r w'. unfold copy2.
  repeat case_match; intros [= <- <-]; try apply calm_refl.
  eapply calm_trans; [apply calm_fs | apply calm_event].
Qed.

Lemma keeps_VideoFileClip p : preserves R (VideoFileClip p).
Proof.
  intros w r w'. unfold VideoFileClip.
  repeat case_match; intros [= <- <-]; apply calm_refl.
Qed.

Lemma keeps_AudioFileClip p : preserves R (AudioFileClip p).
Proof.
  intros w r w'. unfold AudioFileClip.
  repeat case_match; intros [= <- <-]; apply calm_refl.
Qed.

Lemma keeps_load_clips paths : preserves R (load_clips paths).
Proof.
  induction paths as [|p paths IH]; simpl; [apply keeps_ret|].
  apply keeps_bind; [apply keeps_VideoFileClip|]. intros c.
  apply keeps_bind; [apply IH|]. intros cs. apply keeps_ret.
Qed.

Lemma keeps_extract_last_frame video_path frame_path :
  preserves R (extract_last_frame video_path frame_path).
Proof.
  unfold extract_last_frame.
  apply keeps_bind; [apply keeps_get_fs|]. intros files.
  repeat case_match; first [apply keeps_write_file | apply keeps_raise].
Qed.

Lemma keeps_stitch_scene E sc scene_videos :
  preserves R (stitch_scene E sc scene_videos).
Proof.
  unfold stitch_scene. case_match.
  - apply keeps_bind; [apply keeps_load_clips|]. intros clips.
    apply keeps_bind; [apply keeps_emit|]. intros _.
    apply keeps_bind; [apply keeps_write_file|]. intros _. apply keeps_ret.
  - case_match; [apply keeps_raise|].
    apply keeps_bind; [apply keeps_copy2|]. intros _. apply keeps_ret.
Qed.

Lemma keeps_upload_image E path :
  up = true -> preserves R (upload_image E path).
Proof.
  intros Hup w r w' [= <- <-].
  eapply calm_trans; [apply calm_event | by apply calm_upload].
Qed.

Lemma keeps_upload_while E remaining frame_path i vid_idx n_segs c :
  up = true ->
  forall retry_count,
    preserves R (upload_while E remaining retry_count frame_path i vid_idx n_segs c).
Proof.
  intros Hup. induction remaining as [|remaining IH]; intros retry_count; simpl.
  - apply keeps_ret.
  - apply keeps_bind; [by apply keeps_upload_image|]. intros url.
    case_match.
    + apply keeps_bind; [apply keeps_emit|]. intros _. apply keeps_ret.
    + apply keeps_bind; [apply keeps_emit|]. intros _. apply IH.
Qed.

Lemma keeps_upload_frame E sc frame_path i vid_idx n_segs c :
  up = true -> preserves R (upload_frame E sc frame_path i vid_idx n_segs c).
Proof.
  intros Hup. unfold upload_frame.
  apply keeps_bind; [by apply keeps_upload_while|]. intros r.
  case_match; [apply keeps_raise | apply keeps_ret].
Qed.

Lemma keeps_initial_frame E a : up = true -> preserves R (initial_frame E a).
Proof.
  intros Hup. unfold initial_frame.
  repeat first
    [ apply keeps_ret
    | apply keeps_exists_path
    | apply keeps_copy2
    | by apply keeps_upload_image
    | apply keeps_bind; [|intros ?]
    | case_match ].
Qed.

Lemma keeps_lora_first_frame E a :
  lr = true \/ lora_in_first_frame_mode a = false ->
  preserves R (lora_first_frame E a).
Proof.
  intros Hlr. unfold lora_first_frame.
  destruct (lora_in_first_frame_mode a); [|apply keeps_ret].
  destruct Hlr as [Hlr|]; [|done].
  intros w r w' [= <- <-]. by apply calm_lora.
Qed.

Lemma keeps_sound_effect E a i sc :
  sx = true \/ skip_sound_effects a = true ->
  preserves R (sound_effect E a i sc).
Proof.
  intros Hsx. unfold sound_effect.
  apply keeps_bind; [|intros entry; apply keeps_bind;
                        [apply keeps_emit | intros _; apply keeps_ret]].
  destruct (skip_sound_effects a); [apply keeps_ret|].
  destruct Hsx as [Hsx|]; [|done].
  apply keeps_try_except; [|intros _; apply keeps_ret].
  apply keeps_bind.
  - intros w r w'. unfold convert_sound_effect.
    repeat case_match; intros [= <- <-];
      try (by apply calm_sfx);
      (eapply calm_trans; [by apply calm_sfx | apply calm_fs]).
  - intros _. apply keeps_bind; [apply keeps_get_fs|]. intros files.
    repeat case_match; apply keeps_ret.
Qed.

Lemma keeps_render_segment E a i vid_idx secs video_path image_url :
  rd = true ->
  preserves R (render_segment E a i vid_idx secs video_path image_url).
Proof.
  intros Hrd. unfold render_segment.
  apply keeps_try_except; [|intros e; apply keeps_raise].
  apply keeps_bind.
  - case_match; [|apply keeps_raise].
    intros w r w'. unfold engine_call.
    assert (R w (tick_render (record (EvRender i vid_idx secs video_path image_url) w))).
    { eapply calm_trans; [apply calm_event | by apply calm_render]. }
    repeat case_match; intros [= <- <-]; try done.
    eapply calm_trans; [done | apply calm_fs].
  - intros _. apply keeps_bind; [apply keeps_exists_path|].
    intros saved. destruct saved; [apply keeps_ret | apply keeps_raise].
Qed.

Lemma keeps_segments E a i sc n_segs first scene_start video_durations :
  up = true -> rd = true ->
  forall vid_idx c scene_videos,
    preserves R (segments E a i sc n_segs first scene_start vid_idx
                   video_durations c scene_videos).
Proof.
  intros Hup Hrd. induction video_durations as [|secs rest IH];
    intros vid_idx c scene_videos; simpl.
  - apply keeps_ret.
  - apply keeps_bind; [by apply keeps_render_segment|]. intros _.
    apply keeps_bind; [apply keeps_extract_last_frame|]. intros _.
    apply keeps_bind; [by apply keeps_upload_frame|]. intros c'.
    apply IH.
Qed.

Lemma keeps_scene_step E a i sc first last :
  up = true -> rd = true ->
  sx = true \/ skip_sound_effects a = true ->
  lr = true \/ lora_in_first_frame_mode a = false ->
  preserves R (scene_step E a i sc first last).
Proof.
  intros Hup Hrd Hsx Hlr. unfold scene_step.
  apply keeps_bind; [apply keeps_lift|]. intros durs.
  apply keeps_bind; [by apply keeps_sound_effect|]. intros sound.
  apply keeps_bind; [by apply keeps_lora_first_frame|]. intros scene_start.
  apply keeps_bind; [by apply keeps_segments|]. intros r.
  apply keeps_bind; [apply keeps_stitch_scene|]. intros final.
  apply keeps_bind; [apply keeps_emit|]. intros _. apply keeps_ret.
Qed.

Lemma keeps_scenes_loop E a first :
  up = true -> rd = true ->
  sx = true \/ skip_sound_effects a = true ->
  lr = true \/ lora_in_first_frame_mode a = false ->
  forall scenes i last vids sounds,
    preserves R (scenes_loop E a i scenes first last vids sounds).
Proof.
  intros Hup Hrd Hsx Hlr.
  induction scenes as [|sc rest IH]; intros i last vids sounds; simpl.
  - apply keeps_ret.
  - apply keeps_bind; [by apply keeps_scene_step|]. intros r. apply IH.
Qed.

Lemma keeps_generate_scenes E a scenes :
  up = true -> rd = true ->
  sx = true \/ skip_sound_effects a = true ->
  lr = true \/ lora_in_first_frame_mode a = false ->
  preserves R (generate_scenes E a scenes).
Proof.
  intros Hup Hrd Hsx Hlr w r w' H.
  apply generate_scenes_inv in H
    as [(e & -> & ->) | [(e & -> & H) | (first & w1 & Hinit & H)]].
  - apply calm_refl.
  - by eapply keeps_initial_frame.
  - eapply calm_trans; [by eapply keeps_initial_frame|].
    by eapply keeps_scenes_loop.
Qed.

End Calmness.

#[local] Instance same_n_sfx_calm : Calm same_n_sfx true true false true.
Proof. split; unfold same_n_sfx; try done. intros w1 w2 w3 -> ->. done. Qed.

#[local] Instance same_n_lora_calm : Calm same_n_lora true true true false.
Proof. split; unfold same_n_lora; try done. intros w1 w2 w3 -> ->. done. Qed.

#[local] Instance same_n_render_calm : Calm same_n_render true false true true.
Proof. split; unfold same_n_render; try done. intros w1 w2 w3 -> ->. done. Qed.

#[local] Instance same_n_upload_calm : Calm same_n_upload false true true true.
Proof. split; unfold same_n_upload; try done. intros w1 w2 w3 -> ->. done. Qed.

(** ** Services that are switched off *)

(** X1.  With sound effects skipped, no run of [generate_scenes] calls the
    sound-effect service, whether the run succeeds or fails. *)
Theorem sound_service_not_called E a scenes w :
  skip_sound_effects a = true ->
  n_sfx (snd (generate_scenes E a scenes w)) = n_sfx w.
Proof.
  intros Hskip.
  destruct (generate_scenes E a scenes w) as [r w'] eqn:H.
  eapply (keeps_generate_scenes same_n_sfx true true false true) in H; auto.
Qed.

Lemma sound_service_not_called_witness : n_sfx (snd counted_run) = 7%nat.
Proof.
  exact (sound_service_not_called
           (stub_env (twice_then_new "old" "new") two_frames no_sound) luma_args
           [scene_of 1 5; scene_of 2 14]
           {| fs := ∅; n_upload := 0; n_render := 0; n_sfx := 7; n_lora := 4;
              trace := [] |} eq_refl).
Defined.

(** X2.  With LoRA first-frame mode off, no run of [generate_scenes] calls
    the LoRA inference. *)
Theorem lora_service_not_called E a scenes w :
  lora_in_first_frame_mode a = false ->
  n_lora (snd (generate_scenes E a scenes w)) = n_lora w.
Proof.
  intros Hoff.
  destruct (generate_scenes E a scenes w) as [r w'] eqn:H.
  eapply (keeps_generate_scenes same_n_lora true true true false) in H; auto.
Qed.

Lemma lora_service_not_called_witness : n_lora (snd counted_run) = 4%nat.
Proof.
  exact (lora_service_not_called
           (stub_env (twice_then_new "old" "new") two_frames no_sound) luma_args
           [scene_of 1 5; scene_of 2 14]
           {| fs := ∅; n_upload := 0; n_render := 0; n_sfx := 7; n_lora := 4;
              trace := [] |} eq_refl).
Defined.

(** ** How often the render and upload services are called *)

Lemma render_segment_n_render E a i vid_idx secs video_path image_url w r w' :
  render_segment E a i vid_idx secs video_path image_url w = (r, w') ->
  (n_render w' = n_render w \/ n_render w' = S (n_render w)) /\
  (is_ok r = true -> n_render w' = S (n_render w)).
Proof.
  unfold render_segment, try_except, bind, engine_call, exists_path, raise, ret.
  intros H. repeat case_match; simplify_eq; simpl; split; auto; done.
Qed.

Lemma upload_frame_n_upload E sc frame_path i vid_idx n_segs c w r w' :
  upload_frame E sc frame_path i vid_idx n_segs c w = (r, w') ->
  (n_upload w <= n_upload w' <= n_upload w + 3)%nat /\
  (is_ok r = true -> (n_upload w + 1 <= n_upload w')%nat).
Proof.
  intros H. apply upload_frame_outcome in H
    as [(_ & _ & _ & Hn) | [(k & url & Hk & _ & _ & _ & _ & _ & Hn)
        | (k & e & Hk & _ & _ & _ & _ & Hn)]]; split; intros; lia.
Qed.

Lemma segments_calls E a i sc n_segs first scene_start video_durations :
  forall vid_idx c scene_videos w r w',
    segments E a i sc n_segs first scene_start vid_idx video_durations c
      scene_videos w = (r, w') ->
    calls_within (length video_durations) w r w'.
Proof.
  induction video_durations as [|secs rest IH];
    intros vid_idx c scene_videos w r w' H.
  - inversion H; subst. unfold calls_within. simpl. lia.
  - simpl in H.
    apply bind_inv in H as [(e & H & ->) | ([] & w1 & Hrender & H)].
    { pose proof (keeps_render_segment same_n_upload false true true true
                    _ _ _ _ _ _ _ eq_refl _ _ _ H) as Hu.
      apply render_segment_n_render in H as [H _].
      unfold calls_within, same_n_upload in *. simpl. lia. }
    pose proof (keeps_render_segment same_n_upload false true true true
                  _ _ _ _ _ _ _ eq_refl _ _ _ Hrender) as Hu1.
    apply render_segment_n_render in Hrender as [_ Hr1].
    specialize (Hr1 eq_refl).
    apply bind_inv in H as [(e & H & ->) | ([] & w2 & Hextract & H)].
    { pose proof (keeps_extract_last_frame same_n_upload false true true true
                    _ _ _ _ _ H) as Hu.
      apply (keeps_extract_last_frame same_n_render true false true true) in H.
      unfold calls_within, same_n_upload, same_n_render in *. simpl. lia. }
    pose proof (keeps_extract_last_frame same_n_upload false true true true
                  _ _ _ _ _ Hextract) as Hu2.
    apply (keeps_extract_last_frame same_n_render true false true true) in Hextract.
    apply bind_inv in H as [(e & H & ->) | (c1 & w3 & Hupload & H)].
    { pose proof (keeps_upload_frame same_n_render true false true true
                    _ _ _ _ _ _ _ eq_refl _ _ _ H) as Hr.
      apply upload_frame_n_upload in H as [H _].
      unfold calls_within, same_n_upload, same_n_render in *. simpl. lia. }
    pose proof (keeps_upload_frame same_n_render true false true true
                  _ _ _ _ _ _ _ eq_refl _ _ _ Hupload) as Hr3.
    apply upload_frame_n_upload in Hupload as [Hu3 Hu3'].
    specialize (Hu3' eq_refl).
    apply IH in H as (Hr & Hu & Hok).
    unfold calls_within, same_n_upload, same_n_render in *. simpl.
    split; [lia|]. split; [lia|]. intros Hr'. specialize (Hok Hr'). lia.
Qed.

Lemma calls_within_same {A} n w (r : result A) w' :
  same_n_render w w' -> same_n_upload w w' ->
  (is_ok r = true -> n = 0%nat) ->
  calls_within n w r w'.
Proof.
  unfold calls_within, same_n_render, same_n_upload. intros -> -> Hn.
  split; [lia|]. split; [lia|]. intros Hr. specialize (Hn Hr). lia.
Qed.

Lemma calls_within_seq {A B} n1 n2 w (r1 : result A) w1 (r : result B) w' :
  calls_within n1 w r1 w1 -> is_ok r1 = true ->
  calls_within n2 w1 r w' ->
  calls_within (n1 + n2) w r w'.
Proof.
  unfold calls_within. intros (Hr1 & Hu1 & Hok1) Hr (Hr2 & Hu2 & Hok2).
  specialize (Hok1 Hr). split; [lia|]. split; [lia|].
  intros Hr'. specialize (Hok2 Hr'). lia.
Qed.

Lemma calls_within_weaken {A B} n m w (r : result A) e w' :
  calls_within n w r w' -> calls_within (n + m) w (@Raise B e) w'.
Proof.
  unfold calls_within. intros (Hr1 & Hu1 & _).
  split; [lia|]. split; [lia|]. done.
Qed.

Lemma scene_step_calls E a i sc first last w r w' :
  scene_step E a i sc first last w = (r, w') ->
  calls_within (planned_segments (video_engine a) sc) w r w'.
Proof.
  unfold scene_step, planned_segments. intros H.
  apply bind_inv in H as [(e & H & ->) | (durs & w0 & Hplan & H)].
  { inversion H; subst. by apply calls_within_same. }
  inversion Hplan as [[Hdurs Hw0]]; subst w0. rewrite Hdurs. clear Hplan.
  assert (forall (R : world -> world -> Prop) up rd,
            Calm R up rd true true ->
            forall w0 rr ww,
              (do sound <- sound_effect E a i sc;
               do scene_start <- lora_first_frame E a; ret (sound, scene_start)) w0
              = (rr, ww) -> R w0 ww) as Hpre.
  { intros R up rd HR.
    apply (keeps_bind R up rd true true);
      [apply (keeps_sound_effect R up rd true true); auto|]. intros sound.
    apply (keeps_bind R up rd true true);
      [apply (keeps_lora_first_frame R up rd true true); auto|]. intros ss.
    apply (keeps_ret R up rd true true). }
  apply bind_inv in H as [(e & H & ->) | (sound & w1 & Hsound & H)].
  { apply calls_within_same; [| |done].
    - eapply (keeps_sound_effect same_n_render true false true true); eauto.
    - eapply (keeps_sound_effect same_n_upload false true true true); eauto. }
  apply bind_inv in H as [(e & H & ->) | (scene_start & w2 & Hlora & H)].
  { apply calls_within_same; [| |done].
    - eapply (Hpre same_n_render true false _).
      unfold bind at 1. rewrite Hsound. unfold bind. by rewrite H.
    - eapply (Hpre same_n_upload false true _).
      unfold bind at 1. rewrite Hsound. unfold bind. by rewrite H. }
  assert (same_n_render w w2 /\ same_n_upload w w2) as [Hr2 Hu2].
  { split.
    - eapply (Hpre same_n_render true false _).
      unfold bind at 1. rewrite Hsound. unfold bind. by rewrite Hlora.
    - eapply (Hpre same_n_upload false true _).
      unfold bind at 1. rewrite Hsound. unfold bind. by rewrite Hlora. }
  clear Hpre Hsound Hlora.
  assert (forall n (rr : result (pystr * string * pystr)) ww,
            calls_within n w2 rr ww -> calls_within n w rr ww) as Hshift.
  { unfold calls_within, same_n_render, same_n_upload in *.
    intros n rr ww. rewrite Hr2, Hu2. done. }
  apply Hshift. clear Hshift Hr2 Hu2.
  apply bind_inv in H as [(e & H & ->) | ([c' vids] & w3 & Hsegs & H)].
  { apply segments_calls in H. rewrite <- (Nat.add_0_r (length durs)).
    by eapply calls_within_weaken. }
  apply segments_calls in Hsegs.
  rewrite <- (Nat.add_0_r (length durs)).
  eapply calls_within_seq; [exact Hsegs | done |].
  assert (same_n_render w3 w' /\ same_n_upload w3 w') as [Hr3 Hu3].
  { split.
    - revert H. generalize w3 r w'.
      apply (keeps_bind same_n_render true false true true);
        [apply (keeps_stitch_scene same_n_render true false true true)|]. intros p.
      apply (keeps_bind same_n_render true false true true);
        [apply (keeps_emit same_n_render true false true true)|]. intros _.
      apply (keeps_ret same_n_render true false true true).
    - revert H. generalize w3 r w'.
      apply (keeps_bind same_n_upload false true true true);
        [apply (keeps_stitch_scene same_n_upload false true true true)|]. intros p.
      apply (keeps_bind same_n_upload false true true true);
        [apply (keeps_emit same_n_upload false true true true)|]. intros _.
      apply (keeps_ret same_n_upload false true true true). }
  by apply calls_within_same.
Qed.

Lemma scenes_loop_calls E a first :
  forall scenes i last vids sounds w r w',
    scenes_loop E a i scenes first last vids sounds w = (r, w') ->
    calls_within (total_segments (video_engine a) scenes) w r w'.
Proof.
  induction scenes as [|sc rest IH]; intros i last vids sounds w r w' H.
  - inversion H; subst. by apply calls_within_same.
  - simpl in H. unfold total_segments. simpl.
    apply bind_inv in H as [(e & H & ->) | (x & w1 & Hstep & H)].
    + apply scene_step_calls in H. by eapply calls_within_weaken.
    + apply scene_step_calls in Hstep. apply IH in H.
      by eapply calls_within_seq.
Qed.

Lemma initial_frame_n_upload E a w r w' :
  initial_frame E a w = (r, w') ->
  (n_upload w <= n_upload w' <= n_upload w + 1)%nat.
Proof.
  unfold initial_frame, upload_image, copy2, exists_path, bind, get_fs,
    write_file, raise, ret.
  intros H. repeat case_match; simplify_eq; simpl; lia.
Qed.

Lemma generate_scenes_calls E a scenes w r w' :
  generate_scenes E a scenes w = (r, w') ->
  (n_render w <= n_render w' <= n_render w + total_segments (video_engine a) scenes)%nat /\
  (n_upload w <= n_upload w'
     <= n_upload w + 1 + 3 * (n_render w' - n_render w))%nat /\
  (is_ok r = true ->
     n_render w' = (n_render w + total_segments (video_engine a) scenes)%nat /\
     (n_upload w + total_segments (video_engine a) scenes <= n_upload w')%nat).
Proof.
  intros H.
  apply generate_scenes_inv in H
    as [(e & -> & ->) | [(e & -> & H) | (first & w1 & Hinit & H)]].
  - split; [lia|]. split; [lia|]. done.
  - pose proof (initial_frame_n_upload _ _ _ _ _ H) as Hu.
    apply (keeps_initial_frame same_n_render true false true true) in H;
      [|done]. unfold same_n_render in H. rewrite H.
    split; [lia|]. split; [lia|]. done.
  - pose proof (initial_frame_n_upload _ _ _ _ _ Hinit) as Hu.
    apply (keeps_initial_frame same_n_render true false true true) in Hinit;
      [|done]. unfold same_n_render in Hinit.
    apply scenes_loop_calls in H as (Hr & Hu' & Hok). rewrite Hinit in *.
    split; [lia|]. split; [lia|]. intros Hr'. specialize (Hok Hr'). lia.
Qed.

(** X3. A run of [generate_scenes] calls the render service at most once for
    each planned segment of the scenes, and a run that returns has called it
    exactly once for each. *)
Theorem render_calls_counted E a scenes w :
  let out := generate_scenes E a scenes w in
  (n_render w <= n_render (snd out)
     <= n_render w + total_segments (video_engine a) scenes)%nat /\
  (is_ok (fst out) = true ->
     n_render (snd out) = (n_render w + total_segments (video_engine a) scenes)%nat).
Proof.
  intros out. destruct (generate_scenes E a scenes w) as [r w'] eqn:H.
  subst out. simpl.
  apply generate_scenes_calls in H as (Hr & _ & Hok). split; [done|].
  intros Hr'. by destruct (Hok Hr').
Qed.

Lemma render_calls_counted_witness :
  is_ok (fst two_scene_run) = true /\ n_render (snd two_scene_run) = 3%nat.
Proof.
  split; [by vm_compute|].
  exact (proj2 (render_calls_counted (stub_env numbered_url two_frames no_sound)
                  luma_args [scene_of 1 5; scene_of 2 14] (start_world ∅))
           eq_refl).
Defined.

(** X4. A run of [generate_scenes] uploads at most one initial image and at
    most three frames for each segment it rendered, and a run that returns
    has uploaded at least one frame for each planned segment. *)
Theorem upload_calls_bounded E a scenes w :
  let out := generate_scenes E a scenes w in
  (n_upload w <= n_upload (snd out)
     <= n_upload w + 1 + 3 * (n_render (snd out) - n_render w))%nat /\
  (is_ok (fst out) = true ->
     (n_upload w + total_segments (video_engine a) scenes
        <= n_upload (snd out))%nat).
Proof.
  intros out. destruct (generate_scenes E a scenes w) as [r w'] eqn:H.
  subst out. simpl.
  apply generate_scenes_calls in H as (_ & Hu & Hok). split; [done|].
  intros Hr'. by destruct (Hok Hr').
Qed.

Lemma upload_calls_bounded_witness :
  is_ok (fst counted_run) = true /\ (3 <= n_upload (snd counted_run))%nat.
Proof.
  split; [by vm_compute|].
  exact (proj2 (upload_calls_bounded
                  (stub_env (twice_then_new "old" "new") two_frames no_sound)
                  luma_args [scene_of 1 5; scene_of 2 14]
                  {| fs := ∅; n_upload := 0; n_render := 0; n_sfx := 7;
                     n_lora := 4; trace := [] |})
           eq_refl).
Defined.

(** ** An unsupported duration is met only when its scene's turn comes *)

Lemma scene_step_unsupported E a i sc first last e w :
  Planner.video_durations (video_engine a) (scene_duration sc) = Raise e ->
  scene_step E a i sc first last w = (Raise e, w).
Proof. intros H. unfold scene_step, lift, bind. by rewrite H. Qed.

Lemma scenes_loop_unsupported E a first sc rest e :
  Planner.video_durations (video_engine a) (scene_duration sc) = Raise e ->
  forall pre i last vids sounds w,
    is_ok (fst (scenes_loop E a i pre first last vids sounds w)) = true ->
    scenes_loop E a i (pre ++ sc :: rest) first last vids sounds w
    = (Raise e, snd (scenes_loop E a i pre first last vids sounds w)).
Proof.
  intros He. induction pre as [|sc0 pre IH]; intros i last vids sounds w Hok.
  - simpl. unfold bind.
    by rewrite (scene_step_unsupported E a i sc first last e w He).
  - simpl in *. unfold bind in *.
    destruct (scene_step E a i sc0 first last w) as [[x|e0] w1]; [|done].
    by apply IH.
Qed.

(** [generate_scenes] is a prelude that does not look at the scenes, followed
    by the loop over them. *)
Lemma generate_scenes_shape E a w :
  (exists e w1, forall scenes, generate_scenes E a scenes w = (Raise e, w1)) \/
  (exists first w1, forall scenes,
     generate_scenes E a scenes w
     = scenes_loop E a 0 scenes first None [] [] w1).
Proof.
  unfold generate_scenes.
  repeat match goal with
  | |- context [bind (if ?b then _ else _) _ w] => destruct b
  | |- context [bind (raise ?e) _ w] => left; by exists e, w
  | |- context [bind (ret tt) _ w] => unfold bind at 1; cbn [ret]
  | |- context [bind (init ?o) _ w] => destruct o; cbn [init]
  end.
  all: unfold bind; destruct (initial_frame E a w) as [[first|e] w1];
    [right; by exists first, w1 | left; by exists e, w1].
Qed.

(** X5. The duration of a scene is checked when its turn comes: a run over
    scenes of which one has an unsupported duration does all that the run
    over the scenes before it does, when that one returns, and then raises
    the planner's error. *)
Theorem unsupported_scene_stops_run E a pre sc rest e w :
  Planner.video_durations (video_engine a) (scene_duration sc) = Raise e ->
  is_ok (fst (generate_scenes E a pre w)) = true ->
  generate_scenes E a (pre ++ sc :: rest) w
  = (Raise e, snd (generate_scenes E a pre w)).
Proof.
  intros He Hok.
  destruct (generate_scenes_shape E a w)
    as [(e0 & w1 & H) | (first & w1 & H)].
  - by rewrite H in Hok.
  - rewrite !H in *. by apply scenes_loop_unsupported.
Qed.

Lemma unsupported_scene_stops_run_witness :
  generate_scenes (stub_env numbered_url two_frames no_sound) luma_args
    ([scene_of 1 5] ++ scene_of 2 7 :: [scene_of 3 9]) (start_world ∅)
  = (Raise (ValueError "Invalid scene duration for Luma: 7. Must be 5, 9, 14, or 18."),
     snd (generate_scenes (stub_env numbered_url two_frames no_sound) luma_args
            [scene_of 1 5] (start_world ∅))).
Proof.
  exact (unsupported_scene_stops_run
           (stub_env numbered_url two_frames no_sound) luma_args
           [scene_of 1 5] (scene_of 2 7) [scene_of 3 9] _ (start_world ∅)
           eq_refl eq_refl).
Defined.

(** ** One render *)

(** X6. A render that returns has left a file at the segment's path, and one
    that fails raises a [RuntimeError] whose message begins with the engine's
    label and [video generation failed:], whatever went wrong. *)
Theorem render_segment_outcome E a i vid_idx secs video_path image_url w :
  match render_segment E a i vid_idx secs video_path image_url w with
  | (Ok _, w') => is_Some (fs w' !! video_path)
  | (Raise e, _) =>
      exists msg,
        e = RuntimeError (engine_label a ++ " video generation failed: " ++ msg)
  end.
Proof.
  unfold render_segment, try_except, bind, engine_call, exists_path, raise, ret.
  repeat case_match; simplify_eq; simpl in *;
    try (by eexists);
    match goal with
    | H : bool_decide _ = true |- _ => exact (bool_decide_eq_true_1 _ H)
    end.
Qed.

(** X7. The check after a render is that a file is at the segment's path:
    when the engine returns without saving, the render succeeds if a file was
    there before, and its own complaint is otherwise caught and wrapped a
    second time. *)
Theorem render_without_saving E a i vid_idx secs video_path image_url w :
  known_engine (video_engine a) = true ->
  render_resp E (n_render w) = RenderReturns None ->
  fst (render_segment E a i vid_idx secs video_path image_url w)
  = if bool_decide (is_Some (fs w !! video_path)) then Ok tt
    else Raise (RuntimeError
           (engine_label a ++ " video generation failed: " ++ engine_label a
              ++ " video generation failed to save the video file")).
Proof.
  unfold known_engine, render_segment, try_except, bind, engine_call,
    exists_path, raise, ret.
  intros -> ->. simpl. by case_bool_decide.
Qed.

Lemma render_without_saving_witness :
  fst (render_segment (stub_env numbered_url saves_nothing no_sound) luma_args
         0 1 5 "old.mp4" None (start_world {[ "old.mp4" := FRaw 1 ]}))
  = Ok tt.
Proof.
  exact (render_without_saving (stub_env numbered_url saves_nothing no_sound)
           luma_args 0 1 5 "old.mp4" None
           (start_world {[ "old.mp4" := FRaw 1 ]}) eq_refl eq_refl).
Defined.

Lemma render_segment_unknown E a i vid_idx secs video_path image_url w :
  known_engine (video_engine a) = false ->
  render_segment E a i vid_idx secs video_path image_url w
  = (Raise (RuntimeError
       ("Luma video generation failed: "
          ++ "'NoneType' object has no attribute 'generate_video'")), w).
Proof.
  unfold known_engine, render_segment, engine_label, try_except, bind, raise.
  intros H. rewrite H.
  apply orb_false_iff in H as [H _]. apply orb_false_iff in H as [-> ->].
  done.
Qed.

Lemma scene_step_unknown E a i sc first last w r w' :
  known_engine (video_engine a) = false ->
  scene_step E a i sc first last w = (r, w') ->
  n_render w' = n_render w /\ is_ok r = false.
Proof.
  intros Hk H. unfold scene_step in H.
  apply bind_inv in H as [(e & H & ->) | (durs & w0 & Hplan & H)].
  { inversion H; by subst. }
  inversion Hplan; subst w0. clear Hplan.
  apply bind_inv in H as [(e & H & ->) | (sound & w1 & Hsound & H)].
  { split; [|done].
    eapply (keeps_sound_effect same_n_render true false true true); eauto. }
  apply (keeps_sound_effect same_n_render true false true true) in Hsound;
    [|by left]. unfold same_n_render in Hsound. rewrite <- Hsound.
  apply bind_inv in H as [(e & H & ->) | (scene_start & w2 & Hlora & H)].
  { split; [|done].
    eapply (keeps_lora_first_frame same_n_render true false true true); eauto. }
  apply (keeps_lora_first_frame same_n_render true false true true) in Hlora;
    [|by left]. unfold same_n_render in Hlora. rewrite <- Hlora.
  destruct durs as [|secs durs].
  - simpl in H. unfold bind, ret, stitch_scene, raise in H. simpl in H.
    by inversion H.
  - simpl in H. unfold bind at 1 in H. unfold bind at 1 in H.
    rewrite render_segment_unknown in H by done. by inversion H.
Qed.

(** X8. With an engine name other than fal, ltx and luma no generator is
    made: a run never calls the render service, and with at least one scene
    it fails. *)
Theorem unknown_engine_never_renders E a scenes w :
  known_engine (video_engine a) = false ->
  n_render (snd (generate_scenes E a scenes w)) = n_render w /\
  (scenes <> [] -> is_ok (fst (generate_scenes E a scenes w)) = false).
Proof.
  intros Hk. destruct (generate_scenes E a scenes w) as [r w'] eqn:H. simpl.
  apply generate_scenes_inv in H
    as [(e & -> & ->) | [(e & -> & H) | (first & w1 & Hinit & H)]].
  - done.
  - split; [|done].
    by apply (keeps_initial_frame same_n_render true false true true) in H.
  - apply (keeps_initial_frame same_n_render true false true true) in Hinit;
      [|done]. unfold same_n_render in Hinit. rewrite <- Hinit.
    destruct scenes as [|sc rest].
    + inversion H. by subst.
    + simpl in H.
      apply bind_inv in H as [(e & H & ->) | (x & w2 & Hstep & H)].
      * apply scene_step_unknown in H as [H _]; done.
      * apply scene_step_unknown in Hstep as [_ Hstep]; done.
Qed.

Lemma unknown_engine_never_renders_witness :
  n_render (snd (generate_scenes (stub_env numbered_url two_frames no_sound)
                   veo_args [scene_of 1 5] (start_world ∅)))
  = n_render (start_world ∅).
Proof.
  exact (proj1 (unknown_engine_never_renders
                  (stub_env numbered_url two_frames no_sound) veo_args
                  [scene_of 1 5] (start_world ∅) eq_refl)).
Defined.

(** ** The final video *)

Lemma zip_take_length {A B} (l : list A) (k : list B) :
  zip (take (length k) l) k = zip l k.
Proof.
  revert k. induction l as [|x l IH]; intros [|y k]; simpl; try done.
  by rewrite IH.
Qed.

(** X9. [stitch_videos] pairs the videos with the sound entries by [zip]:
    given a list of sound entries that is not empty, the videos past its
    length are left out of the final video without a warning. *)
Theorem stitch_videos_zip E video_files s l narration_audio_path w :
  stitch_videos E video_files (Some (s :: l)) narration_audio_path w
  = stitch_videos E (take (length (s :: l)) video_files) (Some (s :: l))
      narration_audio_path w.
Proof.
  unfold stitch_videos. cbn [sounds_or_none]. by rewrite zip_take_length.
Qed.

Lemma speed_change_length target tr : length (speed_change target tr) = target.
Proof. unfold speed_change. by rewrite length_map, length_seq. Qed.

(** X10. [generate_narration_audio] never raises; when it returns a path, the
    text was not blank, the target duration was not zero, and the file at the
    path is an audio track that lasts the target duration. *)
Theorem narration_audio_fits E narration_text target_duration w :
  match generate_narration_audio E narration_text target_duration w with
  | (Ok (Some p), w') =>
      is_blank narration_text = false /\ target_duration <> 0 /\
      exists tr, fs w' !! p = Some (FAudio tr) /\
                 (0 < target_duration -> Z.of_nat (length tr) = target_duration)
  | (Ok None, _) => True
  | (Raise _, _) => False
  end.
Proof.
  unfold generate_narration_audio, try_except, bind, generate_speech,
    AudioFileClip, write_file, raise, ret.
  repeat case_match; simplify_eq; simpl in *; try done.
  all: split; [done|]; split; [lia|]; eexists; split;
    [by rewrite lookup_insert_eq|]; rewrite speed_change_length; lia.
Qed.

Lemma stitch_videos_written E video_files sound_effect_files narration w p w' :
  stitch_videos E video_files sound_effect_files narration w = (Ok p, w') ->
  video_files <> [] /\ p = final_video_path E /\
  exists frs tr, fs w' !! p = Some (FVideo frs tr).
Proof.
  unfold stitch_videos, bind. rewrite final_clips_loop_omap. simpl.
  destruct video_files as [|v video_files]; [done|].
  destruct (omap _ _) as [|c clips] eqn:Hc; [done|].
  destruct (add_narration_frames (concatenate_videoclips (c :: clips))
              narration w) as (c' & -> & _).
  unfold write_videofile, write_file, ret. intros [= <- <-].
  split; [done|]. split; [done|]. simpl. rewrite lookup_insert_eq. eauto.
Qed.

Lemma generate_scenes_nil E a w x w' :
  generate_scenes E a [] w = (Ok x, w') -> x = ([], []).
Proof.
  intros H. apply generate_scenes_inv in H
    as [(e & ? & _) | [(e & ? & _) | (first & w1 & _ & H)]]; try done.
  by inversion H.
Qed.

(** X11. [generate_video] returns a path only when it also returns the scene
    metadata: then [metadata_only] was off, the metadata has at least one
    scene, the path is that of the final video, and a video file is there.
    Without a path it returns either the message of an exception, or the
    metadata of a [metadata_only] call. *)
Theorem generate_video_outcome E a metadata_only skip_narration w :
  match generate_video E a metadata_only skip_narration w with
  | ((rep, Some p), w') =>
      metadata_only = false /\ p = final_video_path E /\
      (exists scenes,
         rep = Metadata scenes /\ metadata_resp E = Ok scenes /\ scenes <> []) /\
      exists frs tr, fs w' !! p = Some (FVideo frs tr)
  | ((rep, None), _) =>
      (exists msg, rep = Message msg) \/
      (metadata_only = true /\
       exists scenes, rep = Metadata scenes /\ metadata_resp E = Ok scenes)
  end.
Proof.
  unfold generate_video.
  destruct (generate_video_body E a metadata_only skip_narration w)
    as [[[scenes final]|e] w'] eqn:H; simpl.
  2: { left. by eexists. }
  unfold generate_video_body in H.
  apply bind_inv in H as [(e & _ & ?) | ([] & w0 & _ & H)]; [done|].
  apply bind_inv in H as [(e & _ & ?) | (scenes' & w1 & Hmeta & H)]; [done|].
  unfold lift in Hmeta. inversion Hmeta as [[Hscenes Hw]]. subst w1.
  destruct metadata_only.
  { inversion H; subst. right. split; [done|]. by eexists. }
  apply bind_inv in H as [(e & _ & ?) | (narration & w2 & _ & H)]; [done|].
  unfold render_and_stitch in H.
  apply bind_inv in H as [(e & _ & ?) | ([vids sounds] & w3 & Hgen & H)]; [done|].
  apply bind_inv in H as [(e & _ & ?) | (p & w4 & Hstitch & H)]; [done|].
  inversion H; subst. simpl in Hstitch.
  apply stitch_videos_written in Hstitch as (Hne & -> & Hfile).
  split; [done|]. split; [done|]. split; [|done].
  exists scenes. split; [done|]. split; [done|].
  intros ->. apply generate_scenes_nil in Hgen. by inversion Hgen.
Qed.

(** ** The last frame in [VideoGenerator] and in the reference *)

(** X12. On a video that opens but gives no frame, [VideoGenerator] goes on
    with the tokens as they were, uploading nothing, where the reference
    pipeline raises; on every other file the two do the same. *)
Theorem unread_frame_is_skipped E sc video_path i vid_idx n_segs c w :
  match fs w !! video_path with
  | Some (FVideo [] _) =>
      LastFrame.track_last_frame E sc video_path i vid_idx n_segs c w = (Ok c, w)
      /\ is_ok (fst (LastFrame.reference_last_frame E sc video_path
                       i vid_idx n_segs c w)) = false
  | _ =>
      LastFrame.track_last_frame E sc video_path i vid_idx n_segs c w
      = LastFrame.reference_last_frame E sc video_path i vid_idx n_segs c w
  end.
Proof.
  unfold LastFrame.track_last_frame, LastFrame.reference_last_frame,
    LastFrame._extract_last_frame, extract_last_frame, bind, get_fs,
    write_file, ret, raise.
  destruct (fs w !! video_path) as [[[|fr frs] tr| | |]|] eqn:Hfile;
    try done.
  destruct (last (fr :: frs)) as [x|] eqn:Hlast; [done|].
  by apply last_None in Hlast.
Qed.

(** ** [SoundGenerator.generate_sound_effects] *)

Lemma scene_sound_spec E sc w :
  exists entry w',
    SoundGenerator.scene_sound E sc w = (Ok entry, w') /\
    n_sfx w' = S (n_sfx w) /\
    (forall p, is_Some (fs w !! p) -> is_Some (fs w' !! p)) /\
    (forall p, entry = Some p ->
       p = sound_effect_path E sc /\ is_Some (fs w' !! p)).
Proof.
  unfold SoundGenerator.scene_sound, try_except, bind, convert_sound_effect, ret.
  destruct (sfx_resp E (n_sfx w)) as [[f|]|f]; simpl; eexists _, _;
    (split; [done|]); (split; [done|]); simpl.
  - split; [|done]. intros p Hp.
    destruct (decide (sound_effect_path E sc = p)) as [->|Hne].
    + by rewrite lookup_insert_eq.
    + by rewrite lookup_insert_ne.
  - done.
  - split.
    + intros p Hp.
      destruct (decide (sound_effect_path E sc = p)) as [->|Hne].
      * by rewrite lookup_insert_eq.
      * by rewrite lookup_insert_ne.
    + intros p [= <-]. split; [done|]. by rewrite lookup_insert_eq.
Qed.

Lemma sound_loop_spec E scenes :
  forall acc w,
    exists l w',
      SoundGenerator.sound_loop E scenes acc w = (Ok (acc ++ l)%list, w') /\
      length l = length scenes /\
      n_sfx w' = (n_sfx w + length scenes)%nat /\
      (forall p, is_Some (fs w !! p) -> is_Some (fs w' !! p)) /\
      (forall k sc p, scenes !! k = Some sc -> l !! k = Some (Some p) ->
         p = sound_effect_path E sc /\ is_Some (fs w' !! p)).
Proof.
  induction scenes as [|sc rest IH]; intros acc w.
  - exists [], w. simpl. unfold ret. rewrite app_nil_r.
    repeat split; try done; lia.
  - destruct (scene_sound_spec E sc w) as (entry & w1 & H1 & Hn1 & Hmono1 & He1).
    destruct (IH (acc ++ [entry])%list w1) as (l & w' & H & Hlen & Hn & Hmono & Hl).
    exists (entry :: l), w'. simpl. unfold bind. rewrite H1, H.
    rewrite <- app_assoc. simpl.
    split; [done|]. split; [by rewrite Hlen|]. split; [lia|].
    split; [by auto|].
    intros [|k] sc' p Hsc Hp; simpl in *.
    + inversion Hsc; subst sc'. inversion Hp; subst entry.
      destruct (He1 p eq_refl) as [-> Hfile]. split; [done|]. by apply Hmono.
    + by eapply Hl.
Qed.

(** X13. [generate_sound_effects] never raises and calls the sound service
    once for each scene; its list has one entry for each scene, in order, and
    an entry that is a path is the sound path of its scene, with a file
    there at the end. *)
Theorem generate_sound_effects_aligned E scenes w :
  exists l w',
    SoundGenerator.generate_sound_effects E scenes w = (Ok l, w') /\
    length l = length scenes /\
    n_sfx w' = (n_sfx w + length scenes)%nat /\
    forall k sc p, scenes !! k = Some sc -> l !! k = Some (Some p) ->
      p = sound_effect_path E sc /\ is_Some (fs w' !! p).
Proof.
  destruct (sound_loop_spec E scenes [] w) as (l & w' & H & Hlen & Hn & _ & Hl).
  exists l, w'. split; [done|]. split; [done|]. split; [done|]. exact Hl.
Qed.

(** X14. The two pipelines differ on a sound file of size zero: the entry
    [generate_scenes] gives a scene is also the entry of [SoundGenerator],
    but an empty file, which [generate_scenes] answers with no entry, keeps
    its path in [SoundGenerator]. *)
Theorem empty_sound_file_kept E a i sc w :
  skip_sound_effects a = false ->
  (forall p, fst (sound_effect E a i sc w) = Ok (Some p) ->
     fst (SoundGenerator.scene_sound E sc w) = Ok (Some p)) /\
  (forall f, sfx_resp E (n_sfx w) = SfxWrites f -> getsize_positive f = false ->
     fst (sound_effect E a i sc w) = Ok None /\
     fst (SoundGenerator.scene_sound E sc w) = Ok (Some (sound_effect_path E sc))).
Proof.
  intros Hskip.
  unfold sound_effect, SoundGenerator.scene_sound, try_except, bind,
    convert_sound_effect, get_fs, emit, ret. rewrite Hskip.
  destruct (sfx_resp E (n_sfx w)) as [[f|]|f]; simpl.
  - split; [by intros p [=]|]. by intros f' [=].
  - split; [by intros p [=]|]. by intros f' [=].
  - rewrite lookup_insert_eq. split.
    + intros p. by destruct (getsize_positive f).
    + intros f' [= <-] ->. done.
Qed.

Lemma empty_sound_file_kept_witness :
  fst (sound_effect (stub_env numbered_url two_frames SoundGenerator.empty_sound)
         SoundGenerator.sound_args 0 (scene_of 1 5) (start_world ∅)) = Ok None /\
  fst (SoundGenerator.scene_sound
         (stub_env numbered_url two_frames SoundGenerator.empty_sound)
         (scene_of 1 5) (start_world ∅))
  = Ok (Some (sound_effect_path
                (stub_env numbered_url two_frames SoundGenerator.empty_sound)
                (scene_of 1 5))).
Proof.
  exact (proj2 (empty_sound_file_kept
                  (stub_env numbered_url two_frames SoundGenerator.empty_sound)
                  SoundGenerator.sound_args 0 (scene_of 1 5) (start_world ∅)
                  eq_refl)
           (FRaw 0) eq_refl eq_refl).
Defined.

(** ** [generate_image] *)

Lemma image_wait_S svc fuel w :
  LumaImageGen.wait_loop svc (S fuel) w
  = match Polling.state_at svc (Polling.n_get w) with
    | Polling.Completed =>
        (Some true, Polling.sleep 2 (snd (Polling.get svc w)))
    | Polling.Failed _ => (Some false, snd (Polling.get svc w))
    | Polling.Pending _ =>
        LumaImageGen.wait_loop svc fuel
          (Polling.sleep 2 (snd (Polling.get svc w)))
    end.
Proof. reflexivity. Qed.

Lemma repeat_app_cons {A} (x : A) k l :
  (repeat x k ++ x :: l = repeat x (S k) ++ l)%list.
Proof. induction k as [|k IH]; simpl; [done|]. by rewrite IH. Qed.

(** X15. The wait of [generate_image] sleeps 2 after every poll that does not
    report a failure, the one that reports completion included: a generation
    pending for [n] polls and then completed costs [n + 1] sleeps, one that
    then failed costs [n], and either way the wait ends after [n + 1]
    polls. *)
Theorem image_wait_sleeps svc n w fuel :
  Waiting.pending_for svc w n ->
  Polling.terminal (Polling.state_at svc (Polling.n_get w + n)) = true ->
  (n < fuel)%nat ->
  let failed :=
    match Polling.state_at svc (Polling.n_get w + n) with
    | Polling.Failed _ => true
    | _ => false
    end in
  fst (LumaImageGen.wait_loop svc fuel w) = Some (negb failed) /\
  Polling.sleeps (snd (LumaImageGen.wait_loop svc fuel w))
  = (repeat 2 (if failed then n else S n) ++ Polling.sleeps w)%list /\
  Polling.n_get (snd (LumaImageGen.wait_loop svc fuel w))
  = (Polling.n_get w + S n)%nat.
Proof.
  revert w fuel. induction n as [|n IH]; intros w fuel Hpend Hterm Hfuel.
  - destruct fuel as [|fuel]; [lia|]. rewrite image_wait_S.
    rewrite Nat.add_0_r in *.
    destruct (Polling.state_at svc (Polling.n_get w)); try done;
      simpl; repeat split; lia.
  - destruct fuel as [|fuel]; [lia|]. rewrite image_wait_S.
    pose proof (Hpend 0%nat ltac:(lia)) as H0. rewrite Nat.add_0_r in H0.
    destruct (Polling.state_at svc (Polling.n_get w)) eqn:Hs; try done.
    set (w1 := Polling.sleep 2 (snd (Polling.get svc w))).
    assert (Polling.n_get w1 = S (Polling.n_get w)) as Hn1 by done.
    assert (Polling.sleeps w1 = 2 :: Polling.sleeps w) as Hs1 by done.
    destruct (IH w1 fuel) as (Hr & Hsl & Hg).
    + intros j Hj. rewrite Hn1.
      replace (S (Polling.n_get w) + j)%nat with (Polling.n_get w + S j)%nat
        by lia.
      apply Hpend. lia.
    + rewrite Hn1.
      by replace (S (Polling.n_get w) + n)%nat with (Polling.n_get w + S n)%nat
        by lia.
    + lia.
    + rewrite Hn1 in *.
      replace (S (Polling.n_get w) + n)%nat with (Polling.n_get w + S n)%nat
        in * by lia.
      cbv zeta in *. split; [done|]. split; [|lia].
      rewrite Hsl, Hs1.
      destruct (Polling.state_at svc (Polling.n_get w + S n));
        by rewrite repeat_app_cons.
Qed.

Lemma image_wait_sleeps_witness :
  fst (LumaImageGen.wait_loop Waiting.completes_third 5 Waiting.poll_start)
  = Some true /\
  Polling.sleeps
    (snd (LumaImageGen.wait_loop Waiting.completes_third 5 Waiting.poll_start))
  = [2; 2; 2] /\
  Polling.n_get
    (snd (LumaImageGen.wait_loop Waiting.completes_third 5 Waiting.poll_start))
  = 3%nat.
Proof.
  apply (image_wait_sleeps Waiting.completes_third 2 Waiting.poll_start 5).
  - intros [|[|j]] Hj; [reflexivity | reflexivity | lia].
  - reflexivity.
  - lia.
Defined.

(** X16. [generate_image] returns a URL only together with the path of the
    image it saved: the directory was not the empty path, the generation was
    created and completed, the URL is that of its image and is not empty, and
    the download is the file at [os.path.join] of the directory and the id
    with [.jpg].  In every other case it returns no URL and no path; the
    files are then as they were, except that a download that broke off while
    the body was read leaves an empty file at the path of the image. *)
Theorem generate_image_outcome X fuel output_dir w files :
  match LumaImageGen.generate_image X fuel output_dir w files with
  | (Some (Some url, p), w', files') =>
      output_dir <> "" /\ url <> "" /\
      LumaImageGen.image_asset X = Some url /\
      fst (LumaImageGen.wait_loop (LumaImageGen.polls X) fuel w) = Some true /\
      exists id f,
        LumaImageGen.create_resp X = Ok id /\
        LumaImageGen.download_resp X = LumaImageGen.Downloaded f /\
        p = Some (LumaImageGen.path_join output_dir (id ++ ".jpg")) /\
        files' = <[LumaImageGen.path_join output_dir (id ++ ".jpg") := f]> files
  | (Some (None, p), _, files') =>
      p = None /\
      (files' = files \/
       exists id e,
         LumaImageGen.create_resp X = Ok id /\
         LumaImageGen.download_resp X = LumaImageGen.BodyRaises e /\
         fst (LumaImageGen.wait_loop (LumaImageGen.polls X) fuel w) = Some true /\
         files'
         = <[LumaImageGen.path_join output_dir (id ++ ".jpg") := FRaw 0]> files)
  | (None, _, files') =>
      files' = files /\
      fst (LumaImageGen.wait_loop (LumaImageGen.polls X) fuel w) = None
  end.
Proof.
  unfold LumaImageGen.generate_image.
  destruct (String.eqb output_dir "") eqn:Hdir; [split; [done|by left]|].
  apply String.eqb_neq in Hdir.
  destruct (LumaImageGen.create_resp X) as [id|e]; [|split; [done|by left]].
  destruct (LumaImageGen.wait_loop (LumaImageGen.polls X) fuel w)
    as [[[|]|] w']; [|split; [done|by left]|done].
  destruct (LumaImageGen.image_asset X) as [url|] eqn:Hurl;
    [|split; [done|by left]].
  destruct (truthy (Some url)) eqn:Ht; simpl; [|split; [done|by left]].
  destruct (LumaImageGen.download_resp X) as [e|e|f];
    [split; [done|by left]| |].
  - split; [done|]. right. by exists id, e.
  - split; [done|]. split; [by intros ->|]. split; [done|]. split; [done|].
    by exists id, f.
Qed.

(** ** The seconds asked of the engine and the total duration *)

#[local] Instance same_rendered_secs_stable video_engine :
  Stable (same_rendered_secs video_engine) no_render.
Proof.
  split; unfold same_rendered_secs; try done.
  - intros w1 w2 w3 H1 H2. by rewrite H2.
  - intros [] w He; done.
Qed.











(** ** Files are written, never removed *)

Lemma is_Some_insert (m : gmap string file) q f p :
  is_Some (m !! p) -> is_Some (<[q:=f]> m !! p).
Proof.
  intros H. destruct (decide (q = p)) as [->|Hne].
  - by rewrite lookup_insert_eq.
  - by rewrite lookup_insert_ne.
Qed.

Lemma keeps_files_refl w : keeps_files w w.
Proof. by intros p. Qed.

Lemma keeps_files_trans w1 w2 w3 :
  keeps_files w1 w2 -> keeps_files w2 w3 -> keeps_files w1 w3.
Proof. intros H1 H2 p Hp. by apply H2, H1. Qed.

Lemma files_bind {A B} (m : M A) (k : A -> M B) :
  preserves keeps_files m -> (forall x, preserves keeps_files (k x)) ->
  preserves keeps_files (bind m k).
Proof.
  intros Hm Hk w r w' H.
  apply bind_inv in H as [(e & H & _) | (x & w1 & H1 & H2)].
  - by eapply Hm.
  - eapply keeps_files_trans; [by eapply Hm | by eapply Hk].
Qed.

Lemma files_try_except {A} (m : M A) (h : error -> M A) :
  preserves keeps_files m -> (forall e, preserves keeps_files (h e)) ->
  preserves keeps_files (try_except m h).
Proof.
  intros Hm Hh w r w' H.
  apply try_except_inv in H as [(x & H & _) | (e & w1 & H1 & H2)].
  - by eapply Hm.
  - eapply keeps_files_trans; [by eapply Hm | by eapply Hh].
Qed.

(** A step written without [bind]: every branch leaves the files or inserts
    one. *)
Ltac files_leaf :=
  let H := fresh in
  let p := fresh "p" in
  let Hp := fresh in
  intros ? ? ? H; repeat case_match; simplify_eq; intros p Hp; simpl;
  repeat apply is_Some_insert; exact Hp.

Lemma files_ret {A} (x : A) : preserves keeps_files (ret x).
Proof. unfold ret. files_leaf. Qed.

Lemma files_raise {A} e : preserves keeps_files (@raise A e).
Proof. unfold raise. files_leaf. Qed.

Lemma files_lift {A} (x : result A) : preserves keeps_files (lift x).
Proof. unfold lift. files_leaf. Qed.

Lemma files_emit e : preserves keeps_files (emit e).
Proof. unfold emit. files_leaf. Qed.

Lemma files_get_fs : preserves keeps_files get_fs.
Proof. unfold get_fs. files_leaf. Qed.

Lemma files_write_file p f : preserves keeps_files (write_file p f).
Proof. unfold write_file. files_leaf. Qed.

Lemma files_exists_path p : preserves keeps_files (exists_path p).
Proof. unfold exists_path. files_leaf. Qed.

Lemma files_init o : preserves keeps_files (init o).
Proof. unfold init, raise, ret. files_leaf. Qed.

Lemma files_copy2 src dst : preserves keeps_files (copy2 src dst).
Proof. unfold copy2. files_leaf. Qed.

Lemma files_upload_image E path : preserves keeps_files (upload_image E path).
Proof. unfold upload_image. files_leaf. Qed.

Lemma files_lora_first_frame E a : preserves keeps_files (lora_first_frame E a).
Proof. unfold lora_first_frame, ret. files_leaf. Qed.

Lemma files_engine_call E i vid_idx secs video_path image_url :
  preserves keeps_files (engine_call E i vid_idx secs video_path image_url).
Proof. unfold engine_call. files_leaf. Qed.

Lemma files_convert_sound_effect E path :
  preserves keeps_files (convert_sound_effect E path).
Proof. unfold convert_sound_effect. files_leaf. Qed.

Lemma files_load_clips paths : preserves keeps_files (load_clips paths).
Proof.
  intros w r w' H. apply load_clips_world in H as ->. apply keeps_files_refl.
Qed.

Ltac files_step :=
  repeat first
    [ apply files_ret | apply files_raise | apply files_lift | apply files_emit
    | apply files_get_fs | apply files_write_file | apply files_exists_path
    | apply files_init | apply files_copy2 | apply files_upload_image
    | apply files_lora_first_frame | apply files_engine_call
    | apply files_convert_sound_effect | apply files_load_clips
    | apply files_bind; [|intros ?]
    | apply files_try_except; [|intros ?]
    | case_match ].

Lemma files_initial_frame E a : preserves keeps_files (initial_frame E a).
Proof. unfold initial_frame. files_step. Qed.

Lemma files_sound_effect E a i sc : preserves keeps_files (sound_effect E a i sc).
Proof. unfold sound_effect. files_step. Qed.

Lemma files_render_segment E a i vid_idx secs video_path image_url :
  preserves keeps_files (render_segment E a i vid_idx secs video_path image_url).
Proof. unfold render_segment. files_step. Qed.

Lemma files_extract_last_frame video_path frame_path :
  preserves keeps_files (extract_last_frame video_path frame_path).
Proof. unfold extract_last_frame. files_step. Qed.

Lemma files_upload_while E remaining frame_path i vid_idx n_segs c :
  forall retry_count,
    preserves keeps_files
      (upload_while E remaining retry_count frame_path i vid_idx n_segs c).
Proof.
  induction remaining as [|remaining IH]; intros retry_count; simpl.
  - apply files_ret.
  - apply files_bind; [apply files_upload_image|]. intros url. case_match.
    + unfold sleep. files_step.
    + apply files_bind; [apply files_emit|]. intros _. apply IH.
Qed.

Lemma files_upload_frame E sc frame_path i vid_idx n_segs c :
  preserves keeps_files (upload_frame E sc frame_path i vid_idx n_segs c).
Proof.
  unfold upload_frame. apply files_bind; [apply files_upload_while|].
  intros r. files_step.
Qed.

Lemma files_stitch_scene E sc scene_videos :
  preserves keeps_files (stitch_scene E sc scene_videos).
Proof. unfold stitch_scene, write_videofile. files_step. Qed.

Lemma files_segments E a i sc n_segs first scene_start video_durations :
  forall vid_idx c scene_videos,
    preserves keeps_files
      (segments E a i sc n_segs first scene_start vid_idx video_durations c
         scene_videos).
Proof.
  induction video_durations as [|secs rest IH];
    intros vid_idx c scene_videos; simpl.
  - apply files_ret.
  - apply files_bind; [apply files_render_segment|]. intros _.
    apply files_bind; [apply files_extract_last_frame|]. intros _.
    apply files_bind; [apply files_upload_frame|]. intros c'. apply IH.
Qed.

Lemma files_scene_step E a i sc first last :
  preserves keeps_files (scene_step E a i sc first last).
Proof.
  unfold scene_step, sleep.
  apply files_bind; [apply files_lift|]. intros durs.
  apply files_bind; [apply files_sound_effect|]. intros sound.
  apply files_bind; [apply files_lora_first_frame|]. intros scene_start.
  apply files_bind; [apply files_segments|]. intros r.
  apply files_bind; [apply files_stitch_scene|]. intros final.
  files_step.
Qed.

Lemma files_scenes_loop E a first :
  forall scenes i last vids sounds,
    preserves keeps_files (scenes_loop E a i scenes first last vids sounds).
Proof.
  induction scenes as [|sc rest IH]; intros i last vids sounds; simpl.
  - apply files_ret.
  - apply files_bind; [apply files_scene_step|]. intros r. apply IH.
Qed.

(** X18. [generate_scenes] writes files and never removes one: every path
    that names a file before a run names one after it, whether the run
    returns or raises. *)
Theorem generate_scenes_keeps_files E a scenes w :
  keeps_files w (snd (generate_scenes E a scenes w)).
Proof.
  destruct (generate_scenes E a scenes w) as [r w'] eqn:H. simpl.
  apply generate_scenes_inv in H
    as [(e & -> & ->) | [(e & -> & H) | (first & w1 & Hinit & H)]].
  - apply keeps_files_refl.
  - by eapply files_initial_frame.
  - eapply keeps_files_trans; [by eapply files_initial_frame|].
    by eapply files_scenes_loop.
Qed.

Lemma stitch_scene_file E sc scene_videos w p w' :
  stitch_scene E sc scene_videos w = (Ok p, w') -> is_Some (fs w' !! p).
Proof.
  unfold stitch_scene. destruct (1 <? length scene_videos)%nat.
  - intros H.
    apply bind_inv in H as [(e & _ & [=]) | (clips & w1 & Hload & H)].
    apply load_clips_world in Hload as ->.
    inversion H; subst. simpl. by rewrite lookup_insert_eq.
  - destruct scene_videos as [|single rest]; [done|].
    unfold bind, copy2.
    destruct (fs w !! single); [|done].
    destruct (String.eqb single (scene_final_path E sc)); [done|].
    intros [= <- <-]. simpl. by rewrite lookup_insert_eq.
Qed.

Lemma sound_effect_file E a i sc w p w' :
  sound_effect E a i sc w = (Ok (Some p), w') -> is_Some (fs w' !! p).
Proof.
  unfold sound_effect, try_except, bind, convert_sound_effect, get_fs, emit, ret.
  intros H. repeat case_match; simplify_eq; simpl in *; eauto.
Qed.

Lemma scene_step_files E a i sc first last w last' final sound w' :
  scene_step E a i sc first last w = (Ok (last', final, sound), w') ->
  is_Some (fs w' !! final) /\
  (forall p, sound = Some p -> is_Some (fs w' !! p)).
Proof.
  unfold scene_step. intros H.
  apply bind_inv in H as [(e & _ & [=]) | (durs & w0 & Hplan & H)].
  inversion Hplan as [[Hdurs Hw0]]; subst w0. clear Hplan.
  apply bind_inv in H as [(e & _ & [=]) | (sound0 & w1 & Hsound & H)].
  apply bind_inv in H as [(e & _ & [=]) | (scene_start & w2 & Hlora & H)].
  apply bind_inv in H as [(e & _ & [=]) | (r & w3 & Hsegs & H)].
  apply bind_inv in H as [(e & _ & [=]) | (p & w4 & Hstitch & H)].
  apply bind_inv in H as [(e & _ & [=]) | ([] & w5 & Hsleep & H)].
  inversion Hsleep; subst w5. inversion H; subst. clear H Hsleep. simpl.
  split; [by eapply stitch_scene_file|].
  intros q ->. apply sound_effect_file in Hsound.
  apply files_lora_first_frame in Hlora. apply files_segments in Hsegs.
  apply files_stitch_scene in Hstitch. by apply Hstitch, Hsegs, Hlora.
Qed.

Lemma scenes_loop_files E a first :
  forall scenes i last vids sounds w vids' sounds' w',
    scenes_loop E a i scenes first last vids sounds w = (Ok (vids', sounds'), w') ->
    Forall (fun p => is_Some (fs w !! p)) vids ->
    Forall (fun s : pystr => forall p, s = Some p -> is_Some (fs w !! p)) sounds ->
    Forall (fun p => is_Some (fs w' !! p)) vids' /\
    Forall (fun s : pystr => forall p, s = Some p -> is_Some (fs w' !! p)) sounds'.
Proof.
  induction scenes as [|sc rest IH];
    intros i last vids sounds w vids' sounds' w' H Hv Hs.
  - by inversion H; subst.
  - simpl in H.
    apply bind_inv in H as [(e & _ & [=]) | ([[last' final] sound] & w1 & Hstep & H)].
    pose proof (files_scene_step _ _ _ _ _ _ _ _ _ Hstep) as Hkeep.
    apply scene_step_files in Hstep as [Hfinal Hsound].
    apply IH in H; [done| |]; cbn [fst snd].
    + apply Forall_app. split; [|by apply Forall_singleton].
      eapply Forall_impl; [exact Hv|]. intros p Hp. by apply Hkeep.
    + apply Forall_app. split; [|by apply Forall_singleton].
      eapply Forall_impl; [exact Hs|]. intros s Hp p ->. by apply Hkeep, Hp.
Qed.

(** X19. When [generate_scenes] returns, every video path in its first list
    and every sound path in its second names a file at the end of the
    run. *)
Theorem returned_files_exist E a scenes w :
  match generate_scenes E a scenes w with
  | (Ok (scene_video_files, sound_effect_files), w') =>
      Forall (fun p => is_Some (fs w' !! p)) scene_video_files /\
      Forall (fun s : pystr => forall p, s = Some p -> is_Some (fs w' !! p))
        sound_effect_files
  | (Raise _, _) => True
  end.
Proof.
  destruct (generate_scenes E a scenes w) as [[[vids sounds]|e] w'] eqn:H;
    [|done].
  apply generate_scenes_inv in H
    as [(e & ? & _) | [(e & ? & _) | (first & w1 & Hinit & H)]]; try done.
  by apply scenes_loop_files in H.
Qed.

(** * The videos behind the lists of [generate_scenes] *)

(** ** Paths *)

Lemma string_app_cons c (s t : string) : String c s ++ t = String c (s ++ t).
Proof. reflexivity. Qed.

Lemma string_app_nil (t : string) : "" ++ t = t.
Proof. reflexivity. Qed.

Lemma string_app_assoc (s1 s2 s3 : string) : (s1 ++ s2) ++ s3 = s1 ++ s2 ++ s3.
Proof.
  induction s1 as [|c s1 IH]; [done|]. rewrite !string_app_cons. by f_equal.
Qed.

Lemma string_app_inv_head (s t1 t2 : string) : s ++ t1 = s ++ t2 -> t1 = t2.
Proof.
  induction s as [|c s IH]; [done|]. rewrite !string_app_cons.
  intros [= H]. by apply IH.
Qed.

Lemma string_app_inv_tail (t s1 s2 : string) : s1 ++ t = s2 ++ t -> s1 = s2.
Proof.
  revert s2. induction s1 as [|c s1 IH]; intros [|d s2] H.
  - done.
  - apply (f_equal String.length) in H.
    rewrite !string_length_app in H. simpl in H. lia.
  - apply (f_equal String.length) in H.
    rewrite !string_length_app in H. simpl in H. lia.
  - rewrite !string_app_cons in H. injection H as -> H. by rewrite (IH _ H).
Qed.

Lemma last_char_app (s t : string) :
  last_char (s ++ t)
  = match last_char t with Some d => Some d | None => last_char s end.
Proof.
  induction s as [|c s IH].
  - rewrite string_app_nil. by destruct (last_char t).
  - rewrite string_app_cons. simpl. rewrite IH.
    by destruct (last_char t), (last_char s).
Qed.

Lemma has_underscore_app (s t : string) :
  has_underscore (s ++ t) = has_underscore s || has_underscore t.
Proof.
  induction s as [|c s IH]; [done|]. rewrite string_app_cons. simpl.
  by rewrite IH, orb_assoc.
Qed.

(** Two strings that agree up to a first underscore agree before it and after
    it. *)
Lemma first_underscore (s1 s2 r1 r2 : string) :
  has_underscore s1 = false -> has_underscore s2 = false ->
  s1 ++ "_" ++ r1 = s2 ++ "_" ++ r2 -> s1 = s2 /\ r1 = r2.
Proof.
  revert s2. induction s1 as [|c s1 IH]; intros [|d s2] H1 H2 H;
    rewrite ?string_app_cons, ?string_app_nil in H; simpl in *.
  - by injection H as ->.
  - injection H as <- _. by rewrite Ascii.eqb_refl in H2.
  - injection H as -> _. by rewrite Ascii.eqb_refl in H1.
  - injection H as -> H.
    apply orb_false_iff in H1 as [_ H1]. apply orb_false_iff in H2 as [_ H2].
    destruct (IH _ H1 H2 H) as [-> ->]. done.
Qed.

Lemma pretty_N_go_no_underscore x s :
  has_underscore s = false -> has_underscore (pretty_N_go x s) = false.
Proof.
  revert s. induction (N.lt_wf_0 x) as [x _ IH]; intros s Hs.
  assert (x = 0 \/ 0 < x)%N as [->|Hx] by lia.
  - by rewrite pretty_N_go_0.
  - rewrite pretty_N_go_step by done. apply IH.
    { by apply N.div_lt. }
    simpl. rewrite Hs. unfold pretty_N_char. by repeat case_match.
Qed.

Lemma pretty_N_no_underscore (x : N) : has_underscore (pretty x) = false.
Proof.
  unfold pretty, pretty_N. case_decide; [done|].
  by apply pretty_N_go_no_underscore.
Qed.

Lemma pretty_nat_no_underscore (x : nat) : has_underscore (pretty x) = false.
Proof. apply pretty_N_no_underscore. Qed.

Lemma pretty_Z_no_underscore (x : Z) : has_underscore (pretty x) = false.
Proof.
  destruct x as [|x|x]; [done|apply pretty_N_no_underscore|].
  change (pretty (Z.neg x)) with ("-" ++ pretty (N.pos x)).
  rewrite has_underscore_app. by rewrite pretty_N_no_underscore.
Qed.

(** Every video path of a scene begins with the video directory, [/scene_],
    the number of the scene and an underscore. *)
Lemma scene_final_path_shape E sc :
  scene_final_path E sc
  = video_dir E ++ "/scene_" ++ pretty (scene_number sc) ++ "_"
      ++ timestamp E ++ ".mp4".
Proof. reflexivity. Qed.

Lemma segment_video_path_shape E sc n_segs vid_idx :
  exists rest,
    segment_video_path E sc n_segs vid_idx
    = video_dir E ++ "/scene_" ++ pretty (scene_number sc) ++ "_"
        ++ "all_vid_" ++ timestamp E ++ rest.
Proof.
  unfold segment_video_path, scene_dir. destruct (n_segs =? 1)%nat;
    eexists; rewrite !string_app_assoc; reflexivity.
Qed.

Lemma video_paths_number E (n1 n2 : Z) r1 r2 :
  video_dir E ++ "/scene_" ++ pretty n1 ++ "_" ++ r1
  = video_dir E ++ "/scene_" ++ pretty n2 ++ "_" ++ r2 ->
  n1 = n2 /\ r1 = r2.
Proof.
  intros H. apply string_app_inv_head, string_app_inv_head in H.
  apply first_underscore in H as [H ->]; try apply pretty_Z_no_underscore.
  split; [|done]. by apply (inj pretty).
Qed.

Lemma scene_final_path_inj E sc sc' :
  scene_final_path E sc = scene_final_path E sc' ->
  scene_number sc = scene_number sc'.
Proof.
  rewrite !scene_final_path_shape. intros H.
  by apply video_paths_number in H as [H _].
Qed.

Lemma segment_video_path_number E sc sc' n_segs n_segs' vid_idx vid_idx' :
  segment_video_path E sc n_segs vid_idx
  = segment_video_path E sc' n_segs' vid_idx' ->
  scene_number sc = scene_number sc'.
Proof.
  destruct (segment_video_path_shape E sc n_segs vid_idx) as [r ->].
  destruct (segment_video_path_shape E sc' n_segs' vid_idx') as [r' ->].
  intros H. by apply video_paths_number in H as [H _].
Qed.

Lemma segment_video_path_never_final E sc sc' n_segs vid_idx :
  segment_video_path E sc n_segs vid_idx <> scene_final_path E sc'.
Proof.
  destruct (segment_video_path_shape E sc n_segs vid_idx) as [r ->].
  rewrite scene_final_path_shape. intros H.
  apply video_paths_number in H as [_ H].
  apply (f_equal String.length) in H. revert H.
  rewrite !string_length_app. simpl. lia.
Qed.

Lemma segment_video_path_inj E sc n_segs vid_idx vid_idx' :
  n_segs <> 1%nat ->
  segment_video_path E sc n_segs vid_idx
  = segment_video_path E sc n_segs vid_idx' ->
  vid_idx = vid_idx'.
Proof.
  intros Hn. unfold segment_video_path.
  destruct (Nat.eqb_spec n_segs 1) as [|_]; [done|].
  intros H. do 4 apply string_app_inv_head in H.
  apply first_underscore in H as [H _]; try apply pretty_nat_no_underscore.
  by apply (inj pretty).
Qed.

Lemma last_char_segment_video_path E sc n_segs vid_idx :
  last_char (segment_video_path E sc n_segs vid_idx) = Some "4"%char.
Proof.
  unfold segment_video_path. destruct (n_segs =? 1)%nat;
    by rewrite !last_char_app.
Qed.

Lemma last_char_scene_final_path E sc :
  last_char (scene_final_path E sc) = Some "4"%char.
Proof. unfold scene_final_path. by rewrite !last_char_app. Qed.

Lemma last_char_segment_frame_path E sc n_segs vid_idx :
  last_char (segment_frame_path E sc n_segs vid_idx) = Some "g"%char.
Proof.
  unfold segment_frame_path. destruct (n_segs =? 1)%nat;
    by rewrite !last_char_app.
Qed.

Lemma last_char_sound_effect_path E sc :
  last_char (sound_effect_path E sc) = Some "3"%char.
Proof. unfold sound_effect_path. by rewrite !last_char_app. Qed.

(** ** Files that are left as they are *)

Lemma same_at_refl p w : same_at p w w.
Proof. done. Qed.

Lemma same_at_trans p w1 w2 w3 :
  same_at p w1 w2 -> same_at p w2 w3 -> same_at p w1 w3.
Proof. unfold same_at. by intros <- <-. Qed.

Lemma same_at_bind {A B} p (m : M A) (k : A -> M B) :
  preserves (same_at p) m -> (forall x, preserves (same_at p) (k x)) ->
  preserves (same_at p) (bind m k).
Proof.
  intros Hm Hk w r w' H.
  apply bind_inv in H as [(e & H & _) | (x & w1 & H1 & H2)].
  - by eapply Hm.
  - eapply same_at_trans; [by eapply Hm | by eapply Hk].
Qed.

Lemma same_at_try_except {A} p (m : M A) (h : error -> M A) :
  preserves (same_at p) m -> (forall e, preserves (same_at p) (h e)) ->
  preserves (same_at p) (try_except m h).
Proof.
  intros Hm Hh w r w' H.
  apply try_except_inv in H as [(x & H & _) | (e & w1 & H1 & H2)].
  - by eapply Hm.
  - eapply same_at_trans; [by eapply Hm | by eapply Hh].
Qed.

(** A step written without [bind]: every branch leaves the files or inserts
    one at another path. *)
Ltac same_at_leaf :=
  let H := fresh in
  intros ? ? ? H; repeat case_match; simplify_eq; unfold same_at; simpl;
  rewrite ?lookup_insert_ne by done; done.

Lemma same_at_ret {A} p (x : A) : preserves (same_at p) (ret x).
Proof. unfold ret. same_at_leaf. Qed.

Lemma same_at_raise {A} p e : preserves (same_at p) (@raise A e).
Proof. unfold raise. same_at_leaf. Qed.

Lemma same_at_emit p e : preserves (same_at p) (emit e).
Proof. unfold emit. same_at_leaf. Qed.

Lemma same_at_get_fs p : preserves (same_at p) get_fs.
Proof. unfold get_fs. same_at_leaf. Qed.

Lemma same_at_exists_path p q : preserves (same_at p) (exists_path q).
Proof. unfold exists_path. same_at_leaf. Qed.

Lemma same_at_upload_image p E path : preserves (same_at p) (upload_image E path).
Proof. unfold upload_image. same_at_leaf. Qed.

Lemma same_at_lora_first_frame p E a :
  preserves (same_at p) (lora_first_frame E a).
Proof. unfold lora_first_frame, ret. same_at_leaf. Qed.

Lemma same_at_load_clips p paths : preserves (same_at p) (load_clips paths).
Proof. intros w r w' H. by apply load_clips_world in H as ->. Qed.

Lemma same_at_write_file p q f :
  p <> q -> preserves (same_at p) (write_file q f).
Proof. intros Hq. unfold write_file. same_at_leaf. Qed.

Lemma same_at_copy2 p src dst :
  p <> dst -> preserves (same_at p) (copy2 src dst).
Proof. intros Hq. unfold copy2. same_at_leaf. Qed.

Lemma same_at_engine_call p E i vid_idx secs video_path image_url :
  p <> video_path ->
  preserves (same_at p) (engine_call E i vid_idx secs video_path image_url).
Proof. intros Hq. unfold engine_call. same_at_leaf. Qed.

Lemma same_at_convert_sound_effect p E path :
  p <> path -> preserves (same_at p) (convert_sound_effect E path).
Proof. intros Hq. unfold convert_sound_effect. same_at_leaf. Qed.

Ltac same_at_step :=
  repeat first
    [ apply same_at_ret | apply same_at_raise | apply same_at_emit
    | apply same_at_get_fs | apply same_at_exists_path
    | apply same_at_upload_image | apply same_at_lora_first_frame
    | apply same_at_load_clips
    | by apply same_at_write_file | by apply same_at_copy2
    | by apply same_at_engine_call | by apply same_at_convert_sound_effect
    | apply same_at_bind; [|intros ?]
    | apply same_at_try_except; [|intros ?]
    | case_match ].

Lemma same_at_sound_effect p E a i sc :
  p <> sound_effect_path E sc -> preserves (same_at p) (sound_effect E a i sc).
Proof. intros Hq. unfold sound_effect. same_at_step. Qed.

Lemma same_at_render_segment p E a i vid_idx secs video_path image_url :
  p <> video_path ->
  preserves (same_at p) (render_segment E a i vid_idx secs video_path image_url).
Proof. intros Hq. unfold render_segment. same_at_step. Qed.

Lemma same_at_extract_last_frame p video_path frame_path :
  p <> frame_path ->
  preserves (same_at p) (extract_last_frame video_path frame_path).
Proof. intros Hq. unfold extract_last_frame. same_at_step. Qed.

Lemma same_at_upload_frame p E sc frame_path i vid_idx n_segs c :
  preserves (same_at p) (upload_frame E sc frame_path i vid_idx n_segs c).
Proof.
  unfold upload_frame. apply same_at_bind; [|intros r; same_at_step].
  generalize 0%nat. induction max_retries as [|remaining IH];
    intros retry_count; simpl.
  - apply same_at_ret.
  - apply same_at_bind; [apply same_at_upload_image|]. intros url. case_match.
    + unfold sleep. same_at_step.
    + apply same_at_bind; [apply same_at_emit|]. intros _. apply IH.
Qed.

Lemma same_at_stitch_scene p E sc scene_videos :
  p <> scene_final_path E sc ->
  preserves (same_at p) (stitch_scene E sc scene_videos).
Proof. intros Hq. unfold stitch_scene, write_videofile. same_at_step. Qed.

(** The segments from [vid_idx] on write the videos and the frames of their
    own indices only. *)
Lemma same_at_segments p E a i sc n_segs first scene_start video_durations :
  forall vid_idx c scene_videos,
    (forall k, (vid_idx <= k < vid_idx + length video_durations)%nat ->
       p <> segment_video_path E sc n_segs k /\
       p <> segment_frame_path E sc n_segs k) ->
    preserves (same_at p)
      (segments E a i sc n_segs first scene_start vid_idx video_durations c
         scene_videos).
Proof.
  induction video_durations as [|secs rest IH];
    intros vid_idx c scene_videos Hp; simpl.
  - apply same_at_ret.
  - destruct (Hp vid_idx) as [Hv Hf]; [simpl; lia|].
    apply same_at_bind; [by apply same_at_render_segment|]. intros _.
    apply same_at_bind; [by apply same_at_extract_last_frame|]. intros _.
    apply same_at_bind; [apply same_at_upload_frame|]. intros c'.
    apply IH. intros k Hk. apply Hp. simpl. lia.
Qed.

Lemma same_at_scene_step p E a i sc first last :
  not_written_by E sc p ->
  preserves (same_at p) (scene_step E a i sc first last).
Proof.
  intros (Hsound & Hfinal & Hvideo & Hframe). unfold scene_step, sleep, lift.
  apply same_at_bind; [intros w r w' [= <- <-]; apply same_at_refl|].
  intros durs.
  apply same_at_bind; [by apply same_at_sound_effect|]. intros sound.
  apply same_at_bind; [apply same_at_lora_first_frame|]. intros scene_start.
  apply same_at_bind; [by apply same_at_segments|]. intros r.
  apply same_at_bind; [by apply same_at_stitch_scene|]. intros final.
  same_at_step.
Qed.

Lemma same_at_scenes_loop p E a first :
  forall scenes i last vids sounds,
    Forall (fun sc => not_written_by E sc p) scenes ->
    preserves (same_at p) (scenes_loop E a i scenes first last vids sounds).
Proof.
  induction scenes as [|sc rest IH]; intros i last vids sounds Hp; simpl.
  - apply same_at_ret.
  - inversion Hp as [|? ? Hsc Hrest]; subst.
    apply same_at_bind; [by apply same_at_scene_step|]. intros r. by apply IH.
Qed.

(** The videos of a scene are written by no scene of another number. *)
Lemma final_not_written_by E sc sc' :
  scene_number sc <> scene_number sc' ->
  not_written_by E sc' (scene_final_path E sc).
Proof.
  intros Hne. split; [|split; [|split]].
  - intros H. apply (f_equal last_char) in H.
    by rewrite last_char_scene_final_path, last_char_sound_effect_path in H.
  - intros H. by apply scene_final_path_inj in H.
  - intros n_segs vid_idx H. symmetry in H.
    by apply segment_video_path_never_final in H.
  - intros n_segs vid_idx H. apply (f_equal last_char) in H.
    by rewrite last_char_scene_final_path, last_char_segment_frame_path in H.
Qed.

Lemma segment_not_written_by E sc sc' n_segs vid_idx :
  scene_number sc <> scene_number sc' ->
  not_written_by E sc' (segment_video_path E sc n_segs vid_idx).
Proof.
  intros Hne. split; [|split; [|split]].
  - intros H. apply (f_equal last_char) in H.
    by rewrite last_char_segment_video_path, last_char_sound_effect_path in H.
  - by apply segment_video_path_never_final.
  - intros n_segs' vid_idx' H. by apply segment_video_path_number in H.
  - intros n_segs' vid_idx' H. apply (f_equal last_char) in H.
    by rewrite last_char_segment_video_path, last_char_segment_frame_path in H.
Qed.

(** ** The clips behind the videos of a scene *)

Lemma render_segment_file E a i vid_idx secs video_path image_url w w' f :
  render_segment E a i vid_idx secs video_path image_url w = (Ok tt, w') ->
  render_resp E (n_render w) = RenderReturns (Some f) ->
  fs w' !! video_path = Some f.
Proof.
  unfold render_segment, try_except, bind, engine_call, exists_path, raise, ret.
  intros H Hf. repeat case_match; simplify_eq; simpl.
  all: try (rewrite Hf in *; simplify_eq); by rewrite lookup_insert_eq.
Qed.

Lemma extract_last_frame_video video_path frame_path w w' :
  extract_last_frame video_path frame_path w = (Ok tt, w') ->
  exists frs tr, fs w !! video_path = Some (FVideo frs tr).
Proof.
  unfold extract_last_frame, bind, get_fs, write_file, raise.
  intros H. repeat case_match; simplify_eq; eauto.
Qed.

Lemma segments_clips E a i sc n_segs first scene_start video_durations :
  forall vid_idx c scene_videos w c' scene_videos' w',
    (n_segs = 1%nat -> (length video_durations <= 1)%nat) ->
    segments E a i sc n_segs first scene_start vid_idx video_durations c
      scene_videos w = (Ok (c', scene_videos'), w') ->
    scene_videos'
    = (scene_videos
       ++ map (segment_video_path E sc n_segs)
            (seq vid_idx (length video_durations)))%list /\
    exists clips,
      length clips = length video_durations /\
      forall k cl,
        clips !! k = Some cl ->
        holds_clip w' (segment_video_path E sc n_segs (vid_idx + k)) cl /\
        forall f, render_resp E (n_render w + k) = RenderReturns (Some f) ->
                  f = FVideo (frames cl) (audio cl).
Proof.
  induction video_durations as [|secs rest IH];
    intros vid_idx c scene_videos w c' scene_videos' w' Hone H.
  - inversion H; subst. split; [by rewrite app_nil_r|]. by exists [].
  - simpl in H.
    apply bind_inv in H as [(e & _ & ?) | ([] & w1 & Hrender & H)]; [done|].
    apply bind_inv in H as [(e & _ & ?) | ([] & w2 & Hframe & H)]; [done|].
    apply bind_inv in H as [(e & _ & ?) | (c1 & w3 & Hup & H)]; [done|].
    set (p := segment_video_path E sc n_segs vid_idx) in *.
    set (fp := segment_frame_path E sc n_segs vid_idx) in *.
    assert (p <> fp) as Hpf.
    { intros Heq. apply (f_equal last_char) in Heq. subst p fp.
      by rewrite last_char_segment_video_path, last_char_segment_frame_path
        in Heq. }
    pose proof (fun f => render_segment_file _ _ _ _ _ _ _ _ _ f Hrender)
      as Hsaved.
    pose proof (proj2 (render_segment_n_render _ _ _ _ _ _ _ _ _ _ Hrender)
                  eq_refl) as Hn1.
    destruct (extract_last_frame_video _ _ _ _ Hframe) as (frs & tr & Hfile).
    pose proof (same_at_extract_last_frame p _ _ Hpf _ _ _ Hframe) as Hkeep2.
    pose proof (keeps_extract_last_frame same_n_render true false true true
                  _ _ _ _ _ Hframe) as Hn2.
    pose proof (same_at_upload_frame p _ _ _ _ _ _ _ _ _ _ Hup) as Hkeep3.
    pose proof (keeps_upload_frame same_n_render true false true true
                  _ _ _ _ _ _ _ eq_refl _ _ _ Hup) as Hn3.
    assert (same_at p w3 w') as Hkeep.
    { eapply same_at_segments; [|exact H]. intros k Hk. split.
      - intros Heq. subst p.
        destruct (decide (n_segs = 1%nat)) as [Hn|Hn].
        + specialize (Hone Hn). simpl in *. lia.
        + apply segment_video_path_inj in Heq; [lia|done].
      - intros Heq. apply (f_equal last_char) in Heq. subst p.
        by rewrite last_char_segment_video_path, last_char_segment_frame_path
          in Heq. }
    apply IH in H as (-> & clips & Hlen & Hclips); [|simpl in Hone; lia].
    split.
    { rewrite <- app_assoc. done. }
    exists ({| frames := frs; audio := tr |} :: clips).
    split; [simpl; by rewrite Hlen|].
    intros [|k] cl Hcl; simpl in Hcl.
    + inversion Hcl; subst cl. rewrite !Nat.add_0_r. fold p. split.
      * unfold holds_clip, same_at in *. simpl.
        by rewrite Hkeep, Hkeep3, Hkeep2.
      * intros f Hf. apply Hsaved in Hf. rewrite Hfile in Hf.
        by inversion Hf.
    + destruct (Hclips k cl Hcl) as [Hholds Hresp].
      replace (vid_idx + S k)%nat with (S vid_idx + k)%nat by lia.
      split; [done|]. intros f Hf. apply Hresp.
      unfold same_n_render in *.
      replace (n_render w3 + k)%nat with (n_render w + S k)%nat by lia. done.
Qed.

Lemma stitch_scene_video E sc scene_videos clips w p w' :
  Forall2 (holds_clip w) scene_videos clips ->
  stitch_scene E sc scene_videos w = (Ok p, w') ->
  holds_clip w' (scene_final_path E sc) (scene_video clips).
Proof.
  intros Hclips. unfold stitch_scene.
  pose proof (Forall2_length _ _ _ Hclips) as Hlen.
  destruct (Nat.ltb_spec 1 (length scene_videos)) as [Hlt|Hle].
  - unfold bind. rewrite (load_clips_holds _ _ _ Hclips).
    intros [= <- <-]. unfold holds_clip, scene_video. simpl.
    rewrite lookup_insert_eq.
    destruct clips as [|c1 [|c2 clips]]; simpl in *; try lia. done.
  - destruct Hclips as [|single c rest cs Hsingle Hrest]; [done|].
    destruct Hrest; [|simpl in *; lia].
    unfold bind, copy2. rewrite Hsingle.
    destruct (String.eqb single (scene_final_path E sc)); [done|].
    intros [= <- <-]. unfold holds_clip, scene_video. simpl.
    by rewrite lookup_insert_eq.
Qed.

Lemma scene_step_video E a i sc first last w x w' :
  scene_step E a i sc first last w = (Ok x, w') ->
  holds_scene_video E a (n_render w) sc w'.
Proof.
  unfold scene_step. intros H.
  apply bind_inv in H as [(e & _ & ?) | (durs & w0 & Hplan & H)]; [done|].
  inversion Hplan as [[Hdurs Hw0]]; subst w0. clear Hplan.
  apply bind_inv in H as [(e & _ & ?) | (sound & w1 & Hsound & H)]; [done|].
  apply bind_inv in H as [(e & _ & ?) | (scene_start & w2 & Hlora & H)]; [done|].
  apply bind_inv in H as [(e & _ & ?) | ([c' vids] & w3 & Hsegs & H)]; [done|].
  apply bind_inv in H as [(e & _ & ?) | (final & w4 & Hstitch & H)]; [done|].
  apply bind_inv in H as [(e & _ & ?) | ([] & w5 & Hsleep & H)]; [done|].
  inversion Hsleep; subst w5. inversion H; subst. clear H Hsleep.
  apply (keeps_sound_effect same_n_render true false true true) in Hsound;
    [|by left].
  apply (keeps_lora_first_frame same_n_render true false true true) in Hlora;
    [|by left].
  apply segments_clips in Hsegs as (Hvids & clips & Hlen & Hclips); [|lia].
  simpl in Hvids, Hstitch. subst vids.
  assert (Forall2 (holds_clip w3)
            (map (segment_video_path E sc (length durs)) (seq 1 (length durs)))
            clips) as Hall.
  { apply Forall2_same_length_lookup_2.
    { by rewrite length_map, length_seq. }
    intros k p cl Hp Hcl. rewrite list_lookup_fmap in Hp.
    destruct (seq 1 (length durs) !! k) as [j|] eqn:Hj; [|done].
    apply lookup_seq in Hj as [-> _]. inversion Hp; subst p.
    by apply Hclips. }
  exists durs, clips. split; [done|]. split; [done|]. split.
  - intros k cl Hcl. destruct (Hclips k cl Hcl) as [Hholds Hresp]. split.
    + pose proof (same_at_stitch_scene
                    (segment_video_path E sc (length durs) (S k)) E sc _
                    (segment_video_path_never_final _ _ _ _ _)
                    _ _ _ Hstitch) as Hkeep.
      unfold holds_clip, same_at in *. simpl. by rewrite Hkeep.
    + intros f Hf. apply Hresp. unfold same_n_render in *.
      by rewrite Hlora, Hsound.
  - unfold holds_clip. simpl. by eapply stitch_scene_video.
Qed.

Lemma holds_scene_video_later E a first_call sc w w' :
  same_at (scene_final_path E sc) w w' ->
  (forall n_segs vid_idx,
     same_at (segment_video_path E sc n_segs vid_idx) w w') ->
  holds_scene_video E a first_call sc w ->
  holds_scene_video E a first_call sc w'.
Proof.
  intros Hfinal Hsegs (durs & clips & Hdurs & Hlen & Hclips & Hvideo).
  exists durs, clips. split; [done|]. split; [done|].
  unfold holds_clip, same_at in *. split.
  - intros k cl Hcl. destruct (Hclips k cl Hcl) as [Hholds Hresp].
    split; [|done]. by rewrite Hsegs.
  - by rewrite Hfinal.
Qed.

Lemma scenes_loop_videos E a first :
  forall scenes i last vids sounds w x w',
    NoDup (map scene_number scenes) ->
    scenes_loop E a i scenes first last vids sounds w = (Ok x, w') ->
    forall j sc,
      scenes !! j = Some sc ->
      holds_scene_video E a
        (n_render w + total_segments (video_engine a) (take j scenes)) sc w'.
Proof.
  induction scenes as [|sc0 rest IH];
    intros i last vids sounds w x w' Hnodup H j sc Hj; [done|].
  simpl in H.
  apply bind_inv in H as [(e & _ & ?) | (r & w1 & Hstep & H)]; [done|].
  apply NoDup_cons in Hnodup as [Hfresh Hnodup].
  pose proof (scene_step_calls _ _ _ _ _ _ _ _ _ Hstep) as (_ & _ & Hcalls).
  destruct (Hcalls eq_refl) as [Hn1 _].
  destruct j as [|j]; simpl in Hj.
  - inversion Hj; subst sc0. simpl.
    unfold total_segments. simpl. rewrite Nat.add_0_r.
    apply scene_step_video in Hstep.
    assert (Forall (fun sc' => scene_number sc <> scene_number sc') rest)
      as Hother.
    { apply Forall_forall. intros sc' Hin Heq. apply Hfresh.
      rewrite Heq. by apply list_elem_of_fmap_2. }
    eapply holds_scene_video_later; [| |exact Hstep].
    + eapply same_at_scenes_loop; [|exact H].
      eapply Forall_impl; [exact Hother|]. intros sc' Hne.
      by apply final_not_written_by.
    + intros n_segs vid_idx. eapply same_at_scenes_loop; [|exact H].
      eapply Forall_impl; [exact Hother|]. intros sc' Hne.
      by apply segment_not_written_by.
  - specialize (IH _ _ _ _ _ _ _ Hnodup H j sc Hj).
    replace (n_render w
             + total_segments (video_engine a) (take (S j) (sc0 :: rest)))%nat
      with (n_render w1 + total_segments (video_engine a) (take j rest))%nat;
      [done|].
    unfold total_segments. simpl. lia.
Qed.

(** C10 (as amended).  On scenes whose numbers are pairwise different, a
    successful [generate_scenes] returns two lists as long as the list of
    scenes, aligned with it.  The i-th video path is the path of the i-th
    scene's video, and the file there at the end of the run is that scene's
    video: the video of its one segment, or the concatenation of the videos of
    its segments in their order, each of them the file the engine saved in
    the render call made for that segment.  The i-th sound entry is the path
    of the i-th scene's sound file, or [None] when sound effects are skipped,
    the service fails, or the file is empty. *)
Theorem C10_scene_lists_aligned E a scenes w scene_video_files sound_effect_files w' :
  NoDup (map scene_number scenes) ->
  generate_scenes E a scenes w = (Ok (scene_video_files, sound_effect_files), w') ->
  length scene_video_files = length scenes /\
  length sound_effect_files = length scenes /\
  sound_effect_files = sound_entries E a (n_sfx w) scenes /\
  forall i sc,
    scenes !! i = Some sc ->
    scene_video_files !! i = Some (scene_final_path E sc) /\
    holds_scene_video E a
      (n_render w + total_segments (video_engine a) (take i scenes)) sc w' /\
    (exists ev, In ev (trace w') /\ stitched_to (scene_final_path E sc) ev) /\
    (sound_effect_files !! i = Some None \/
     sound_effect_files !! i = Some (Some (sound_effect_path E sc))) /\
    (skip_sound_effects a = true -> sound_effect_files !! i = Some None).
Proof.
  intros Hnodup H.
  apply generate_scenes_inv in H
    as [(e & [=] & _) | [(e & [=] & _) | (first & w1 & Hinit & H)]].
  pose proof (keeps_initial_frame same_n_render true false true true
                _ _ eq_refl _ _ _ Hinit) as Hrender.
  apply (preserves_initial_frame same_n_sfx any_event) in Hinit; [|done].
  pose proof (scenes_loop_videos _ _ _ _ _ _ _ _ _ _ _ Hnodup H) as Hvideos.
  apply scenes_loop_result in H as (-> & -> & _ & Hall).
  rewrite Hinit. simpl.
  split; [by rewrite length_map|].
  split; [by rewrite sound_entries_length|].
  split; [done|].
  intros i sc Hi.
  split; [by rewrite list_lookup_fmap, Hi|].
  split.
  { unfold same_n_render in Hrender. rewrite <- Hrender. by apply Hvideos. }
  split.
  { rewrite Forall_forall in Hall. apply Hall.
    apply list_elem_of_lookup. eauto. }
  destruct (sound_entries_lookup E a scenes (n_sfx w) i sc Hi) as [k' Hk'].
  split.
  - destruct (sound_entry_cases E a k' sc) as [Hc | Hc]; rewrite Hc in Hk';
      [left | right]; exact Hk'.
  - intros Hskip. rewrite (sound_entry_skipped _ _ _ _ Hskip) in Hk'. exact Hk'.
Qed.

Lemma C10_scene_lists_aligned_witness :
  fst two_scene_run =
    Ok (["generated_videos/video_T/scene_1_T.mp4";
         "generated_videos/video_T/scene_2_T.mp4"], [None; None]) /\
  length ["generated_videos/video_T/scene_1_T.mp4";
          "generated_videos/video_T/scene_2_T.mp4"] = 2%nat /\
  length [@None string; None] = 2%nat /\
  holds_scene_video (stub_env numbered_url two_frames no_sound) luma_args 1
    (scene_of 2 14) (snd two_scene_run).
Proof.
  split; [vm_compute; reflexivity|].
  destruct (C10_scene_lists_aligned (stub_env numbered_url two_frames no_sound)
              luma_args [scene_of 1 5; scene_of 2 14] (start_world ∅)
              ["generated_videos/video_T/scene_1_T.mp4";
               "generated_videos/video_T/scene_2_T.mp4"]
              [None; None] (snd two_scene_run))
    as (H1 & H2 & _ & H4).
  - apply (bool_decide_unpack _). vm_compute. exact I.
  - vm_compute. reflexivity.
  - split; [exact H1|]. split; [exact H2|].
    exact (proj1 (proj2 (H4 1%nat (scene_of 2 14) eq_refl))).
Defined.

(** C10 as stated fails on scenes that carry the same number: their videos
    are written to the same paths, so that the first entry of the list names
    a file that holds the video of the later scene. *)
Lemma C10_counterexample : ~ scene_lists_aligned.
Proof.
  intros H.
  destruct (H (stub_env numbered_url two_frames no_sound) luma_args
              [scene_of 1 5; scene_of 1 5] (start_world ∅)
              ["generated_videos/video_T/scene_1_T.mp4";
               "generated_videos/video_T/scene_1_T.mp4"]
              [None; None] (snd same_number_run)) as (_ & _ & Hi).
  { vm_compute. reflexivity. }
  destruct (Hi 0%nat (scene_of 1 5) eq_refl)
    as (_ & (durs & clips & Hdurs & Hlen & Hclips & Hvideo) & _).
  vm_compute in Hdurs. inversion Hdurs; subst durs.
  destruct clips as [|c [|c' clips]]; try discriminate Hlen.
  destruct (Hclips 0%nat c eq_refl) as [_ Hsaved].
  specialize (Hsaved (FVideo [0%nat; 1%nat] None) eq_refl).
  unfold holds_clip, scene_video in Hvideo.
  inversion Hsaved as [[Hframes Haudio]].
  rewrite <- Hframes, <- Haudio in Hvideo.
  vm_compute in Hvideo. discriminate Hvideo.
Qed.
